(** * Terrain storage engine and priority worker pool: a shallow embedding

    This development embeds, function by function, the two cores of the
    repository:

    - [terrainStorageEngine.hpp]: [GridCacheItem], [GridLRUCache] and
      [TerrainStorageEngine], on top of the [LevelDBManager] facade of
      [levelDBmanager.hpp];
    - [advancedthreadpool.hpp]: [AdvancedThreadPool] with its priority queue,
      worker loop and shutdown.

    Modelling conventions.

    - A C++ [double] is an exact rational ([Q]).  Comparisons, [std::max],
      [std::min], subtraction and division are the exact ones; binary rounding
      error is outside the model.  [static_cast<int>] truncates toward zero,
      [std::ceil] is [Qceiling]; an [int] is a [Z] (the conversions that would
      be undefined in C++ for values outside the [int] range are not modelled).
    - [std::string] is [string]; ordering of keys is the byte-wise order
      [String.ltb], which is the order of [std::string::operator<] and of the
      LevelDB bytewise comparator.
    - The LevelDB database is a finite map from keys to values
      ([gmap string string]); a range scan returns its entries in key order.
      I/O failures of the store are outside the model.
    - [std::unordered_map] is a [gmap]; iterating over it yields its entries in
      an unspecified order ([map_to_list]).
    - A thrown exception is the [Throw] case of [result]; an operation that
      can throw after it has changed the engine returns the changed engine
      next to the exception.
    - The engine is used by one thread at a time (only its cache is guarded
      by a mutex), and the callback of [rangeQuery] does not call back into
      the engine: a query is the list of the calls it makes to the callback.
    - The pool is a transition system: each atomic step of a submitting
      thread, a worker, the manager or the thread that shuts the pool down is
      an [event], and a run is a sequence of events, so every interleaving of
      the threads is a run.  A wait may end at any time (the standard allows
      spurious wake-ups).

    The examples use coordinates away from the edges of the cells, where the
    exact quotient and the quotient of the binary [double]s have the same
    integer part; at the upper bounds of the fixture, [(117.5 - 116.0) / 0.01]
    and [(41.0 - 39.0) / 0.01] are the integers 150 and 200 in both. *)

From Stdlib Require Import QArith Qabs Qround ZArith NArith Ascii String List Bool Lia.
From stdpp Require Import gmap strings list fin_maps sorting.

#[local] Open Scope string_scope.

(** ** Results of operations that may throw *)

Inductive exception : Type :=
  | GridSizeNotPositive                 (* "Grid size must be positive" *)
  | CoordinateOutOfRange (lon lat : Q). (* the out-of-range message of put / batchPut *)

Inductive result (A : Type) : Type :=
  | Ok (a : A)
  | Throw (e : exception).
Arguments Ok {A} a.
Arguments Throw {A} e.

(** ** Numbers and their text *)

Module Num.

(** [std::max(a, b)] is [(a < b) ? b : a], [std::min(a, b)] is
    [(b < a) ? b : a]. *)
Definition Qltb (a b : Q) : bool := negb (Qle_bool b a).
Definition std_max (a b : Q) : Q := if Qltb a b then b else a.
Definition std_min (a b : Q) : Q := if Qltb b a then b else a.

(** [static_cast<int>(x)]: truncation toward zero. *)
Definition cast_int (x : Q) : Z := Z.quot (Qnum x) (Z.pos (Qden x)).

(** [std::max] and [std::min] on [int]. *)
Definition int_max (a b : Z) : Z := if (a <? b)%Z then b else a.
Definition int_min (a b : Z) : Z := if (b <? a)%Z then b else a.

Definition digit_char (d : N) : ascii := ascii_of_N (48 + d).

(** The [k] least significant decimal digits of [n], most significant
    first, zero filled. *)
Fixpoint fixed_digits (k : nat) (n : N) : string :=
  match k with
  | O => ""
  | S k' => fixed_digits k' (n / 10) ++ String (digit_char (n mod 10)) ""
  end.

(** Number of decimal digits of [n] (one for zero). *)
Fixpoint ndigits_fuel (fuel : nat) (n : N) : nat :=
  match fuel with
  | O => 1
  | S fuel' => if (n <? 10)%N then 1 else S (ndigits_fuel fuel' (n / 10))
  end.
Definition ndigits (n : N) : nat := ndigits_fuel (N.to_nat (N.size n)) n.

(** Decimal text of a natural number, as [operator<<] prints it. *)
Definition dec (n : N) : string := fixed_digits (ndigits n) n.

Fixpoint fill (k : nat) (c : ascii) : string :=
  match k with
  | O => ""
  | S k' => String c (fill k' c)
  end.

(** [os << std::setw(w) << std::setfill('0') << i] for an [int]: the text of
    [i] (with its sign), right-adjusted in a field of at least [w]
    characters, filled with ['0'] on the left. *)
Definition int_text (i : Z) : string :=
  match i with
  | Zneg p => String "-" (dec (Npos p))
  | _ => dec (Z.to_N i)
  end.
Definition setw_fill0 (w : nat) (i : Z) : string :=
  let s := int_text i in
  fill (w - String.length s) "0" ++ s.

(** Rounding of a non-negative rational to the nearest integer, ties to
    even (the rounding of the C library's formatted output). *)
Definition round_half_even (x : Q) : N :=
  let n := Qnum x in
  let d := Z.pos (Qden x) in
  let q := (n / d)%Z in
  let r := (n mod d)%Z in
  Z.to_N (match (2 * r ?= d)%Z with
          | Lt => q
          | Gt => q + 1
          | Eq => if Z.even q then q else q + 1
          end).

Definition ten7 : N := 10000000.

(** [os << std::fixed << std::setprecision(7) << x]: sign, integer part,
    ['.'], exactly seven fractional digits. *)
Definition fmt7 (x : Q) : string :=
  let m := round_half_even (Qabs x * (Z.of_N ten7 # 1)) in
  (if Qltb x 0 then "-" else "") ++
  dec (m / ten7) ++ "." ++ fixed_digits 7 (m mod ten7).

Definition is_digit (c : ascii) : bool :=
  ((48 <=? N_of_ascii c) && (N_of_ascii c <=? 57))%N.

(** Reads the longest run of decimal digits at the head of [s]:
    accumulated value, number of digits read, rest of the text. *)
Fixpoint read_digits (s : string) (acc : N) (cnt : nat) : N * nat * string :=
  match s with
  | String c s' =>
      if is_digit c
      then read_digits s' (acc * 10 + (N_of_ascii c - 48)) (S cnt)
      else (acc, cnt, s)
  | "" => (acc, cnt, s)
  end.

(** [std::stod] on plain decimal text: optional sign, digits, optional
    ['.'] and digits; the longest such prefix is converted and the rest is
    ignored; [None] stands for [std::invalid_argument] (no digit at all).
    Leading white space, exponents, hexadecimal text, [inf] and [nan] are
    not modelled: [generateKey] never writes them. *)
Definition stod (s : string) : option Q :=
  let '(neg, s1) :=
    match s with
    | String c r =>
        if Ascii.eqb c "-" then (true, r)
        else if Ascii.eqb c "+" then (false, r)
        else (false, s)
    | "" => (false, s)
    end in
  let '(ip, ni, s2) := read_digits s1 0 0 in
  let '(fp, nf, _) :=
    match s2 with
    | String c r => if Ascii.eqb c "." then read_digits r 0 0 else (0%N, O, s2)
    | "" => (0%N, O, s2)
    end in
  if (ni + nf =? 0)%nat then None
  else
    let mag :=
      (Z.of_N (ip * 10 ^ N.of_nat nf + fp)
       # N.succ_pos (N.pred (10 ^ N.of_nat nf)))%Q in
    Some (if neg then Qopp mag else mag).

(** [std::string::find(c, pos)] from the head of [s]: index of the first
    occurrence. *)
Fixpoint find_char (c : ascii) (s : string) : option nat :=
  match s with
  | "" => None
  | String c' s' =>
      if Ascii.eqb c' c then Some O else S <$> find_char c s'
  end.

End Num.


(** ** The LevelDB facade ([levelDBmanager.hpp]) *)

Module LevelDBManager.

(** The database is an ordered map from keys to values,
    [gmap string string]. *)

(** Key order of the store. *)
Definition key_le (a b : string * string) : Prop := String.leb a.1 b.1 = true.

#[global] Instance key_le_dec a b : Decision (key_le a b).
Proof. unfold key_le. apply _. Defined.

Definition put (db : gmap string string) (key value : string) : gmap string string := <[key := value]> db.

Definition get (db : gmap string string) (key : string) : option string := db !! key.

(** One staged operation of a [BatchWriter]. *)
Inductive batch_op : Type :=
  | BPut (key value : string)
  | BDel (key : string).

(** [BatchWriter::commit]: the staged operations applied in order, as one
    atomic write. *)
Definition commit (db : gmap string string) (batch : list batch_op) : gmap string string :=
  foldl (fun d op =>
           match op with
           | BPut k v => <[k := v]> d
           | BDel k => delete k d
           end) db batch.

(** The loop test of [rangeQuery]: the iterator starts at the first key
    [>= start_key] and stops at the first key [>= end_key] (an empty
    [end_key] means no upper end). *)
Definition in_range (start_key end_key key : string) : bool :=
  String.leb start_key key &&
  (String.eqb end_key "" || String.ltb key end_key).

(** [rangeQuery(start_key, end_key, callback)]: the pairs handed to the
    callback, in key order. *)
Definition rangeQuery (db : gmap string string) (start_key end_key : string)
  : list (string * string) :=
  merge_sort key_le
    (filter (fun kv => in_range start_key end_key kv.1 = true) (map_to_list db)).

(** The entries of the database as a LevelDB iterator yields them
    ([Iterator::seekToFirst], then [next] while [valid]): in key order. *)
Definition entries (db : gmap string string) : list (string * string) :=
  merge_sort key_le (map_to_list db).

(** [it->Seek(start_key)]: the iterator stands at the first entry whose key
    is [>= start_key]; what is left to iterate is returned. *)
Fixpoint seek (start_key : string) (es : list (string * string))
  : list (string * string) :=
  match es with
  | [] => []
  | kv :: es' => if String.ltb kv.1 start_key then seek start_key es' else es
  end.

(** The loop of [rangeQuery] from the position of the iterator: each entry
    is handed to the callback until the iterator is exhausted or the test
    [!end_key.empty() && key >= end_key] breaks the loop. *)
Fixpoint scan_to (end_key : string) (es : list (string * string))
  : list (string * string) :=
  match es with
  | [] => []
  | kv :: es' =>
      if negb (String.eqb end_key "") && String.leb end_key kv.1 then []
      else kv :: scan_to end_key es'
  end.

(** [rangeQuery] as its loop runs. *)
Definition rangeQuery_loop (db : gmap string string) (start_key end_key : string)
  : list (string * string) :=
  scan_to end_key (seek start_key (entries db)).

(** [std::string::back]: the last character ([None] on an empty string,
    where the source does not call it). *)
Fixpoint back (s : string) : option ascii :=
  match s with
  | "" => None
  | String c "" => Some c
  | String _ s' => back s'
  end.

(** [static_cast<char>(last_char + 1)]: the next byte, 0xFF wraps to 0x00. *)
Definition next_char (c : ascii) : ascii :=
  ascii_of_N ((N_of_ascii c + 1) mod 256).

(** [end_key.back() = static_cast<char>(last_char + 1)] on a copy of the
    prefix; an empty prefix stays empty. *)
Fixpoint bump_back (s : string) : string :=
  match s with
  | "" => ""
  | String c "" => String (next_char c) ""
  | String c s' => String c (bump_back s')
  end.

(** [prefixQuery(prefix, callback)]: the pairs handed to the callback. *)
Definition prefixQuery (db : gmap string string) (prefix : string)
  : list (string * string) :=
  rangeQuery db prefix (bump_back prefix).

End LevelDBManager.

(** ** The cache of grid cells ([GridCacheItem], [GridLRUCache]) *)

Record GridCacheItem : Type := mkGridCacheItem {
  grid_id : string;
  data : gmap string string  (* generated key -> terrain value *)
}.

Module GridLRUCache.

(** [access_list_] holds the resident ids, most recently used first.
    [cache_map_] maps an id to its item; the C++ map also stores, next to the
    item, the iterator of the id's node in [access_list_], which is the
    position of the id in the list and is not stored here: erasing through
    that iterator is [erase], which takes the id's node out of the list.

    An item is held by [std::shared_ptr]; the engine writes through the
    pointer it has just obtained from [get], while the item is resident
    under the id asked for.  Such a write is [update_data] on the entry of
    that id. *)
Record t : Type := mk {
  capacity_ : nat;
  access_list_ : list string;
  cache_map_ : gmap string GridCacheItem
}.

(** [explicit GridLRUCache(size_t capacity)] *)
Definition new (capacity : nat) : t :=
  {| capacity_ := if (0 <? capacity)%nat then capacity else 1000%nat;
     access_list_ := [];
     cache_map_ := ∅ |}.

(** [std::list::erase] of the node that holds [id]. *)
Fixpoint erase (id : string) (l : list string) : list string :=
  match l with
  | [] => []
  | x :: l' => if String.eqb x id then l' else x :: erase id l'
  end.

(** [std::list::pop_back]. *)
Definition pop_back (l : list string) : list string :=
  take (length l - 1) l.

Definition get (c : t) (id : string) : option GridCacheItem * t :=
  match cache_map_ c !! id with
  | None => (None, c)
  | Some item =>
      (* splice the node of [id] to the front of the access list *)
      (Some item,
       {| capacity_ := capacity_ c;
          access_list_ := id :: erase id (access_list_ c);
          cache_map_ := cache_map_ c |})
  end.

Definition put (c : t) (id : string) (item : GridCacheItem) : t :=
  let '(l, m) :=
    match cache_map_ c !! id with
    | Some _ =>
        (* already present: drop its node *)
        (erase id (access_list_ c), cache_map_ c)
    | None =>
        if (capacity_ c <=? size (cache_map_ c))%nat then
          (* evict the least recently used cell *)
          match last (access_list_ c) with
          | Some lru => (pop_back (access_list_ c), delete lru (cache_map_ c))
          | None => (access_list_ c, cache_map_ c)
          end
        else (access_list_ c, cache_map_ c)
    end in
  {| capacity_ := capacity_ c;
     access_list_ := id :: l;
     cache_map_ := <[id := item]> m |}.

Definition remove (c : t) (id : string) : t :=
  match cache_map_ c !! id with
  | Some _ =>
      {| capacity_ := capacity_ c;
         access_list_ := erase id (access_list_ c);
         cache_map_ := delete id (cache_map_ c) |}
  | None => c
  end.

Definition clear (c : t) : t :=
  {| capacity_ := capacity_ c; access_list_ := []; cache_map_ := ∅ |}.

Definition size (c : t) : nat := size (cache_map_ c).

(** [cache_item->data[key] = value] through the pointer returned by
    [get c id]. *)
Definition update_data (c : t) (id key value : string) : t :=
  {| capacity_ := capacity_ c;
     access_list_ := access_list_ c;
     cache_map_ :=
       alter (fun it => {| grid_id := grid_id it;
                           data := <[key := value]> (data it) |})
             id (cache_map_ c) |}.

End GridLRUCache.

(** ** The terrain storage engine ([TerrainStorageEngine]) *)

Module TerrainStorageEngine.

(** The members of the class; [db_manager_] is the database the engine
    refers to. *)
Record t : Type := mk {
  db_manager_ : gmap string string;
  min_lon_ : Q;
  min_lat_ : Q;
  max_lon_ : Q;
  max_lat_ : Q;
  grid_size_ : Q;
  grid_rows_ : Z;
  grid_cols_ : Z;
  id_width_ : Z;
  cache_ : GridLRUCache.t
}.

Definition with_cache (e : t) (c : GridLRUCache.t) : t :=
  {| db_manager_ := db_manager_ e;
     min_lon_ := min_lon_ e; min_lat_ := min_lat_ e;
     max_lon_ := max_lon_ e; max_lat_ := max_lat_ e;
     grid_size_ := grid_size_ e;
     grid_rows_ := grid_rows_ e; grid_cols_ := grid_cols_ e;
     id_width_ := id_width_ e;
     cache_ := c |}.

Definition with_db (e : t) (db : gmap string string) : t :=
  {| db_manager_ := db;
     min_lon_ := min_lon_ e; min_lat_ := min_lat_ e;
     max_lon_ := max_lon_ e; max_lat_ := max_lat_ e;
     grid_size_ := grid_size_ e;
     grid_rows_ := grid_rows_ e; grid_cols_ := grid_cols_ e;
     id_width_ := id_width_ e;
     cache_ := cache_ e |}.

(** The constructor.  Its only test is the one on [grid_size]. *)
Definition new (db_manager : gmap string string)
    (min_lon min_lat max_lon max_lat grid_size : Q)
    (cache_capacity : nat) : result t :=
  if Qle_bool grid_size 0 then Throw GridSizeNotPositive
  else
    Ok {| db_manager_ := db_manager;
          min_lon_ := min_lon; min_lat_ := min_lat;
          max_lon_ := max_lon; max_lat_ := max_lat;
          grid_size_ := grid_size;
          grid_cols_ := Qceiling ((max_lon - min_lon) / grid_size);
          grid_rows_ := Qceiling ((max_lat - min_lat) / grid_size);
          id_width_ := 3;
          cache_ := GridLRUCache.new cache_capacity |}.

Definition isWithinBounds (e : t) (lon lat : Q) : bool :=
  Qle_bool (min_lon_ e) lon && Qle_bool lon (max_lon_ e) &&
  Qle_bool (min_lat_ e) lat && Qle_bool lat (max_lat_ e).

Definition lonToGridCol (e : t) (lon : Q) : Z :=
  let normalized := Num.std_max (min_lon_ e) (Num.std_min (max_lon_ e) lon) in
  Num.cast_int ((normalized - min_lon_ e) / grid_size_ e).

Definition latToGridRow (e : t) (lat : Q) : Z :=
  let normalized := Num.std_max (min_lat_ e) (Num.std_min (max_lat_ e) lat) in
  Num.cast_int ((normalized - min_lat_ e) / grid_size_ e).

Definition formatGridId (row col : Z) : string :=
  "G_" ++ Num.setw_fill0 3 row ++ "_" ++ Num.setw_fill0 3 col.

Definition computeGridId (e : t) (lon lat : Q) : string :=
  let col := lonToGridCol e lon in
  let row := latToGridRow e lat in
  formatGridId row col.

Definition generateKey (lon lat : Q) (grid_id : string) : string :=
  grid_id ++ "|" ++ Num.fmt7 lon ++ "|" ++ Num.fmt7 lat.

(** Start and end keys of the scan of one cell. *)
Definition start_key (grid_id : string) : string := grid_id ++ "|".
Definition end_key (grid_id : string) : string := grid_id ++ "|~".

(** [key.substr(pos)] and [key.find('|', pos)]. *)
Definition substr_from (pos : nat) (s : string) : string :=
  String.substring pos (String.length s - pos) s.
Definition find_from (c : ascii) (pos : nat) (s : string) : option nat :=
  (fun k => (pos + k)%nat) <$> Num.find_char c (substr_from pos s).

Definition parseKey (key : string) : option (Q * Q) :=
  match Num.find_char "|" key with
  | None => None
  | Some first_delim =>
      match find_from "|" (first_delim + 1) key with
      | None => None
      | Some second_delim =>
          match Num.stod (String.substring (first_delim + 1)
                            (second_delim - first_delim - 1) key) with
          | None => None
          | Some lon =>
              match Num.stod (substr_from (second_delim + 1) key) with
              | None => None
              | Some lat => Some (lon, lat)
              end
          end
      end
  end.

(** [loadGridToCache]: the whole cell is read from the database into a new
    item, which is put in the cache and returned. *)
Definition loadGridToCache (e : t) (grid_id : string)
  : option GridCacheItem * t :=
  let scan := LevelDBManager.rangeQuery (db_manager_ e)
                (start_key grid_id) (end_key grid_id) in
  let cache_item :=
    {| grid_id := grid_id;
       data := foldl (fun d kv => <[kv.1 := kv.2]> d) ∅ scan |} in
  (Some cache_item, with_cache e (GridLRUCache.put (cache_ e) grid_id cache_item)).

Definition put (e : t) (lon lat : Q) (value : string) : result unit * t :=
  if negb (isWithinBounds e lon lat) then
    (Throw (CoordinateOutOfRange lon lat), e)
  else
    let grid_id := computeGridId e lon lat in
    let key := generateKey lon lat grid_id in
    let '(cache_item, c) := GridLRUCache.get (cache_ e) grid_id in
    let c' :=
      match cache_item with
      | Some _ => GridLRUCache.update_data c grid_id key value
      | None => c
      end in
    (Ok tt, with_db (with_cache e c') (LevelDBManager.put (db_manager_ e) key value)).

Definition get (e : t) (lon lat : Q) : option string * t :=
  if negb (isWithinBounds e lon lat) then (None, e)
  else
    let grid_id := computeGridId e lon lat in
    let key := generateKey lon lat grid_id in
    let '(cache_item, c) := GridLRUCache.get (cache_ e) grid_id in
    let e1 := with_cache e c in
    match cache_item ≫= (fun it => data it !! key) with
    | Some value => (Some value, e1)
    | None =>
        match LevelDBManager.get (db_manager_ e1) key with
        | Some value =>
            match cache_item with
            | None => (Some value, (loadGridToCache e1 grid_id).2)
            | Some _ =>
                (Some value,
                 with_cache e1 (GridLRUCache.update_data c grid_id key value))
            end
        | None =>
            match cache_item with
            | None => (None, (loadGridToCache e1 grid_id).2)
            | Some _ => (None, e1)
            end
        end
    end.

(** The loop of [batchPut]: the cache as updated so far and the operations
    staged so far; the loop stops at the first point out of range. *)
Fixpoint batchPut_loop (e : t) (c : GridLRUCache.t)
    (batch : list LevelDBManager.batch_op)
    (points : list (Q * Q * string))
  : result (list LevelDBManager.batch_op) * GridLRUCache.t :=
  match points with
  | [] => (Ok batch, c)
  | (lon, lat, value) :: points' =>
      if negb (isWithinBounds e lon lat) then
        (Throw (CoordinateOutOfRange lon lat), c)
      else
        let grid_id := computeGridId e lon lat in
        let key := generateKey lon lat grid_id in
        let '(cache_item, c1) := GridLRUCache.get c grid_id in
        let c2 :=
          match cache_item with
          | Some _ => GridLRUCache.update_data c1 grid_id key value
          | None => c1
          end in
        batchPut_loop e c2 (batch ++ [LevelDBManager.BPut key value])%list points'
  end.

Definition batchPut (e : t) (points : list (Q * Q * string))
  : result unit * t :=
  match batchPut_loop e (cache_ e) [] points with
  | (Throw ex, c) => (Throw ex, with_cache e c)
  | (Ok batch, c) =>
      (Ok tt, with_db (with_cache e c)
                (LevelDBManager.commit (db_manager_ e) batch))
  end.

(** The test of a point against the query rectangle. *)
Definition in_rect (min_lon min_lat max_lon max_lat : Q) (p : Q * Q) : bool :=
  Qle_bool min_lon p.1 && Qle_bool p.1 max_lon &&
  Qle_bool min_lat p.2 && Qle_bool p.2 max_lat.

(** The callback calls made for a sequence of key/value pairs: the pairs
    whose key parses and whose point lies in the rectangle. *)
Definition report (min_lon min_lat max_lon max_lat : Q)
    (kvs : list (string * string)) : list (Q * Q * string) :=
  omap (fun kv =>
          match parseKey kv.1 with
          | Some p =>
              if in_rect min_lon min_lat max_lon max_lat p
              then Some (p.1, p.2, kv.2) else None
          | None => None
          end) kvs.

(** [processGrid]: the calls made to the callback, in order, and the engine
    afterwards. *)
Definition processGrid (e : t) (grid_id : string)
    (min_lon min_lat max_lon max_lat : Q) : list (Q * Q * string) * t :=
  let '(cached, c) := GridLRUCache.get (cache_ e) grid_id in
  let '(cache_item, e1) :=
    match cached with
    | None => loadGridToCache (with_cache e c) grid_id
    | Some _ => (cached, with_cache e c)
    end in
  match cache_item with
  | Some item =>
      (report min_lon min_lat max_lon max_lat (map_to_list (data item)), e1)
  | None =>
      (* fallback: query the database directly *)
      (report min_lon min_lat max_lon max_lat
         (LevelDBManager.rangeQuery (db_manager_ e1)
            (start_key grid_id) (end_key grid_id)), e1)
  end.

(** The cells visited by [rangeQuery], in the order of its two loops. *)
Definition covered_cells (e : t) (min_lon min_lat max_lon max_lat : Q)
  : list string :=
  let start_col := Num.int_max 0 (lonToGridCol e min_lon) in
  let end_col := Num.int_min (grid_cols_ e - 1) (lonToGridCol e max_lon) in
  let start_row := Num.int_max 0 (latToGridRow e min_lat) in
  let end_row := Num.int_min (grid_rows_ e - 1) (latToGridRow e max_lat) in
  row ← seqZ start_row (end_row - start_row + 1);
  col ← seqZ start_col (end_col - start_col + 1);
  [formatGridId row col].

Definition rangeQuery (e : t) (min_lon min_lat max_lon max_lat : Q)
  : list (Q * Q * string) * t :=
  foldl (fun acc grid_id =>
           let '(calls, e') :=
             processGrid acc.2 grid_id min_lon min_lat max_lon max_lat in
           ((acc.1 ++ calls)%list, e'))
        ([], e) (covered_cells e min_lon min_lat max_lon max_lat).

Definition preloadGrid (e : t) (grid_id : string) : t :=
  (loadGridToCache e grid_id).2.

Definition evictGridFromCache (e : t) (grid_id : string) : t :=
  with_cache e (GridLRUCache.remove (cache_ e) grid_id).

Definition clearCache (e : t) : t :=
  with_cache e (GridLRUCache.clear (cache_ e)).

Definition getCacheSize (e : t) : nat := GridLRUCache.size (cache_ e).

End TerrainStorageEngine.


(** ** The worker pool ([advancedthreadpool.hpp]) *)

Module AdvancedThreadPool.

Inductive PoolMode : Type := FIXED | CACHED.

Inductive TaskPriority : Type := HIGH | NORMAL | LOW.

(** [static_cast<int>(priority)] *)
Definition priority_value (p : TaskPriority) : Z :=
  match p with
  | HIGH => 0
  | NORMAL => 1
  | LOW => 2
  end.

Record ThreadPoolConfig : Type := mkConfig {
  min_threads : nat;
  max_threads : nat;
  max_tasks : nat;
  idle_timeout : nat;
  mode : PoolMode
}.

(** A queued task: its priority and the erased callable, which is known here
    by the number its submission gave it. *)
Record TaskItem : Type := mkTask {
  priority : TaskPriority;
  task : nat
}.

(** [TaskCompare::operator()] *)
Definition TaskCompare (a b : TaskItem) : bool :=
  (priority_value (priority b) <? priority_value (priority a))%Z.

(** [std::priority_queue<TaskItem, std::vector<TaskItem>, TaskCompare>],
    by the contract of the standard library: [top] is an element that
    [TaskCompare] puts before no other element of the queue, and [pop] removes
    it.  The queue is the list of its elements; among several candidates the
    model takes the first, the library takes whichever its heap yields. *)
Definition is_top (q : list TaskItem) (x : TaskItem) : bool :=
  forallb (fun y => negb (TaskCompare x y)) q.

Definition top (q : list TaskItem) : option TaskItem :=
  List.find (is_top q) q.

#[global] Instance TaskPriority_eq_dec : EqDecision TaskPriority.
Proof. solve_decision. Defined.

#[global] Instance TaskItem_eq_dec : EqDecision TaskItem.
Proof. solve_decision. Defined.

Fixpoint remove_first (x : TaskItem) (q : list TaskItem) : list TaskItem :=
  match q with
  | [] => []
  | y :: q' => if decide (x = y) then q' else y :: remove_first x q'
  end.

Definition pop (q : list TaskItem) : list TaskItem :=
  match top q with
  | Some x => remove_first x q
  | None => q
  end.

Definition push (q : list TaskItem) (x : TaskItem) : list TaskItem := q ++ [x].

(** Where a worker thread stands in [worker_routine]. *)
Inductive worker_pc : Type :=
  | AtLoopTest                 (* about to evaluate [while (running_)] *)
  | Locked                     (* holds [queue_mutex_], at the test of its wait *)
  | Waiting                    (* blocked in [wait] / [wait_until] *)
  | Executing (item : TaskItem) (* runs [task->task()], lock released *)
  | Exited.                    (* [worker_routine] has returned *)

(** The pool.  [threads] holds every worker thread started so far with the
    point it stands at ([workers_] holds the threads' ids, as the vector
    holds the thread objects); [started] and [completed] record, in order,
    the tasks handed to [task->task()] and the tasks whose call returned. *)
Record t : Type := mk {
  config_ : ThreadPoolConfig;
  running_ : bool;
  task_queue_ : list TaskItem;
  workers_ : list nat;
  expired_workers_ : list nat;
  threads : gmap nat worker_pc;
  next_thread : nat;
  started : list TaskItem;
  completed : list TaskItem
}.

Definition set_thread (p : t) (i : nat) (pc : worker_pc) : t :=
  {| config_ := config_ p; running_ := running_ p;
     task_queue_ := task_queue_ p; workers_ := workers_ p;
     expired_workers_ := expired_workers_ p;
     threads := <[i := pc]> (threads p);
     next_thread := next_thread p;
     started := started p; completed := completed p |}.

(** [add_worker]: a new thread enters [worker_routine]. *)
Definition add_worker (p : t) : t :=
  {| config_ := config_ p; running_ := running_ p;
     task_queue_ := task_queue_ p;
     workers_ := workers_ p ++ [next_thread p];
     expired_workers_ := expired_workers_ p;
     threads := <[next_thread p := AtLoopTest]> (threads p);
     next_thread := S (next_thread p);
     started := started p; completed := completed p |}.

(** The constructor, up to the start of the manager thread. *)
Definition new (config : ThreadPoolConfig) : t :=
  Nat.iter (min_threads config) add_worker
    {| config_ := config; running_ := true; task_queue_ := [];
       workers_ := []; expired_workers_ := []; threads := ∅;
       next_thread := 0; started := []; completed := [] |}.

Inductive submit_error : Type :=
  | PoolIsShutdown      (* "ThreadPool is shutdown" *)
  | QueueFullTimeout.   (* "Task queue full, submit timeout" *)

Inductive submit_outcome : Type :=
  | Enqueued
  | MustWait                 (* the queue is full: [wait_for] is entered *)
  | Thrown (e : submit_error).

Definition enqueue (p : t) (item : TaskItem) : t :=
  {| config_ := config_ p; running_ := running_ p;
     task_queue_ := push (task_queue_ p) item;
     workers_ := workers_ p; expired_workers_ := expired_workers_ p;
     threads := threads p; next_thread := next_thread p;
     started := started p; completed := completed p |}.

(** [submit], its critical section up to the wait for room. *)
Definition submit (p : t) (item : TaskItem) : submit_outcome * t :=
  if negb (running_ p) then (Thrown PoolIsShutdown, p)
  else if (max_tasks (config_ p) <=? length (task_queue_ p))%nat
       then (MustWait, p)
       else (Enqueued, enqueue p item).

(** [submit], when its [wait_for] returns: the task is pushed if the
    predicate holds (room in the queue, or the pool no longer running),
    otherwise the wait has timed out. *)
Definition submit_after_wait (p : t) (item : TaskItem) : submit_outcome * t :=
  if (length (task_queue_ p) <? max_tasks (config_ p))%nat || negb (running_ p)
  then (Enqueued, enqueue p item)
  else (Thrown QueueFullTimeout, p).

Definition should_expand (p : t) : bool :=
  match mode (config_ p) with
  | FIXED => false
  | CACHED =>
      running_ p &&
      negb (length (task_queue_ p) =? 0)%nat &&
      (length (workers_ p) <? max_threads (config_ p))%nat
  end.

Definition expand_workers (p : t) : t :=
  if negb (running_ p) then p
  else
    let max_to_add := (max_threads (config_ p) - length (workers_ p))%nat in
    let tasks := length (task_queue_ p) in
    Nat.iter (Nat.min tasks max_to_add) add_worker p.

(** One step of worker thread [i] in [worker_routine]. *)
Definition worker_step (p : t) (i : nat) : t :=
  match threads p !! i with
  | Some AtLoopTest =>
      set_thread p i (if running_ p then Locked else Exited)
  | Some Locked =>
      match task_queue_ p with
      | [] => set_thread p i (if running_ p then Waiting else Exited)
      | _ :: _ =>
          match top (task_queue_ p) with
          | Some item =>
              {| config_ := config_ p; running_ := running_ p;
                 task_queue_ := pop (task_queue_ p);
                 workers_ := workers_ p;
                 expired_workers_ := expired_workers_ p;
                 threads := <[i := Executing item]> (threads p);
                 next_thread := next_thread p;
                 started := started p ++ [item];
                 completed := completed p |}
          | None => p
          end
      end
  | Some Waiting => set_thread p i Locked   (* woken: test again *)
  | Some (Executing item) =>
      {| config_ := config_ p; running_ := running_ p;
         task_queue_ := task_queue_ p; workers_ := workers_ p;
         expired_workers_ := expired_workers_ p;
         threads := <[i := AtLoopTest]> (threads p);
         next_thread := next_thread p;
         started := started p;
         completed := completed p ++ [item] |}
  | Some Exited | None => p
  end.

(** The wait of worker [i] times out ([CACHED] mode only). *)
Definition worker_timeout (p : t) (i : nat) : t :=
  match mode (config_ p), threads p !! i with
  | CACHED, Some Waiting =>
      if (min_threads (config_ p) <? length (workers_ p))%nat then
        {| config_ := config_ p; running_ := running_ p;
           task_queue_ := task_queue_ p; workers_ := workers_ p;
           expired_workers_ := i :: expired_workers_ p;
           threads := <[i := Exited]> (threads p);
           next_thread := next_thread p;
           started := started p; completed := completed p |}
      else set_thread p i Locked
  | _, _ => p
  end.

(** [shutdown], first part: [running_.exchange(false)]. *)
Definition shutdown_flip (p : t) : t :=
  {| config_ := config_ p; running_ := false;
     task_queue_ := task_queue_ p; workers_ := workers_ p;
     expired_workers_ := expired_workers_ p;
     threads := threads p; next_thread := next_thread p;
     started := started p; completed := completed p |}.

(** [shutdown], second part: the worker vector is moved out and the expired
    set is cleared; the threads are joined afterwards. *)
Definition shutdown_move (p : t) : t :=
  {| config_ := config_ p; running_ := running_ p;
     task_queue_ := task_queue_ p; workers_ := [];
     expired_workers_ := [];
     threads := threads p; next_thread := next_thread p;
     started := started p; completed := completed p |}.

(** [cleanup_expired_workers], its loop over [workers_]: [kept] threads
    precede the iterator; a thread whose id is in the expired set is joined
    and erased while more than [min_threads] remain. *)
Fixpoint cleanup_loop (min_thr : nat) (expired : list nat)
    (kept : nat) (ws : list nat) : list nat :=
  match ws with
  | [] => []
  | w :: ws' =>
      if (min_thr <? kept + length ws)%nat then
        if bool_decide (w ∈ expired)
        then cleanup_loop min_thr expired kept ws'
        else w :: cleanup_loop min_thr expired (S kept) ws'
      else ws
  end.

Definition cleanup_expired_workers (p : t) : t :=
  match expired_workers_ p with
  | [] => p
  | _ :: _ =>
      {| config_ := config_ p; running_ := running_ p;
         task_queue_ := task_queue_ p;
         workers_ := cleanup_loop (min_threads (config_ p))
                       (expired_workers_ p) 0 (workers_ p);
         expired_workers_ := [];
         threads := threads p; next_thread := next_thread p;
         started := started p; completed := completed p |}
  end.

(** What may happen next in a pool: the atomic steps of its threads (the
    submitting threads, the workers, the manager, the thread that shuts the
    pool down). *)
Inductive event : Type :=
  | Submit (item : TaskItem)
  | SubmitAfterWait (item : TaskItem)
  | Expand                    (* [if (should_expand()) expand_workers()] *)
  | Cleanup                   (* [cleanup_expired_workers()] *)
  | Worker (i : nat)
  | Timeout (i : nat)
  | ShutdownFlip
  | ShutdownMove.

Definition step (p : t) (ev : event) : t :=
  match ev with
  | Submit item => (submit p item).2
  | SubmitAfterWait item => (submit_after_wait p item).2
  | Expand => if should_expand p then expand_workers p else p
  | Cleanup => cleanup_expired_workers p
  | Worker i => worker_step p i
  | Timeout i => worker_timeout p i
  | ShutdownFlip => shutdown_flip p
  | ShutdownMove => shutdown_move p
  end.

Definition run (p : t) (evs : list event) : t := foldl step p evs.

(** The result handle of a submitted task.  The queued callable is the only
    owner of the task's [std::packaged_task]: the handle is ready once the
    call has returned, and it carries [std::future_error] (broken promise)
    once the callable has been destroyed without having been called. *)
Inductive future_state : Type := Pending | Ready | BrokenPromise.

Definition held_by_worker (p : t) (item : TaskItem) : bool :=
  existsb (fun kv : nat * worker_pc =>
             match kv.2 with
             | Executing it => bool_decide (it = item)
             | _ => false
             end)
          (map_to_list (threads p)).

Definition future_of (p : t) (item : TaskItem) : future_state :=
  if bool_decide (item ∈ completed p) then Ready
  else if bool_decide (item ∈ task_queue_ p) || held_by_worker p item
       then Pending
       else BrokenPromise.

(** The destructor after its call of [shutdown]: the members are destroyed,
    the queue with the callables it still holds among them. *)
Definition destroy_members (p : t) : t :=
  {| config_ := config_ p; running_ := running_ p;
     task_queue_ := []; workers_ := workers_ p;
     expired_workers_ := expired_workers_ p;
     threads := threads p; next_thread := next_thread p;
     started := started p; completed := completed p |}.

(** A worker inside the body of its loop, before it has taken a task. *)
Definition in_body (pc : worker_pc) : bool :=
  match pc with
  | Locked | Waiting => true
  | _ => false
  end.

(** The number of such workers. *)
Definition inside (p : t) : nat :=
  size (filter (fun kv : nat * worker_pc => in_body kv.2 = true) (threads p)).


(** One for a worker inside the loop body, zero for any other. *)
Definition body_count (pc : worker_pc) : nat := if in_body pc then 1 else 0.

(** [worker_count] and [pending_tasks]. *)
Definition worker_count (p : t) : nat := length (workers_ p).
Definition pending_tasks (p : t) : nat := length (task_queue_ p).

(** The task a worker thread is running, if it runs one, and the tasks the
    worker threads of the pool are running. *)
Definition task_of (pc : worker_pc) : option TaskItem :=
  match pc with
  | Executing item => Some item
  | _ => None
  end.

Definition executing (p : t) : list TaskItem :=
  omap (fun kv : nat * worker_pc => task_of kv.2) (map_to_list (threads p)).

(** The tasks an event puts in the queue: the task of a [submit] that
    reaches its [task_queue_.push]. *)
Definition accepted_by (p : t) (ev : event) : list TaskItem :=
  match ev with
  | Submit item =>
      match (submit p item).1 with Enqueued => [item] | _ => [] end
  | SubmitAfterWait item =>
      match (submit_after_wait p item).1 with Enqueued => [item] | _ => [] end
  | _ => []
  end.

Fixpoint accepted (p : t) (evs : list event) : list TaskItem :=
  match evs with
  | [] => []
  | ev :: evs' => accepted_by p ev ++ accepted (step p ev) evs'
  end.

(** An event of the thread that calls [shutdown]. *)
Definition is_shutdown_move (ev : event) : bool :=
  match ev with ShutdownMove => true | _ => false end.

(** A step of worker thread [i]. *)
Definition is_worker_step (i : nat) (ev : event) : bool :=
  match ev with Worker j => Nat.eqb i j | _ => false end.

(** A worker thread that has not returned from [worker_routine]. *)
Definition is_live (pc : worker_pc) : bool :=
  match pc with Exited => false | _ => true end.

Definition live_workers (p : t) : nat :=
  size (filter (fun kv : nat * worker_pc => is_live kv.2 = true) (threads p)).

End AdvancedThreadPool.


(** * Definitions used by the statements *)

(** The engine of the test fixture: the Beijing area, cells of 0.01 degree,
    a cache of 500 cells. *)
Definition engine_of (r : result TerrainStorageEngine.t) : TerrainStorageEngine.t :=
  match r with
  | Ok e => e
  | Throw _ =>
      TerrainStorageEngine.mk ∅ 0 0 0 0 0 0 0 0 (GridLRUCache.new 0)
  end.

Definition beijing : TerrainStorageEngine.t :=
  engine_of (TerrainStorageEngine.new ∅ 116 39 117.5 41 0.01 500).

(** The precondition of construction as the specification words it:
    [min_lon < max_lon], [min_lat < max_lat], [cell_size_deg > 0], and the
    derived [rows] and [cols] at most 1000. *)
Definition spec_precondition
    (min_lon min_lat max_lon max_lat cell_size_deg : Q) : bool :=
  Num.Qltb min_lon max_lon && Num.Qltb min_lat max_lat &&
  Num.Qltb 0 cell_size_deg &&
  (Qceiling ((max_lat - min_lat) / cell_size_deg) <=? 1000)%Z &&
  (Qceiling ((max_lon - min_lon) / cell_size_deg) <=? 1000)%Z.

(** The key under which the engine stores the point [(lon, lat)]. *)
Definition keyOf (e : TerrainStorageEngine.t) (lon lat : Q) : string :=
  TerrainStorageEngine.generateKey lon lat
    (TerrainStorageEngine.computeGridId e lon lat).

(** The operation [batchPut] stages for a point. *)
Definition staged (e : TerrainStorageEngine.t) (p : Q * Q * string)
  : LevelDBManager.batch_op :=
  LevelDBManager.BPut (keyOf e p.1.1 p.1.2) p.2.

(** Characters below the sentinel ['~'] (0x7E). *)
Definition below_tilde (c : ascii) : bool := (N_of_ascii c <? 126)%N.

(** The access list after an access to [id]: [id] first, then the others. *)
Definition touch (id : string) (l : list string) : list string :=
  id :: filter (fun x => x ≠ id) l.


(** Well-formed caches: the access list holds the resident ids, once each,
    and no more of them than the capacity. *)
Record wf (c : GridLRUCache.t) : Prop := mk_wf {
  wf_nodup : NoDup (GridLRUCache.access_list_ c);
  wf_dom : forall id,
    id ∈ GridLRUCache.access_list_ c
    <-> is_Some (GridLRUCache.cache_map_ c !! id);
  wf_cap : length (GridLRUCache.access_list_ c) <= GridLRUCache.capacity_ c;
  wf_pos : 0 < GridLRUCache.capacity_ c
}.






(** The part of the database inside the key range of a cell. *)
Definition cell_scan (db : gmap string string) (grid_id : string)
  : gmap string string :=
  filter (fun kv : string * string =>
            LevelDBManager.in_range
              (TerrainStorageEngine.start_key grid_id)
              (TerrainStorageEngine.end_key grid_id) kv.1 = true) db.

(** Every resident cell mirrors the database. *)
Definition coherent (e : TerrainStorageEngine.t) : Prop :=
  forall id item,
    GridLRUCache.cache_map_ (TerrainStorageEngine.cache_ e) !! id = Some item ->
    data item = cell_scan (TerrainStorageEngine.db_manager_ e) id.

(** A coordinate with at most seven fractional digits. *)
Definition seven_digits (x : Q) : Prop :=
  exists n : Z, x == n # 10000000.

(** The index computed from a coordinate [x] for the lower bound [lo], the
    upper bound [hi] and the cell size [g]. *)
Definition cell_index (lo hi g x : Q) : Z :=
  Num.cast_int ((Num.std_max lo (Num.std_min hi x) - lo) / g).

(** The loop of [rangeQuery] over a list of cells. *)
Definition query_cells (e : TerrainStorageEngine.t)
    (min_lon min_lat max_lon max_lat : Q) (acc : list (Q * Q * string))
    (cells : list string) : list (Q * Q * string) * TerrainStorageEngine.t :=
  foldl (fun acc grid_id =>
           let '(calls, e') :=
             TerrainStorageEngine.processGrid acc.2 grid_id
               min_lon min_lat max_lon max_lat in
           ((acc.1 ++ calls)%list, e'))
        (acc, e) cells.

(** The calls [rangeQuery] makes when every visited cell is read
    from the database. *)
Definition scan_report (db : gmap string string)
    (min_lon min_lat max_lon max_lat : Q) (cells : list string)
  : list (Q * Q * string) :=
  cells ≫= (fun grid_id =>
    TerrainStorageEngine.report min_lon min_lat max_lon max_lat
      (map_to_list (cell_scan db grid_id))).

(** The fixture after one [put] and a query of the area of the point: the
    nine cells of the area are resident. *)
Definition beijing_p1 : TerrainStorageEngine.t :=
  (TerrainStorageEngine.rangeQuery
     (TerrainStorageEngine.put beijing 116.402 39.901 "p1").2
     116.395 39.895 116.415 39.915).2.

(** A call of the engine's public interface, and the engine a call leaves
    (the engine is left as it is when [put] throws; after a [batchPut] that
    throws it is the engine handed back next to the exception). *)
Inductive call : Type :=
  | CallPut (lon lat : Q) (value : string)
  | CallGet (lon lat : Q)
  | CallBatchPut (points : list (Q * Q * string))
  | CallRangeQuery (min_lon min_lat max_lon max_lat : Q)
  | CallPreloadGrid (grid_id : string)
  | CallEvictGridFromCache (grid_id : string)
  | CallClearCache.

Definition after_call (e : TerrainStorageEngine.t) (c : call)
  : TerrainStorageEngine.t :=
  match c with
  | CallPut lon lat value => (TerrainStorageEngine.put e lon lat value).2
  | CallGet lon lat => (TerrainStorageEngine.get e lon lat).2
  | CallBatchPut points => (TerrainStorageEngine.batchPut e points).2
  | CallRangeQuery min_lon min_lat max_lon max_lat =>
      (TerrainStorageEngine.rangeQuery e min_lon min_lat max_lon max_lat).2
  | CallPreloadGrid grid_id => TerrainStorageEngine.preloadGrid e grid_id
  | CallEvictGridFromCache grid_id =>
      TerrainStorageEngine.evictGridFromCache e grid_id
  | CallClearCache => TerrainStorageEngine.clearCache e
  end.

Definition after_calls (e : TerrainStorageEngine.t) (cs : list call)
  : TerrainStorageEngine.t :=
  foldl after_call e cs.

(** A point within the bounds of the engine. *)
Definition within (e : TerrainStorageEngine.t) (p : Q * Q * string) : bool :=
  TerrainStorageEngine.isWithinBounds e p.1.1 p.1.2.

(** The points a call writes to the store: the point of a [put] within the
    bounds, the points of a [batchPut] whose points are all within the
    bounds. *)
Definition writes_of (e : TerrainStorageEngine.t) (c : call)
  : list (Q * Q * string) :=
  match c with
  | CallPut lon lat value => if within e (lon, lat, value) then [(lon, lat, value)] else []
  | CallBatchPut points => if forallb (within e) points then points else []
  | _ => []
  end.

(** The store after the write of a point. *)
Definition write_point (e : TerrainStorageEngine.t) (db : gmap string string)
    (p : Q * Q * string) : gmap string string :=
  <[keyOf e p.1.1 p.1.2 := p.2]> db.

(** One [put] per point, in order. *)
Definition puts (e : TerrainStorageEngine.t) (points : list (Q * Q * string))
  : TerrainStorageEngine.t :=
  foldl (fun e' p => (TerrainStorageEngine.put e' p.1.1 p.1.2 p.2).2) e points.

(** The points of a batch before its first point out of bounds. *)
Fixpoint valid_prefix (e : TerrainStorageEngine.t) (points : list (Q * Q * string))
  : list (Q * Q * string) :=
  match points with
  | [] => []
  | p :: points' => if within e p then p :: valid_prefix e points' else []
  end.

(** Calls that keep the resident cells mirrors of the store: a [batchPut]
    whose points are all within the bounds (one that throws has updated
    resident cells without writing to the store), and a [preloadGrid] of an
    id without ['|'] (the scan of any other id can hold keys of cells that
    are updated under their own id). *)
Definition mirror_safe (e : TerrainStorageEngine.t) (c : call) : bool :=
  match c with
  | CallBatchPut points => forallb (within e) points
  | CallPreloadGrid grid_id =>
      match Num.find_char "|" grid_id with None => true | Some _ => false end
  | _ => true
  end.

(** Pools used in the examples. *)
Module PoolExamples.
Import AdvancedThreadPool.

(** A pool of one worker in [FIXED] mode, and four tasks. *)
Definition one_worker : t :=
  new {| min_threads := 1; max_threads := 1; max_tasks := 4;
         idle_timeout := 60; mode := FIXED |}.
Definition low6 : TaskItem := {| priority := LOW; task := 6 |}.
Definition low7 : TaskItem := {| priority := LOW; task := 7 |}.
Definition high8 : TaskItem := {| priority := HIGH; task := 8 |}.
Definition normal9 : TaskItem := {| priority := NORMAL; task := 9 |}.

(** The worker waits for a task; [low7] is submitted. *)
Definition idle_with_task : t :=
  run one_worker [Worker 0; Worker 0; Submit low7].

(** The worker runs [low6]; three more tasks are queued. *)
Definition busy_with_queue : t :=
  run one_worker
    [Submit low6; Worker 0; Worker 0; Submit low7; Submit normal9; Submit high8].

End PoolExamples.


(** * Theorems *)

(** ** Text and order of keys *)

Section string_order.

Lemma append_nil_l (s : string) : "" ++ s = s.
Proof. reflexivity. Qed.

Lemma append_cons (c : ascii) (a b : string) : String c a ++ b = String c (a ++ b).
Proof. reflexivity. Qed.

Lemma ascii_compare_refl c : Ascii.compare c c = Eq.
Proof. unfold Ascii.compare. apply N.compare_refl. Qed.

Lemma compare_app_l p a b : String.compare (p ++ a) (p ++ b) = String.compare a b.
Proof.
  induction p as [|c p IH]; [done|].
  rewrite !append_cons. simpl. by rewrite ascii_compare_refl.
Qed.

Lemma ltb_app_l p a b : String.ltb (p ++ a) (p ++ b) = String.ltb a b.
Proof. unfold String.ltb. by rewrite compare_app_l. Qed.

Lemma app_assoc_string (a b c : string) : (a ++ b) ++ c = a ++ (b ++ c).
Proof. induction a; rewrite ?append_nil_l, ?append_cons; congruence. Qed.

Lemma app_empty_r (a : string) : a ++ "" = a.
Proof. induction a; rewrite ?append_nil_l, ?append_cons; congruence. Qed.

End string_order.

Lemma N_of_digit_char d : (d < 10)%N -> N_of_ascii (Num.digit_char d) = (48 + d)%N.
Proof.
  intros H. unfold Num.digit_char. apply N_ascii_embedding. lia.
Qed.

Lemma is_digit_digit_char n : Num.is_digit (Num.digit_char (n mod 10)) = true.
Proof.
  unfold Num.is_digit. rewrite N_of_digit_char by (apply N.mod_lt; lia).
  assert (n mod 10 < 10)%N by (apply N.mod_lt; lia). generalize dependent (n mod 10)%N. intros d Hd.
  apply andb_true_intro. split; apply N.leb_le; lia.
Qed.

Lemma is_digit_below_tilde c : Num.is_digit c = true -> below_tilde c = true.
Proof.
  unfold Num.is_digit, below_tilde. intros [_ H]%andb_prop.
  apply N.leb_le in H. apply N.ltb_lt. lia.
Qed.

Lemma fixed_digits_head k n :
  exists c s, Num.fixed_digits (S k) n = String c s /\ Num.is_digit c = true.
Proof.
  revert n. induction k as [|k IH]; intros n.
  - simpl. eexists _, _. split; [reflexivity|]. apply is_digit_digit_char.
  - destruct (IH (n / 10)%N) as (c & s & Hc & Hd).
    change (Num.fixed_digits (S (S k)) n)
      with (Num.fixed_digits (S k) (n / 10) ++ String (Num.digit_char (n mod 10)) "").
    rewrite Hc. simpl. eauto.
Qed.

Lemma ndigits_fuel_pos f n : exists k, Num.ndigits_fuel f n = S k.
Proof. destruct f; simpl; [eauto|]. destruct (n <? 10)%N; eauto. Qed.

Lemma dec_head n : exists c s, Num.dec n = String c s /\ Num.is_digit c = true.
Proof.
  unfold Num.dec, Num.ndigits.
  destruct (ndigits_fuel_pos (N.to_nat (N.size n)) n) as [k ->].
  apply fixed_digits_head.
Qed.

Lemma fmt7_head x : exists c s, Num.fmt7 x = String c s /\ below_tilde c = true.
Proof.
  unfold Num.fmt7. destruct (Num.Qltb x 0).
  - simpl. eexists _, _. split; [reflexivity|]. reflexivity.
  - cbn [append].
    destruct (dec_head (Num.round_half_even (Qabs x * (Z.of_N Num.ten7 # 1)) / Num.ten7))
      as (c & s & -> & Hd).
    simpl. eexists _, _. split; [reflexivity|]. by apply is_digit_below_tilde.
Qed.

Lemma ltb_below_tilde c s : below_tilde c = true -> String.ltb (String c s) "~" = true.
Proof.
  unfold below_tilde, String.ltb. simpl. unfold Ascii.compare. intros H%N.ltb_lt.
  change (N_of_ascii "~") with 126%N.
  by apply N.compare_lt_iff in H as ->.
Qed.

Lemma generated_key_in_range lon lat grid_id :
  let key := TerrainStorageEngine.generateKey lon lat grid_id in
  String.ltb (TerrainStorageEngine.start_key grid_id) key = true /\
  String.ltb key (TerrainStorageEngine.end_key grid_id) = true /\
  LevelDBManager.in_range (TerrainStorageEngine.start_key grid_id) (TerrainStorageEngine.end_key grid_id) key = true.
Proof.
  intros key. subst key. unfold TerrainStorageEngine.generateKey, TerrainStorageEngine.start_key, TerrainStorageEngine.end_key.
  destruct (fmt7_head lon) as (c & s & -> & Hc).
  assert (String.ltb (grid_id ++ "|") (grid_id ++ "|" ++ String c s ++ "|" ++ Num.fmt7 lat) = true) as H1.
  { rewrite <- (app_empty_r (grid_id ++ "|")), !app_assoc_string, !ltb_app_l. reflexivity. }
  assert (String.ltb (grid_id ++ "|" ++ String c s ++ "|" ++ Num.fmt7 lat) (grid_id ++ "|~") = true) as H2.
  { rewrite !ltb_app_l. change ("|~") with ("|" ++ "~"). rewrite ltb_app_l.
    simpl. by apply ltb_below_tilde. }
  split; [done|]. split; [done|].
  unfold LevelDBManager.in_range. rewrite H2, orb_true_r, andb_true_r.
  unfold String.ltb, String.leb in *. by destruct (_ ?= _)%string.
Qed.

(** ** Construction *)

(** C3, counterexample: the constructor accepts a configuration whose bounds
    are reversed, and one that yields 2000 rows and 1500 columns. *)
Lemma construction_unchecked :
  spec_precondition 117.5 41 116 39 0.01 = false /\
  (exists e, TerrainStorageEngine.new ∅ 117.5 41 116 39 0.01 500 = Ok e) /\
  spec_precondition 116 39 117.5 41 0.001 = false /\
  (exists e, TerrainStorageEngine.new ∅ 116 39 117.5 41 0.001 500 = Ok e).
Proof. repeat split; try reflexivity; eexists; reflexivity. Qed.

Lemma Qltb_lt a b : Num.Qltb a b = true <-> (a < b)%Q.
Proof.
  unfold Num.Qltb. rewrite negb_true_iff, <- not_true_iff_false, Qle_bool_iff.
  split; [apply Qnot_le_lt | apply Qlt_not_le].
Qed.

(** C3, as amended: construction fails exactly when the cell size is not
    positive, and succeeds exactly when it is positive; the bounds and the
    numbers of rows and columns are not examined. *)
Theorem new_throws_iff db min_lon min_lat max_lon max_lat grid_size cap :
  ((exists ex, TerrainStorageEngine.new db min_lon min_lat max_lon max_lat grid_size cap = Throw ex)
     <-> (grid_size <= 0)%Q) /\
  ((exists e, TerrainStorageEngine.new db min_lon min_lat max_lon max_lat grid_size cap = Ok e)
     <-> (0 < grid_size)%Q).
Proof.
  unfold TerrainStorageEngine.new. destruct (Qle_bool grid_size 0) eqn:Hg.
  - apply Qle_bool_iff in Hg. split; split.
    + done.
    + eauto.
    + intros [e He]. discriminate.
    + intros H. exfalso. eapply Qlt_not_le; eauto.
  - assert (~ (grid_size <= 0)%Q) as Hn.
    { rewrite <- Qle_bool_iff. congruence. }
    split; split.
    + intros [e He]. discriminate.
    + done.
    + intros _. by apply Qnot_le_lt.
    + eauto.
Qed.

(** ** Cells of points

    The three cell ids of the specification's examples. *)
Example computeGridId_examples :
  TerrainStorageEngine.computeGridId beijing 116.405 39.905 = "G_090_040" /\
  TerrainStorageEngine.computeGridId beijing 116.0 39.0 = "G_000_000" /\
  TerrainStorageEngine.computeGridId beijing 117.499 40.999 = "G_199_149".
Proof. repeat split; reflexivity. Qed.

(** C4, the code at the failing input: on the upper bounds of the Beijing
    configuration the column is [grid_cols_] and the row is [grid_rows_], not
    below them; the point is accepted and stored under the cell
    ["G_200_150"], which [rangeQuery] never visits. *)
Theorem upper_bound_cell_outside_grid :
  TerrainStorageEngine.isWithinBounds beijing 117.5 41 = true /\
  TerrainStorageEngine.lonToGridCol beijing 117.5 = TerrainStorageEngine.grid_cols_ beijing /\
  TerrainStorageEngine.latToGridRow beijing 41 = TerrainStorageEngine.grid_rows_ beijing /\
  TerrainStorageEngine.computeGridId beijing 117.5 41 = "G_200_150" /\
  (let e := (TerrainStorageEngine.put beijing 117.5 41 "boundary2").2 in
   (TerrainStorageEngine.get e 117.5 41).1 = Some "boundary2" /\
   (TerrainStorageEngine.rangeQuery e 117.495 40.995 117.5 41).1 = []).
Proof. vm_compute. repeat split; reflexivity. Qed.

(** ** Point writes and reads *)

Lemma cache_get_lookup c id :
  (GridLRUCache.get c id).1 = GridLRUCache.cache_map_ c !! id /\
  GridLRUCache.cache_map_ (GridLRUCache.get c id).2 = GridLRUCache.cache_map_ c.
Proof. unfold GridLRUCache.get. by destruct (_ !! id). Qed.

(** C1: for a point within the bounds, [put] returns normally and a [get] of
    the same point on the engine it leaves returns the value put. *)
Theorem put_then_get e lon lat value :
  TerrainStorageEngine.isWithinBounds e lon lat = true ->
  (TerrainStorageEngine.put e lon lat value).1 = Ok tt /\
  (TerrainStorageEngine.get (TerrainStorageEngine.put e lon lat value).2 lon lat).1 = Some value.
Proof.
  intros Hb. unfold TerrainStorageEngine.put. rewrite Hb. cbn [negb].
  set (gid := TerrainStorageEngine.computeGridId e lon lat).
  set (key := TerrainStorageEngine.generateKey lon lat gid).
  destruct (GridLRUCache.get (TerrainStorageEngine.cache_ e) gid) as [item c] eqn:Hget.
  pose proof (cache_get_lookup (TerrainStorageEngine.cache_ e) gid) as [Hitem Hmap].
  rewrite Hget in Hitem, Hmap. cbn [fst snd] in Hitem, Hmap.
  split; [done|]. cbn [snd].
  unfold TerrainStorageEngine.get.
  assert (TerrainStorageEngine.isWithinBounds (TerrainStorageEngine.with_db (TerrainStorageEngine.with_cache e
            match item with Some _ => GridLRUCache.update_data c gid key value | None => c end)
            (LevelDBManager.put (TerrainStorageEngine.db_manager_ e) key value)) lon lat = true) as -> by exact Hb.
  cbn [negb].
  change (TerrainStorageEngine.computeGridId (TerrainStorageEngine.with_db _ _) lon lat) with gid. fold key.
  cbn [TerrainStorageEngine.cache_ TerrainStorageEngine.with_db TerrainStorageEngine.with_cache].
  destruct item as [it|].
  - (* the cell is resident: the cached mapping holds the value *)
    unfold GridLRUCache.get at 1. cbn [GridLRUCache.update_data GridLRUCache.cache_map_].
    rewrite lookup_alter_eq, Hmap, <- Hitem. cbn.
    by rewrite lookup_insert_eq.
  - (* the cell is not resident: the database holds the value *)
    unfold GridLRUCache.get at 1. rewrite Hmap, <- Hitem. cbn.
    unfold LevelDBManager.get, LevelDBManager.put. by rewrite lookup_insert_eq.
Qed.

Lemma put_then_get_witness :
  TerrainStorageEngine.isWithinBounds beijing 116.405285 39.904989 = true /\
  (TerrainStorageEngine.put beijing 116.405285 39.904989 "43.5").1 = Ok tt /\
  (TerrainStorageEngine.get
     (TerrainStorageEngine.put beijing 116.405285 39.904989 "43.5").2
     116.405285 39.904989).1 = Some "43.5".
Proof.
  split; [reflexivity|].
  apply (put_then_get beijing 116.405285 39.904989 "43.5"). reflexivity.
Defined.

(** ** Batch writes *)

Lemma batchPut_loop_ok e points : forall c batch,
  Forall (fun p : Q * Q * string => TerrainStorageEngine.isWithinBounds e p.1.1 p.1.2 = true) points ->
  exists c', TerrainStorageEngine.batchPut_loop e c batch points
             = (Ok (batch ++ map (staged e) points)%list, c').
Proof.
  induction points as [|[[lon lat] v] points IH]; intros c batch Hall.
  - exists c. simpl. by rewrite app_nil_r.
  - inversion Hall as [|? ? Hb Hall']; subst. cbn [fst snd] in Hb.
    cbn [TerrainStorageEngine.batchPut_loop]. rewrite Hb. cbn [negb].
    destruct (GridLRUCache.get c _) as [item c1].
    edestruct IH as [c' ->]; [done|].
    exists c'. f_equal. f_equal. by rewrite <- app_assoc.
Qed.

Lemma batchPut_loop_throw e points : forall c batch,
  Exists (fun p : Q * Q * string => TerrainStorageEngine.isWithinBounds e p.1.1 p.1.2 = false) points ->
  exists lon lat c', TerrainStorageEngine.batchPut_loop e c batch points
                     = (Throw (CoordinateOutOfRange lon lat), c').
Proof.
  induction points as [|[[lon lat] v] points IH]; intros c batch Hex.
  - inversion Hex.
  - cbn [TerrainStorageEngine.batchPut_loop].
    destruct (TerrainStorageEngine.isWithinBounds e lon lat) eqn:Hb; cbn [negb]; [|by eauto].
    destruct (GridLRUCache.get c _) as [item c1].
    apply IH. inversion Hex as [? ? Hoob|]; subst; [|done].
    cbn [fst snd] in Hoob. congruence.
Qed.

Lemma commit_staged e points db :
  LevelDBManager.commit db (map (staged e) points)
  = foldl (fun d (p : Q * Q * string) => <[keyOf e p.1.1 p.1.2 := p.2]> d) db points.
Proof.
  unfold LevelDBManager.commit. revert db.
  induction points as [|p points IH]; intros db; [done|]. simpl. apply IH.
Qed.

(** C6: a batch with a point out of bounds throws the out-of-range
    exception and leaves the database as it was; a batch whose points are all
    within the bounds returns normally and the database holds every write of
    the batch, applied in order.  (The cache may have been updated in either
    case.) *)
Theorem batchPut_all_or_nothing e points :
  (Exists (fun p : Q * Q * string => TerrainStorageEngine.isWithinBounds e p.1.1 p.1.2 = false) points ->
     (exists lon lat, (TerrainStorageEngine.batchPut e points).1 = Throw (CoordinateOutOfRange lon lat)) /\
     TerrainStorageEngine.db_manager_ (TerrainStorageEngine.batchPut e points).2 = TerrainStorageEngine.db_manager_ e) /\
  (Forall (fun p : Q * Q * string => TerrainStorageEngine.isWithinBounds e p.1.1 p.1.2 = true) points ->
     (TerrainStorageEngine.batchPut e points).1 = Ok tt /\
     TerrainStorageEngine.db_manager_ (TerrainStorageEngine.batchPut e points).2
     = foldl (fun d (p : Q * Q * string) => <[keyOf e p.1.1 p.1.2 := p.2]> d)
             (TerrainStorageEngine.db_manager_ e) points).
Proof.
  unfold TerrainStorageEngine.batchPut. split.
  - intros Hex.
    destruct (batchPut_loop_throw e points (TerrainStorageEngine.cache_ e) [] Hex) as (lon & lat & c' & ->).
    cbn. eauto.
  - intros Hall.
    destruct (batchPut_loop_ok e points (TerrainStorageEngine.cache_ e) [] Hall) as (c' & ->).
    cbn. split; [done|]. apply commit_staged.
Qed.

Lemma batchPut_all_or_nothing_witness :
  let bad := [(116.402%Q, 39.901%Q, "p1"); (118%Q, 39.9%Q, "x")] in
  let good := [(116.402%Q, 39.901%Q, "p1"); (116.403%Q, 39.902%Q, "p2")] in
  TerrainStorageEngine.db_manager_ (TerrainStorageEngine.batchPut beijing bad).2 = ∅ /\
  (TerrainStorageEngine.batchPut beijing good).1 = Ok tt.
Proof.
  intros bad good.
  destruct (batchPut_all_or_nothing beijing bad) as [Hbad _].
  destruct (batchPut_all_or_nothing beijing good) as [_ Hgood].
  split.
  - apply Hbad. apply Exists_cons_tl, Exists_cons_hd. reflexivity.
  - apply Hgood. repeat constructor.
Defined.

(** ** The LRU cache *)

Section lru_lists.
Implicit Types (l : list string) (id : string).

Lemma filter_ne_notin id l : id ∉ l -> filter (fun x => x ≠ id) l = l.
Proof.
  induction l as [|x l IH]; [done|]. intros Hn.
  apply not_elem_of_cons in Hn as [Hne Hn].
  rewrite filter_cons_True by done. f_equal. by apply IH.
Qed.

Lemma erase_filter id l :
  NoDup l -> GridLRUCache.erase id l = filter (fun x => x ≠ id) l.
Proof.
  induction 1 as [|x l Hx Hl IH]; [done|]. simpl.
  destruct (String.eqb_spec x id) as [->|Hne].
  - rewrite filter_cons_False by naive_solver.
    by rewrite filter_ne_notin.
  - rewrite filter_cons_True by done. by rewrite IH.
Qed.

Lemma NoDup_touch id l : NoDup l -> NoDup (touch id l).
Proof.
  intros Hl. unfold touch. apply NoDup_cons. split.
  - rewrite list_elem_of_filter. intros [Hne _]. by apply Hne.
  - by apply NoDup_filter.
Qed.



Lemma elem_of_touch x id l : x ∈ touch id l <-> x = id \/ x ∈ l.
Proof.
  unfold touch. rewrite elem_of_cons, list_elem_of_filter.
  destruct (decide (x = id)) as [->|Hne]; [by intuition|].
  split; [intros [?|[_ ?]]; auto | intros [?|?]; auto].
Qed.


Lemma length_filter_ne id l :
  NoDup l -> length l <= S (length (filter (fun x => x ≠ id) l)).
Proof.
  induction 1 as [|x l Hx Hl IH]; [simpl; lia|].
  destruct (decide (x = id)) as [->|Hne].
  - rewrite filter_cons_False by naive_solver.
    rewrite filter_ne_notin by done. simpl. lia.
  - rewrite filter_cons_True by done. simpl. lia.
Qed.

Lemma length_touch_in id l :
  NoDup l -> id ∈ l -> length (touch id l) = length l.
Proof.
  intros Hl Hin. unfold touch. simpl.
  pose proof (length_filter_ne id l Hl).
  pose proof (length_filter_lt (fun x => x ≠ id) l id Hin). 
  assert (length (filter (fun x => x ≠ id) l) < length l) by naive_solver.
  lia.
Qed.



End lru_lists.



Section lru_cache.
Implicit Types (c : GridLRUCache.t) (id : string) (item : GridCacheItem).

Lemma wf_new capacity : wf (GridLRUCache.new capacity).
Proof.
  split; simpl.
  - constructor.
  - intros id. rewrite lookup_empty, elem_of_nil. split; [done|]. by intros [? ?].
  - lia.
  - destruct (Nat.ltb_spec 0 capacity); lia.
Qed.

Lemma wf_size c : wf c -> size (GridLRUCache.cache_map_ c) = length (GridLRUCache.access_list_ c).
Proof.
  intros [Hnd Hdom _ _].
  rewrite <- size_dom.
  assert (dom (GridLRUCache.cache_map_ c) = list_to_set (GridLRUCache.access_list_ c)) as ->.
  { apply set_eq. intros id. rewrite elem_of_dom, elem_of_list_to_set. by rewrite Hdom. }
  by apply size_list_to_set.
Qed.

Lemma get_miss c id :
  GridLRUCache.cache_map_ c !! id = None -> GridLRUCache.get c id = (None, c).
Proof. intros H. unfold GridLRUCache.get. by rewrite H. Qed.

Lemma get_hit c id item :
  wf c -> GridLRUCache.cache_map_ c !! id = Some item ->
  (GridLRUCache.get c id).1 = Some item /\
  GridLRUCache.capacity_ (GridLRUCache.get c id).2 = GridLRUCache.capacity_ c /\
  GridLRUCache.cache_map_ (GridLRUCache.get c id).2 = GridLRUCache.cache_map_ c /\
  GridLRUCache.access_list_ (GridLRUCache.get c id).2 = take (GridLRUCache.capacity_ c) (touch id (GridLRUCache.access_list_ c)) /\
  wf (GridLRUCache.get c id).2.
Proof.
  intros Hwf Hit. unfold GridLRUCache.get. rewrite Hit. cbn [fst snd GridLRUCache.capacity_ GridLRUCache.cache_map_ GridLRUCache.access_list_].
  destruct Hwf as [Hnd Hdom Hcap Hpos].
  assert (id ∈ GridLRUCache.access_list_ c) as Hin by (apply Hdom; eauto).
  rewrite erase_filter by done. fold (touch id (GridLRUCache.access_list_ c)).
  pose proof (length_touch_in id _ Hnd Hin) as Hlen.
  split; [done|]. split; [done|]. split; [done|].
  split; [rewrite take_ge; [done|lia]|].
  split; cbn [GridLRUCache.capacity_ GridLRUCache.cache_map_ GridLRUCache.access_list_];
    [by apply NoDup_touch| |lia|done].
  intros x. rewrite elem_of_touch. split.
  - intros [->|?]; [eauto|by apply Hdom].
  - intros ?. right. by apply Hdom.
Qed.

Lemma put_spec c id item :
  wf c ->
  GridLRUCache.capacity_ (GridLRUCache.put c id item) = GridLRUCache.capacity_ c /\
  GridLRUCache.access_list_ (GridLRUCache.put c id item) = take (GridLRUCache.capacity_ c) (touch id (GridLRUCache.access_list_ c)) /\
  GridLRUCache.cache_map_ (GridLRUCache.put c id item) !! id = Some item /\
  (forall id' x, id' ≠ id -> GridLRUCache.cache_map_ (GridLRUCache.put c id item) !! id' = Some x ->
                 GridLRUCache.cache_map_ c !! id' = Some x) /\
  wf (GridLRUCache.put c id item).
Proof.
  intros Hwf. pose proof (wf_size c Hwf) as Hsize.
  destruct Hwf as [Hnd Hdom Hcap Hpos].
  unfold GridLRUCache.put. destruct (GridLRUCache.cache_map_ c !! id) as [old|] eqn:Hold.
  - (* replacement *)
    assert (id ∈ GridLRUCache.access_list_ c) as Hin by (apply Hdom; eauto).
    rewrite erase_filter by done. fold (touch id (GridLRUCache.access_list_ c)).
    pose proof (length_touch_in id _ Hnd Hin) as Hlen.
    cbn [GridLRUCache.capacity_ GridLRUCache.cache_map_ GridLRUCache.access_list_].
    split; [done|]. split; [rewrite take_ge; [done|lia]|].
    split; [by rewrite lookup_insert_eq|].
    split; [intros id' x Hne; by rewrite lookup_insert_ne|].
    split; cbn [GridLRUCache.capacity_ GridLRUCache.cache_map_ GridLRUCache.access_list_];
      [by apply NoDup_touch| |lia|done].
    intros x. rewrite elem_of_touch. destruct (decide (x = id)) as [->|Hne].
    + rewrite lookup_insert_eq. split; eauto.
    + rewrite lookup_insert_ne by done. rewrite <- Hdom. split; [intros [?|?]|]; auto; done.
  - assert (id ∉ GridLRUCache.access_list_ c) as Hnin.
    { rewrite Hdom, Hold. by intros [? ?]. }
    assert (touch id (GridLRUCache.access_list_ c) = id :: GridLRUCache.access_list_ c) as Htouch.
    { unfold touch. by rewrite filter_ne_notin. }
    rewrite Htouch.
    destruct (Nat.leb_spec (GridLRUCache.capacity_ c) (size (GridLRUCache.cache_map_ c))) as [Hfull|Hroom].
    + (* the cache is full: the least recently used cell goes *)
      assert (length (GridLRUCache.access_list_ c) = GridLRUCache.capacity_ c) as Hlen by lia.
      destruct (last (GridLRUCache.access_list_ c)) as [lru|] eqn:Hlast.
      2:{ apply last_None in Hlast. rewrite Hlast in Hlen. simpl in Hlen. lia. }
      apply last_Some in Hlast as [l' Hl'].
      assert (GridLRUCache.pop_back (GridLRUCache.access_list_ c) = l') as Hpop.
      { unfold GridLRUCache.pop_back. rewrite Hl', length_app. simpl.
        replace (length l' + 1 - 1) with (length l') by lia. apply take_app_length. }
      rewrite Hpop. cbn [GridLRUCache.capacity_ GridLRUCache.cache_map_ GridLRUCache.access_list_].
      assert (take (GridLRUCache.capacity_ c) (id :: GridLRUCache.access_list_ c) = id :: l') as Htake.
      { destruct (GridLRUCache.capacity_ c) as [|n] eqn:Hc; [lia|]. cbn [take]. f_equal.
        rewrite Hl'. rewrite Hl', length_app in Hlen. simpl in Hlen.
        apply take_app_length'. lia. }
      rewrite Hl' in Hnd, Hnin, Hdom, Hlen.
      apply NoDup_app in Hnd as (Hnd' & Hdisj & _).
      assert (lru ∉ l') as Hlru.
      { intros Hin. apply (Hdisj lru Hin). by apply list_elem_of_singleton. }
      assert (lru ≠ id) as Hne_lru.
      { intros ->. apply Hnin. rewrite elem_of_app, list_elem_of_singleton. auto. }
      split; [done|]. split; [done|].
      split; [by rewrite lookup_insert_eq|].
      split.
      { intros id' x Hne. rewrite lookup_insert_ne by done.
        intros H. apply lookup_delete_Some in H as [_ H]. done. }
      rewrite length_app in Hlen. simpl in Hlen.
      split; cbn [GridLRUCache.capacity_ GridLRUCache.cache_map_ GridLRUCache.access_list_];
        [| |simpl; lia|done].
      * apply NoDup_cons. split; [|done].
        intros Hin. apply Hnin. rewrite elem_of_app. auto.
      * intros x. rewrite elem_of_cons. destruct (decide (x = id)) as [->|Hne].
        { rewrite lookup_insert_eq. split; eauto. }
        rewrite lookup_insert_ne by done.
        destruct (decide (x = lru)) as [->|Hne'].
        { rewrite lookup_delete_eq. split; [intros [?|?]; done|by intros [? ?]]. }
        rewrite lookup_delete_ne by done. rewrite <- Hdom, elem_of_app, list_elem_of_singleton.
        split; [intros [?|?]; [done|auto]|intros [?|?]; [auto|done]].
    + (* there is room *)
      rewrite Hsize in Hroom.
      cbn [GridLRUCache.capacity_ GridLRUCache.cache_map_ GridLRUCache.access_list_].
      split; [done|]. split; [rewrite take_ge; [done|simpl; lia]|].
      split; [by rewrite lookup_insert_eq|].
      split; [intros id' x Hne; by rewrite lookup_insert_ne|].
      split; cbn [GridLRUCache.capacity_ GridLRUCache.cache_map_ GridLRUCache.access_list_];
        [by apply NoDup_cons| |simpl; lia|done].
      intros x. rewrite elem_of_cons. destruct (decide (x = id)) as [->|Hne].
      * rewrite lookup_insert_eq. split; eauto.
      * rewrite lookup_insert_ne by done. rewrite <- Hdom. split; [intros [?|?]|]; auto; done.
Qed.

End lru_cache.

Section lru_trace.
Implicit Types (c : GridLRUCache.t) (id : string) (item : GridCacheItem).






End lru_trace.

(** ** Range queries *)

Section engine_cache.
Implicit Types (e : TerrainStorageEngine.t) (db : gmap string string).

Lemma foldl_insert_list_to_map (l : list (string * string)) : forall d : gmap string string,
  foldl (fun d kv => <[kv.1 := kv.2]> d) d l = list_to_map (reverse l) ∪ d.
Proof.
  induction l as [|[k v] l IH]; intros d.
  - simpl. by rewrite (left_id_L ∅ (∪)).
  - cbn [foldl]. rewrite IH, reverse_cons, list_to_map_app. simpl.
    rewrite <- (assoc_L (∪)). f_equal.
    rewrite insert_empty. by rewrite <- insert_union_singleton_l.
Qed.

Lemma scan_permutation db start_key end_key :
  LevelDBManager.rangeQuery db start_key end_key
  ≡ₚ filter (fun kv => LevelDBManager.in_range start_key end_key kv.1 = true)
            (map_to_list db).
Proof. unfold LevelDBManager.rangeQuery. apply merge_sort_Permutation. Qed.

Lemma scan_NoDup db start_key end_key :
  NoDup (LevelDBManager.rangeQuery db start_key end_key).*1.
Proof.
  rewrite scan_permutation.
  eapply sublist_NoDup; [apply (NoDup_fst_map_to_list db)|].
  apply fmap_sublist, sublist_filter.
Qed.

(** The mapping built by [loadGridToCache] is the content of the cell. *)
Lemma loaded_data db grid_id :
  foldl (fun d kv => <[kv.1 := kv.2]> d) ∅
        (LevelDBManager.rangeQuery db (TerrainStorageEngine.start_key grid_id)
           (TerrainStorageEngine.end_key grid_id))
  = cell_scan db grid_id.
Proof.
  rewrite foldl_insert_list_to_map, (right_id_L ∅ (∪)).
  unfold cell_scan. rewrite map_filter_alt.
  apply list_to_map_proper.
  - rewrite fmap_reverse, reverse_Permutation. apply scan_NoDup.
  - rewrite reverse_Permutation. apply scan_permutation.
Qed.


Lemma put_lookup_eq c id item :
  GridLRUCache.cache_map_ (GridLRUCache.put c id item) !! id = Some item.
Proof.
  unfold GridLRUCache.put.
  destruct (GridLRUCache.cache_map_ c !! id);
    [|destruct (_ <=? _)%nat; [destruct (last _)|]];
    cbn; by rewrite lookup_insert_eq.
Qed.

Lemma put_lookup_ne c id item id' x :
  id' ≠ id ->
  GridLRUCache.cache_map_ (GridLRUCache.put c id item) !! id' = Some x ->
  GridLRUCache.cache_map_ c !! id' = Some x.
Proof.
  intros Hne. unfold GridLRUCache.put.
  destruct (GridLRUCache.cache_map_ c !! id);
    [|destruct (_ <=? _)%nat; [destruct (last _)|]];
    cbn; rewrite lookup_insert_ne by done; try done.
  intros H. by apply lookup_delete_Some in H as [_ H].
Qed.

(** [loadGridToCache] returns the item it has just put in the cache: the content of the cell. *)
Lemma loadGridToCache_spec e grid_id :
  exists item,
    TerrainStorageEngine.loadGridToCache e grid_id
    = (Some item,
       TerrainStorageEngine.with_cache e
         (GridLRUCache.put (TerrainStorageEngine.cache_ e) grid_id item)) /\ data item = cell_scan (TerrainStorageEngine.db_manager_ e) grid_id.
Proof.
  unfold TerrainStorageEngine.loadGridToCache. eexists. split; [reflexivity|].
  cbn [data]. apply loaded_data.
Qed.

Lemma coherent_put_cache e id item :
  coherent e ->
  data item = cell_scan (TerrainStorageEngine.db_manager_ e) id ->
  coherent (TerrainStorageEngine.with_cache e
              (GridLRUCache.put (TerrainStorageEngine.cache_ e) id item)).
Proof.
  intros Hco Hitem id' item' Hlook. cbn in *.
  destruct (decide (id' = id)) as [->|Hne].
  - rewrite put_lookup_eq in Hlook. by simplify_eq.
  - apply put_lookup_ne in Hlook; [|done]. by apply Hco.
Qed.

Lemma coherent_get_cache e id :
  coherent e ->
  coherent (TerrainStorageEngine.with_cache e
              (GridLRUCache.get (TerrainStorageEngine.cache_ e) id).2).
Proof.
  intros Hco id' item'. cbn.
  destruct (cache_get_lookup (TerrainStorageEngine.cache_ e) id) as [_ ->].
  apply Hco.
Qed.

(** [processGrid] reports the content of an item that is resident under
    [grid_id] afterwards; only the cache of the engine changes, by an access
    to [grid_id]. *)
Lemma processGrid_spec e grid_id min_lon min_lat max_lon max_lat :
  let r := TerrainStorageEngine.processGrid e grid_id min_lon min_lat max_lon max_lat in
  r.2 = TerrainStorageEngine.with_cache e (TerrainStorageEngine.cache_ r.2) /\
  (exists item,
      GridLRUCache.cache_map_ (TerrainStorageEngine.cache_ r.2) !! grid_id = Some item /\
      r.1 = TerrainStorageEngine.report min_lon min_lat max_lon max_lat
              (map_to_list (data item)) /\
      (coherent e ->
       data item = cell_scan (TerrainStorageEngine.db_manager_ e) grid_id)) /\
  (coherent e -> coherent r.2) /\
  (wf (TerrainStorageEngine.cache_ e) ->
   wf (TerrainStorageEngine.cache_ r.2) /\
   GridLRUCache.capacity_ (TerrainStorageEngine.cache_ r.2)
   = GridLRUCache.capacity_ (TerrainStorageEngine.cache_ e) /\
   GridLRUCache.access_list_ (TerrainStorageEngine.cache_ r.2)
   = take (GridLRUCache.capacity_ (TerrainStorageEngine.cache_ e))
          (touch grid_id (GridLRUCache.access_list_ (TerrainStorageEngine.cache_ e)))).
Proof.
  unfold TerrainStorageEngine.processGrid.
  destruct (GridLRUCache.cache_map_ (TerrainStorageEngine.cache_ e) !! grid_id)
    as [item|] eqn:Hit.
  - (* resident *)
    pose proof (cache_get_lookup (TerrainStorageEngine.cache_ e) grid_id) as [H1 H2].
    destruct (GridLRUCache.get (TerrainStorageEngine.cache_ e) grid_id) as [cached c] eqn:Hget.
    cbn [fst snd] in H1, H2. rewrite Hit in H1. subst cached. cbn.
    split; [done|]. split; [|split].
    + exists item. rewrite H2. split; [done|]. split; [done|]. intros Hco. by apply Hco.
    + intros Hco. pose proof (coherent_get_cache e grid_id Hco) as Hco'.
      by rewrite Hget in Hco'.
    + intros Hwf. destruct (get_hit _ _ _ Hwf Hit) as (_ & Hc & _ & Hl & Hwf').
      by rewrite Hget in Hc, Hl, Hwf'.
  - (* not resident: the cell is loaded *)
    rewrite get_miss by done.
    destruct (loadGridToCache_spec
                (TerrainStorageEngine.with_cache e (TerrainStorageEngine.cache_ e)) grid_id)
      as (item & -> & Hdata).
    cbn [fst snd TerrainStorageEngine.cache_ TerrainStorageEngine.with_cache] in *.
    split; [done|]. split; [|split].
    + exists item. rewrite put_lookup_eq. done.
    + intros Hco. by apply (coherent_put_cache e).
    + intros Hwf. destruct (put_spec _ grid_id item Hwf) as (Hc & Hl & _ & _ & Hwf').
      done.
Qed.





Lemma query_cells_spec min_lon min_lat max_lon max_lat cells : forall e acc,
  let r := query_cells e min_lon min_lat max_lon max_lat acc cells in
  r.2 = TerrainStorageEngine.with_cache e (TerrainStorageEngine.cache_ r.2) /\
  (coherent e ->
   coherent r.2 /\
   r.1 = (acc ++ scan_report (TerrainStorageEngine.db_manager_ e)
                   min_lon min_lat max_lon max_lat cells)%list) /\
  (wf (TerrainStorageEngine.cache_ e) ->
   wf (TerrainStorageEngine.cache_ r.2) /\
   GridLRUCache.capacity_ (TerrainStorageEngine.cache_ r.2)
   = GridLRUCache.capacity_ (TerrainStorageEngine.cache_ e) /\
   GridLRUCache.access_list_ (TerrainStorageEngine.cache_ r.2)
   = foldl (fun l id => take (GridLRUCache.capacity_ (TerrainStorageEngine.cache_ e))
                             (touch id l))
           (GridLRUCache.access_list_ (TerrainStorageEngine.cache_ e)) cells).
Proof.
  induction cells as [|grid_id cells IH]; intros e acc.
  - cbn. split; [by destruct e|]. split; [intros Hco; by rewrite app_nil_r|done].
  - unfold query_cells. cbn [foldl fst snd].
    pose proof (processGrid_spec e grid_id min_lon min_lat max_lon max_lat)
      as (Hsame & (item & _ & Hcalls & Hdata) & Hco1 & Hwf1).
    destruct (TerrainStorageEngine.processGrid e grid_id min_lon min_lat max_lon max_lat)
      as [calls e1].
    cbn [fst snd] in *.
    specialize (IH e1 (acc ++ calls)%list).
    unfold query_cells in IH. cbn zeta in IH.
    destruct IH as (IHsame & IHco & IHwf).
    split; [|split].
    + rewrite IHsame. rewrite Hsame at 1. done.
    + intros Hco. destruct (IHco (Hco1 Hco)) as [Hco' ->].
      split; [done|]. rewrite Hsame. cbn [TerrainStorageEngine.db_manager_ TerrainStorageEngine.with_cache].
      unfold scan_report. cbn [mbind list_bind]. 
      rewrite <- app_assoc. do 2 f_equal. rewrite Hcalls, Hdata by done. done.
    + intros Hwf. destruct (Hwf1 Hwf) as (Hwf' & Hc & Hl).
      destruct (IHwf Hwf') as (Hwf'' & Hc' & Hl').
      split; [done|]. split; [congruence|]. rewrite Hl', Hc, Hl. done.
Qed.

Lemma rangeQuery_query_cells e min_lon min_lat max_lon max_lat :
  TerrainStorageEngine.rangeQuery e min_lon min_lat max_lon max_lat
  = query_cells e min_lon min_lat max_lon max_lat []
      (TerrainStorageEngine.covered_cells e min_lon min_lat max_lon max_lat).
Proof. reflexivity. Qed.

End engine_cache.
Section decimal_text.

Lemma digit_value d : (d < 10)%N -> (N_of_ascii (Num.digit_char d) - 48 = d)%N.
Proof. intros H. rewrite N_of_digit_char by done. lia. Qed.

Lemma read_digits_fixed k : forall n rest acc cnt,
  Num.read_digits (Num.fixed_digits k n ++ rest) acc cnt
  = Num.read_digits rest (acc * 10 ^ N.of_nat k + n mod 10 ^ N.of_nat k)%N (cnt + k)%nat.
Proof.
  induction k as [|k IH]; intros n rest acc cnt.
  - cbn [Num.fixed_digits]. rewrite append_nil_l.
    change (10 ^ N.of_nat 0)%N with 1%N. rewrite N.mod_1_r.
    f_equal; [lia|lia].
  - cbn [Num.fixed_digits]. rewrite app_assoc_string, IH.
    rewrite append_cons, append_nil_l. cbn [Num.read_digits].
    rewrite is_digit_digit_char.
    assert (n mod 10 < 10)%N as Hd by (apply N.mod_lt; lia).
    rewrite digit_value by done.
    f_equal; [|lia].
    rewrite Nat2N.inj_succ, N.pow_succ_r'.
    rewrite N.Div0.mod_mul_r.
    generalize dependent (n mod 10)%N. intros d Hd.
    generalize ((n / 10) mod 10 ^ N.of_nat k)%N. intros m.
    generalize (10 ^ N.of_nat k)%N. intros t. lia.
Qed.



Lemma ndigits_fuel_bound f : forall n,
  (n < 2 ^ N.of_nat f)%N -> (n < 10 ^ N.of_nat (Num.ndigits_fuel f n))%N.
Proof.
  induction f as [|f IH]; intros n Hn.
  - simpl in *. lia.
  - cbn [Num.ndigits_fuel]. destruct (N.ltb_spec n 10) as [Hlt|Hge].
    + simpl. lia.
    + rewrite Nat2N.inj_succ, N.pow_succ_r' in *.
      assert (n / 10 < 2 ^ N.of_nat f)%N as Hdiv.
      { apply N.Div0.div_lt_upper_bound. lia. }
      specialize (IH _ Hdiv).
      pose proof (N.Div0.div_mod n 10) as Hdm.
      assert (n mod 10 < 10)%N by (apply N.mod_lt; lia).
      generalize dependent (n mod 10)%N. generalize dependent (n / 10)%N.
      intros q Hq IH r Hdm Hr. 
      generalize dependent (10 ^ N.of_nat (Num.ndigits_fuel f q))%N. intros t Ht. lia.
Qed.

Lemma ndigits_bound n : (n < 10 ^ N.of_nat (Num.ndigits n))%N.
Proof.
  unfold Num.ndigits. apply ndigits_fuel_bound.
  rewrite N2Nat.id. apply N.size_gt.
Qed.

Lemma read_digits_dec n rest cnt :
  Num.read_digits (Num.dec n ++ rest) 0 cnt
  = Num.read_digits rest n (cnt + Num.ndigits n)%nat.
Proof.
  unfold Num.dec. rewrite read_digits_fixed. f_equal.
  rewrite N.mod_small by apply ndigits_bound. lia.
Qed.

Lemma is_digit_not_sign c :
  Num.is_digit c = true ->
  Ascii.eqb c "-" = false /\ Ascii.eqb c "+" = false /\ Ascii.eqb c "." = false.
Proof.
  intros Hd. repeat split.
  all: match goal with |- Ascii.eqb _ ?x = false =>
         destruct (Ascii.eqb_spec c x) as [->|]; [discriminate Hd|done] end.
Qed.

(** The text of a coordinate with at most seven fractional digits. *)
Lemma fmt7_seven_digits x n :
  x == n # 10000000 ->
  Num.fmt7 x
  = (if (n <? 0)%Z then "-" else "") ++
    Num.dec (Z.to_N (Z.abs n) / Num.ten7) ++ "." ++
    Num.fixed_digits 7 (Z.to_N (Z.abs n) mod Num.ten7).
Proof.
  intros Hx. unfold Num.fmt7.
  assert (Num.round_half_even (Qabs x * (Z.of_N Num.ten7 # 1)) = Z.to_N (Z.abs n)) as ->.
  { unfold Num.round_half_even. destruct x as [a d]. unfold Qeq in Hx. cbn in Hx.
    cbn [Qabs Qmult Qnum Qden]. change (Z.of_N Num.ten7) with 10000000%Z.
    assert (Z.abs a * 10000000 = Z.abs n * Z.pos d)%Z as Habs.
    { replace (Z.abs a * 10000000)%Z with (Z.abs (a * 10000000))
        by (rewrite Z.abs_mul; reflexivity).
      replace (Z.abs n * Z.pos d)%Z with (Z.abs (n * Z.pos d))
        by (rewrite Z.abs_mul; reflexivity).
      by rewrite Hx. }
    rewrite Habs, Pos.mul_1_r.
    rewrite Z.div_mul by lia. rewrite Z.mod_mul by lia.
    change (2 * 0)%Z with 0%Z. simpl. done. }
  f_equal. unfold Num.Qltb. destruct x as [a d]. unfold Qeq in Hx. cbn in Hx.
  unfold Qle_bool. cbn.
  pose proof (Pos2Z.is_pos d).
  destruct (Z.ltb_spec n 0); destruct (Z.leb_spec (0 * Z.pos d) (a * 1));
    cbn; try done; nia.
Qed.

Lemma stod_fmt7 x :
  seven_digits x -> exists y, Num.stod (Num.fmt7 x) = Some y /\ y == x.
Proof.
  intros [n Hx]. rewrite (fmt7_seven_digits x n Hx).
  set (m := Z.to_N (Z.abs n)).
  set (ip := (m / Num.ten7)%N). set (fp := (m mod Num.ten7)%N).
  assert (fp < Num.ten7)%N as Hfp by (apply N.mod_lt; done).
  assert (forall neg s,
    (s = Num.dec ip ++ "." ++ Num.fixed_digits 7 fp) ->
    (let '(ip', ni, s2) := Num.read_digits s 0 0 in
     let '(fp', nf, _) :=
       match s2 with
       | String c r => if Ascii.eqb c "." then Num.read_digits r 0 0 else (0%N, O, s2)
       | "" => (0%N, O, s2)
       end in
     if (ni + nf =? 0)%nat then None
     else
       let mag :=
         (Z.of_N (ip' * 10 ^ N.of_nat nf + fp')
          # N.succ_pos (N.pred (10 ^ N.of_nat nf)))%Q in
       Some (if neg : bool then Qopp mag else mag))
    = Some (if neg then Qopp (Z.of_N m # 10000000) else (Z.of_N m # 10000000))) as Hbody.
  { intros neg s ->. rewrite read_digits_dec.
    rewrite append_cons, append_nil_l. cbn [Num.read_digits].
    change (Num.is_digit ".") with false. cbn iota.
    change (Ascii.eqb "." ".") with true. cbn iota.
    rewrite <- (app_empty_r (Num.fixed_digits 7 fp)), read_digits_fixed.
    cbn [Num.read_digits].
    rewrite N.mod_small by exact Hfp.
    destruct (0 + Num.ndigits ip + (0 + 7) =? 0)%nat eqn:Hz.
    { apply Nat.eqb_eq in Hz. lia. }
    f_equal.
    assert (ip * 10 ^ N.of_nat (0 + 7) + (0 * 10 ^ N.of_nat 7 + fp) = m)%N as ->.
    { change (10 ^ N.of_nat (0 + 7))%N with Num.ten7.
      rewrite N.mul_0_l, N.add_0_l. unfold ip, fp. 
      rewrite N.mul_comm. symmetry. apply N.Div0.div_mod. }
    reflexivity. }
  destruct (Z.ltb_spec n 0) as [Hneg|Hpos].
  - exists (Qopp (Z.of_N m # 10000000)). split.
    + unfold Num.stod. rewrite append_cons, append_nil_l.
      change (Ascii.eqb "-" "-") with true. cbn iota.
      apply (Hbody true). reflexivity.
    + rewrite Hx. unfold Qeq. cbn. subst m. lia.
  - exists (Z.of_N m # 10000000). split.
    + unfold Num.stod. rewrite append_nil_l.
      destruct (dec_head ip) as (c & s & Hc & Hd).
      rewrite Hc, append_cons.
      destruct (is_digit_not_sign c Hd) as (-> & -> & _).
      rewrite <- append_cons, <- Hc.
      apply (Hbody false). reflexivity.
    + rewrite Hx. unfold Qeq. cbn. subst m. lia.
Qed.

End decimal_text.
Section key_text.

Lemma length_append (a b : string) :
  String.length (a ++ b) = (String.length a + String.length b)%nat.
Proof. induction a as [|c a IH]; [done|]. rewrite append_cons. simpl. by rewrite IH. Qed.

Lemma substring_skip (p s : string) n m :
  String.substring (String.length p + n) m (p ++ s) = String.substring n m s.
Proof. induction p as [|c p IH]; [done|]. rewrite append_cons. simpl. apply IH. Qed.

Lemma substring_prefix (a b : string) :
  String.substring 0 (String.length a) (a ++ b) = a.
Proof.
  induction a as [|c a IH]; [by destruct b|].
  rewrite append_cons. simpl. by rewrite IH.
Qed.

Lemma find_char_append c (p s : string) :
  Num.find_char c p = None ->
  Num.find_char c (p ++ s)
  = (fun k => (String.length p + k)%nat) <$> Num.find_char c s.
Proof.
  induction p as [|c' p IH]; intros Hp.
  - rewrite append_nil_l. by destruct (Num.find_char c s).
  - rewrite append_cons. simpl in *. destruct (Ascii.eqb c' c); [done|].
    destruct (Num.find_char c p) eqn:Hq; [done|]. rewrite IH by done.
    by destruct (Num.find_char c s).
Qed.

Lemma find_char_append_None c (a b : string) :
  Num.find_char c a = None -> Num.find_char c b = None ->
  Num.find_char c (a ++ b) = None.
Proof. intros Ha Hb. rewrite find_char_append by done. by rewrite Hb. Qed.

Lemma find_bar_fixed_digits k : forall n, Num.find_char "|" (Num.fixed_digits k n) = None.
Proof.
  induction k as [|k IH]; intros n; [done|]. cbn [Num.fixed_digits].
  apply find_char_append_None; [apply IH|]. simpl.
  pose proof (is_digit_digit_char n) as Hd.
  destruct (Ascii.eqb_spec (Num.digit_char (n mod 10)) "|") as [Heq|]; [|done].
  rewrite Heq in Hd. discriminate Hd.
Qed.

Lemma find_bar_fill k : Num.find_char "|" (Num.fill k "0") = None.
Proof. induction k as [|k IH]; [done|]. simpl. by rewrite IH. Qed.

Lemma find_bar_setw_fill0 w i : Num.find_char "|" (Num.setw_fill0 w i) = None.
Proof.
  unfold Num.setw_fill0. apply find_char_append_None; [apply find_bar_fill|].
  unfold Num.int_text, Num.dec. destruct i; try apply find_bar_fixed_digits.
  simpl. by rewrite find_bar_fixed_digits.
Qed.

Lemma find_bar_formatGridId row col :
  Num.find_char "|" (TerrainStorageEngine.formatGridId row col) = None.
Proof.
  unfold TerrainStorageEngine.formatGridId.
  repeat (apply find_char_append_None; [try done; apply find_bar_setw_fill0|]).
  apply find_bar_setw_fill0.
Qed.

Lemma find_bar_fmt7 x : Num.find_char "|" (Num.fmt7 x) = None.
Proof.
  unfold Num.fmt7. apply find_char_append_None; [by destruct (Num.Qltb x 0)|].
  apply find_char_append_None; [apply find_bar_fixed_digits|].
  apply find_char_append_None; [done|apply find_bar_fixed_digits].
Qed.

Lemma substring_all (s : string) : String.substring 0 (String.length s) s = s.
Proof. induction s as [|c s IH]; [done|]. simpl. by rewrite IH. Qed.

Lemma substr_from_skip (p s : string) :
  TerrainStorageEngine.substr_from (String.length p) (p ++ s) = s.
Proof.
  unfold TerrainStorageEngine.substr_from. rewrite length_append.
  replace (String.length p + String.length s - String.length p)%nat
    with (String.length s) by lia.
  rewrite <- (Nat.add_0_r (String.length p)) at 1.
  rewrite substring_skip. apply substring_all.
Qed.

(** [parseKey] on a key of the form written by [generateKey]. *)
Lemma parseKey_generated (g a b : string) :
  Num.find_char "|" g = None -> Num.find_char "|" a = None ->
  TerrainStorageEngine.parseKey (g ++ "|" ++ a ++ "|" ++ b)
  = match Num.stod a, Num.stod b with
    | Some lon, Some lat => Some (lon, lat)
    | _, _ => None
    end.
Proof.
  intros Hg Ha. unfold TerrainStorageEngine.parseKey.
  rewrite (find_char_append _ g) by done.
  rewrite append_cons, append_nil_l. cbn [Num.find_char].
  change (Ascii.eqb "|" "|") with true. cbn [fmap option_fmap option_map].
  set (p := g ++ "|").
  assert (String.length p = String.length g + 0 + 1)%nat as Hp.
  { subst p. rewrite length_append. simpl. lia. }
  assert (g ++ String "|" (a ++ "|" ++ b) = p ++ a ++ "|" ++ b) as Hkey.
  { subst p. rewrite app_assoc_string. done. }
  rewrite Hkey, <- Hp.
  unfold TerrainStorageEngine.find_from.
  rewrite substr_from_skip, (find_char_append _ a) by done.
  rewrite append_cons, append_nil_l. cbn [Num.find_char].
  change (Ascii.eqb "|" "|") with true. cbn [fmap option_fmap option_map].
  replace (String.length p + (String.length a + 0) - (String.length g + 0) - 1)%nat
    with (String.length a) by lia.
  rewrite <- (Nat.add_0_r (String.length p)) at 1.
  rewrite substring_skip, substring_prefix.
  assert (p ++ a ++ String "|" b = (p ++ a ++ "|") ++ b) as Hkey2.
  { by rewrite !app_assoc_string. }
  assert (String.length (p ++ a ++ "|") = String.length p + (String.length a + 0) + 1)%nat as Hlen2.
  { rewrite !length_append. simpl. lia. }
  rewrite Hkey2, <- Hlen2, substr_from_skip.
  destruct (Num.stod a), (Num.stod b); done.
Qed.

End key_text.

Lemma length_fixed_digits k : forall n, String.length (Num.fixed_digits k n) = k.
Proof.
  induction k as [|k IH]; intros n; [done|].
  cbn [Num.fixed_digits]. rewrite length_append, IH. simpl. lia.
Qed.

(** C5: the key the engine writes for a point within the bounds is the cell
    id, ['|'], and the two coordinates with exactly seven fractional digits;
    in byte order it is strictly above the cell prefix and strictly below the
    cell sentinel, so the scan of the cell finds it. *)
Theorem key_inside_cell_range e lon lat value :
  TerrainStorageEngine.isWithinBounds e lon lat = true ->
  let cellId := TerrainStorageEngine.computeGridId e lon lat in
  let key := cellId ++ "|" ++ Num.fmt7 lon ++ "|" ++ Num.fmt7 lat in
  TerrainStorageEngine.db_manager_ (TerrainStorageEngine.put e lon lat value).2 !! key
    = Some value /\
  (exists whole fraction,
      Num.fmt7 lon = whole ++ "." ++ fraction /\ String.length fraction = 7%nat) /\
  (exists whole fraction,
      Num.fmt7 lat = whole ++ "." ++ fraction /\ String.length fraction = 7%nat) /\
  String.ltb (cellId ++ "|") key = true /\
  String.ltb key (cellId ++ "|~") = true /\
  LevelDBManager.in_range (TerrainStorageEngine.start_key cellId)
    (TerrainStorageEngine.end_key cellId) key = true.
Proof.
  intros Hb cellId key.
  destruct (generated_key_in_range lon lat cellId) as (H1 & H2 & H3).
  split; [|split; [|split]]; [| | |done].
  - unfold TerrainStorageEngine.put. rewrite Hb. cbn [negb].
    destruct (GridLRUCache.get _ _) as [item c]. cbn.
    unfold LevelDBManager.put. apply lookup_insert_eq.
  - unfold Num.fmt7. eexists _, _. split.
    + rewrite <- app_assoc_string. reflexivity.
    + apply length_fixed_digits.
  - unfold Num.fmt7. eexists _, _. split.
    + rewrite <- app_assoc_string. reflexivity.
    + apply length_fixed_digits.
Qed.

Lemma key_inside_cell_range_witness :
  TerrainStorageEngine.isWithinBounds beijing 116.405285 39.904989 = true /\
  String.ltb "G_090_040|" "G_090_040|116.4052850|39.9049890" = true /\
  String.ltb "G_090_040|116.4052850|39.9049890" "G_090_040|~" = true.
Proof.
  split; [reflexivity|].
  destruct (key_inside_cell_range beijing 116.405285 39.904989 "43.5")
    as (_ & _ & _ & H1 & H2 & _); [reflexivity|].
  split; [exact H1|exact H2].
Defined.

Section grid_index.
Implicit Types (e : TerrainStorageEngine.t).

Lemma Qltb_ge a b : Num.Qltb a b = false <-> (b <= a)%Q.
Proof. unfold Num.Qltb. rewrite negb_false_iff. apply Qle_bool_iff. Qed.

Lemma std_max_ge_l a b : (a <= Num.std_max a b)%Q.
Proof.
  unfold Num.std_max. destruct (Num.Qltb a b) eqn:H.
  - apply Qltb_lt in H. by apply Qlt_le_weak.
  - apply Qle_refl.
Qed.



Lemma cast_int_floor x : (0 <= x)%Q -> Num.cast_int x = Qfloor x.
Proof.
  intros Hx. unfold Num.cast_int, Qfloor. destruct x as [a d]. cbn.
  apply Z.quot_div_nonneg; [|done].
  unfold Qle in Hx. cbn in Hx. lia.
Qed.


Lemma cell_index_arg_nonneg lo hi g x :
  (0 < g)%Q -> (0 <= (Num.std_max lo (Num.std_min hi x) - lo) / g)%Q.
Proof.
  intros Hg. apply Qle_shift_div_l; [done|]. rewrite Qmult_0_l.
  apply (proj1 (Qle_minus_iff _ _)). apply std_max_ge_l.
Qed.

Lemma cell_index_floor lo hi g x :
  (0 < g)%Q ->
  cell_index lo hi g x = Qfloor ((Num.std_max lo (Num.std_min hi x) - lo) / g).
Proof. intros Hg. apply cast_int_floor. by apply cell_index_arg_nonneg. Qed.

Lemma cell_index_nonneg lo hi g x : (0 < g)%Q -> (0 <= cell_index lo hi g x)%Z.
Proof.
  intros Hg. rewrite cell_index_floor by done.
  rewrite <- (Qfloor_Z 0). apply Qfloor_resp_le. by apply cell_index_arg_nonneg.
Qed.


End grid_index.

Section range_query.
Implicit Types (e : TerrainStorageEngine.t).

Lemma lonToGridCol_cell_index e lon :
  TerrainStorageEngine.lonToGridCol e lon
  = cell_index (TerrainStorageEngine.min_lon_ e) (TerrainStorageEngine.max_lon_ e)
      (TerrainStorageEngine.grid_size_ e) lon.
Proof. reflexivity. Qed.

Lemma latToGridRow_cell_index e lat :
  TerrainStorageEngine.latToGridRow e lat
  = cell_index (TerrainStorageEngine.min_lat_ e) (TerrainStorageEngine.max_lat_ e)
      (TerrainStorageEngine.grid_size_ e) lat.
Proof. reflexivity. Qed.

Lemma in_rect_spec min_lon min_lat max_lon max_lat lon lat :
  TerrainStorageEngine.in_rect min_lon min_lat max_lon max_lat (lon, lat) = true
  <-> (min_lon <= lon /\ lon <= max_lon /\ min_lat <= lat /\ lat <= max_lat)%Q.
Proof.
  unfold TerrainStorageEngine.in_rect. cbn [fst snd].
  rewrite !andb_true_iff, !Qle_bool_iff. tauto.
Qed.




Lemma elem_of_report min_lon min_lat max_lon max_lat kvs lon lat v :
  (lon, lat, v) ∈ TerrainStorageEngine.report min_lon min_lat max_lon max_lat kvs
  <-> exists key,
        (key, v) ∈ kvs /\
        TerrainStorageEngine.parseKey key = Some (lon, lat) /\
        TerrainStorageEngine.in_rect min_lon min_lat max_lon max_lat (lon, lat) = true.
Proof.
  unfold TerrainStorageEngine.report. rewrite list_elem_of_omap. split.
  - intros ([key v'] & Hin & Hq). cbn [fst snd] in Hq.
    destruct (TerrainStorageEngine.parseKey key) as [[lon' lat']|] eqn:Hp; [|done].
    destruct (TerrainStorageEngine.in_rect _ _ _ _ _) eqn:Hr; [|done].
    cbn [fst snd] in Hq. simplify_eq. eauto.
  - intros (key & Hin & Hp & Hr). exists (key, v). split; [done|].
    cbn [fst snd]. by rewrite Hp, Hr.
Qed.





End range_query.

(** ** Bounds of the cell index *)

Section cell_bounds.

Lemma clamp_in_bounds lo hi x :
  (lo <= x)%Q -> (x <= hi)%Q -> Num.std_max lo (Num.std_min hi x) == x.
Proof.
  intros H1 H2. unfold Num.std_max, Num.std_min.
  destruct (Num.Qltb x hi) eqn:Hx; rewrite ?Qltb_lt, ?Qltb_ge in Hx.
  - destruct (Num.Qltb lo x) eqn:Hl; rewrite ?Qltb_lt, ?Qltb_ge in Hl; [reflexivity|].
    by apply Qle_antisym.
  - assert (hi == x) as Hhx by (by apply Qle_antisym).
    destruct (Num.Qltb lo hi) eqn:Hl; rewrite ?Qltb_lt, ?Qltb_ge in Hl; [done|].
    apply Qle_antisym; [done|]. by rewrite <- Hhx.
Qed.

Lemma clamp_le_hi lo hi x :
  (lo <= hi)%Q -> (Num.std_max lo (Num.std_min hi x) <= hi)%Q.
Proof.
  intros Hb. unfold Num.std_max, Num.std_min.
  destruct (Num.Qltb x hi) eqn:Hx; rewrite ?Qltb_lt, ?Qltb_ge in Hx.
  - destruct (Num.Qltb lo x); [by apply Qlt_le_weak|done].
  - destruct (Num.Qltb lo hi); [apply Qle_refl|done].
Qed.

Lemma clamp_lt_hi lo hi x :
  (lo < hi)%Q -> (x < hi)%Q -> (Num.std_max lo (Num.std_min hi x) < hi)%Q.
Proof.
  intros Hb Hx. unfold Num.std_max, Num.std_min.
  apply Qltb_lt in Hx as Hx'. rewrite Hx'. by destruct (Num.Qltb lo x).
Qed.

(** Inside the bounds the index of a coordinate is the floor of its offset
    in cells. *)
Lemma cell_index_in_bounds lo hi g x :
  (0 < g)%Q -> (lo <= x)%Q -> (x <= hi)%Q ->
  cell_index lo hi g x = Qfloor ((x - lo) / g).
Proof.
  intros Hg H1 H2. rewrite cell_index_floor by done.
  apply Qfloor_comp. by rewrite clamp_in_bounds.
Qed.

Lemma Qdiv_le_compat_r a b g : (0 < g)%Q -> (a <= b)%Q -> (a / g <= b / g)%Q.
Proof.
  intros Hg Hab. apply Qmult_le_compat_r; [done|].
  by apply Qlt_le_weak, Qinv_lt_0_compat.
Qed.

(** The index never exceeds the number of cells ... *)
Lemma cell_index_le_count lo hi g x :
  (0 < g)%Q -> (lo <= hi)%Q ->
  (cell_index lo hi g x <= Qceiling ((hi - lo) / g))%Z.
Proof.
  intros Hg Hb. rewrite cell_index_floor by done.
  transitivity (Qceiling ((Num.std_max lo (Num.std_min hi x) - lo) / g)).
  - rewrite Zle_Qle. apply Qle_floor_ceiling.
  - apply Qceiling_resp_le, Qdiv_le_compat_r; [done|].
    apply Qplus_le_compat; [by apply clamp_le_hi|apply Qle_refl].
Qed.

(** ... and stays below it for a coordinate below the upper bound. *)
Lemma cell_index_lt_count lo hi g x :
  (0 < g)%Q -> (lo < hi)%Q -> (x < hi)%Q ->
  (cell_index lo hi g x < Qceiling ((hi - lo) / g))%Z.
Proof.
  intros Hg Hb Hx. rewrite cell_index_floor by done.
  rewrite Zlt_Qlt.
  eapply Qle_lt_trans; [apply Qfloor_le|].
  eapply Qlt_le_trans; [|apply Qle_ceiling].
  apply Qmult_lt_compat_r; [by apply Qinv_lt_0_compat|].
  apply Qplus_lt_le_compat; [by apply clamp_lt_hi|apply Qle_refl].
Qed.

(** For an engine built by the constructor from bounds in order, a point
    within the bounds and below the upper bounds lies in the cell of the
    floor formula, whose column and row are inside the grid. *)
Lemma computeGridId_below_upper_bound
    db min_lon min_lat max_lon max_lat grid_size cap e lon lat :
  TerrainStorageEngine.new db min_lon min_lat max_lon max_lat grid_size cap = Ok e ->
  (min_lon <= lon)%Q -> (lon < max_lon)%Q ->
  (min_lat <= lat)%Q -> (lat < max_lat)%Q ->
  let col := Qfloor ((lon - min_lon) / grid_size) in
  let row := Qfloor ((lat - min_lat) / grid_size) in
  TerrainStorageEngine.computeGridId e lon lat
    = TerrainStorageEngine.formatGridId row col /\
  (0 <= col < TerrainStorageEngine.grid_cols_ e)%Z /\
  (0 <= row < TerrainStorageEngine.grid_rows_ e)%Z.
Proof.
  intros Hnew Hlon1 Hlon2 Hlat1 Hlat2 col row.
  unfold TerrainStorageEngine.new in Hnew.
  destruct (Qle_bool grid_size 0) eqn:Hg; [discriminate|].
  assert (0 < grid_size)%Q as Hpos.
  { apply Qnot_le_lt. rewrite <- Qle_bool_iff. congruence. }
  injection Hnew as <-.
  unfold TerrainStorageEngine.computeGridId.
  rewrite lonToGridCol_cell_index, latToGridRow_cell_index.
  cbn [TerrainStorageEngine.min_lon_ TerrainStorageEngine.max_lon_
       TerrainStorageEngine.min_lat_ TerrainStorageEngine.max_lat_
       TerrainStorageEngine.grid_size_ TerrainStorageEngine.grid_cols_
       TerrainStorageEngine.grid_rows_].
  pose proof (cell_index_in_bounds min_lon max_lon grid_size lon Hpos Hlon1
                (Qlt_le_weak _ _ Hlon2)) as Hc.
  pose proof (cell_index_in_bounds min_lat max_lat grid_size lat Hpos Hlat1
                (Qlt_le_weak _ _ Hlat2)) as Hr.
  pose proof (cell_index_nonneg min_lon max_lon grid_size lon Hpos).
  pose proof (cell_index_nonneg min_lat max_lat grid_size lat Hpos).
  pose proof (cell_index_lt_count min_lon max_lon grid_size lon Hpos
                (Qle_lt_trans _ _ _ Hlon1 Hlon2) Hlon2).
  pose proof (cell_index_lt_count min_lat max_lat grid_size lat Hpos
                (Qle_lt_trans _ _ _ Hlat1 Hlat2) Hlat2).
  subst col row. rewrite <- Hc, <- Hr. repeat split; try done; lia.
Qed.

End cell_bounds.

(** ** Resident cells mirror the database *)

Section coherence.
Implicit Types (e : TerrainStorageEngine.t).

Lemma coherent_empty_cache e :
  GridLRUCache.cache_map_ (TerrainStorageEngine.cache_ e) = ∅ -> coherent e.
Proof. intros He id item. rewrite He, lookup_empty. done. Qed.

Lemma coherent_new db min_lon min_lat max_lon max_lat grid_size cap e :
  TerrainStorageEngine.new db min_lon min_lat max_lon max_lat grid_size cap = Ok e ->
  coherent e.
Proof.
  unfold TerrainStorageEngine.new. destruct (Qle_bool grid_size 0); [done|].
  intros [= <-]. by apply coherent_empty_cache.
Qed.

Lemma rangeQuery_coherent e min_lon min_lat max_lon max_lat :
  coherent e ->
  coherent (TerrainStorageEngine.rangeQuery e min_lon min_lat max_lon max_lat).2.
Proof.
  intros Hco. rewrite rangeQuery_query_cells.
  pose proof (query_cells_spec min_lon min_lat max_lon max_lat
                (TerrainStorageEngine.covered_cells e min_lon min_lat max_lon max_lat) e [])
    as (_ & H & _).
  by destruct (H Hco).
Qed.

Lemma preloadGrid_coherent e grid_id :
  coherent e -> coherent (TerrainStorageEngine.preloadGrid e grid_id).
Proof.
  intros Hco. unfold TerrainStorageEngine.preloadGrid.
  destruct (loadGridToCache_spec e grid_id) as (item & -> & Hdata).
  by apply coherent_put_cache.
Qed.

Lemma clearCache_coherent e : coherent (TerrainStorageEngine.clearCache e).
Proof. by apply coherent_empty_cache. Qed.

Lemma evict_coherent e grid_id :
  coherent e -> coherent (TerrainStorageEngine.evictGridFromCache e grid_id).
Proof.
  intros Hco id item. unfold TerrainStorageEngine.evictGridFromCache, GridLRUCache.remove.
  cbn. destruct (GridLRUCache.cache_map_ (TerrainStorageEngine.cache_ e) !! grid_id) eqn:Hg.
  - cbn. intros [_ H]%lookup_delete_Some. by apply Hco.
  - apply Hco.
Qed.

(** Writing a value through a resident item keeps the cell a mirror of the
    database once the database holds the value under the same key. *)
Lemma cell_scan_insert_in db grid_id key v :
  LevelDBManager.in_range (TerrainStorageEngine.start_key grid_id)
    (TerrainStorageEngine.end_key grid_id) key = true ->
  cell_scan (<[key := v]> db) grid_id = <[key := v]> (cell_scan db grid_id).
Proof. intros Hr. unfold cell_scan. by rewrite map_filter_insert_True. Qed.

Lemma cell_scan_insert_out db grid_id key v :
  LevelDBManager.in_range (TerrainStorageEngine.start_key grid_id)
    (TerrainStorageEngine.end_key grid_id) key = false ->
  cell_scan (<[key := v]> db) grid_id = cell_scan db grid_id.
Proof.
  intros Hr. unfold cell_scan.
  rewrite map_filter_insert_False by (cbn; congruence).
  rewrite map_filter_delete. apply delete_id.
  apply map_lookup_filter_None. right. intros x _. cbn. congruence.
Qed.

Lemma get_coherent e lon lat :
  coherent e -> coherent (TerrainStorageEngine.get e lon lat).2.
Proof.
  intros Hco. unfold TerrainStorageEngine.get.
  destruct (negb (TerrainStorageEngine.isWithinBounds e lon lat)); [done|].
  set (gid := TerrainStorageEngine.computeGridId e lon lat).
  set (key := TerrainStorageEngine.generateKey lon lat gid).
  pose proof (cache_get_lookup (TerrainStorageEngine.cache_ e) gid) as [H1 H2].
  pose proof (coherent_get_cache e gid Hco) as Hco1.
  destruct (GridLRUCache.get (TerrainStorageEngine.cache_ e) gid) as [cached c].
  cbn [fst snd] in *.
  destruct (cached ≫= (fun it => data it !! key)) as [value|] eqn:Hhit; [done|].
  cbn [TerrainStorageEngine.db_manager_ TerrainStorageEngine.with_cache].
  unfold LevelDBManager.get.
  destruct (TerrainStorageEngine.db_manager_ e !! key) as [value|] eqn:Hdb.
  - destruct cached as [item|].
    + (* resident, the key is missing in the item: it is written *)
      cbn [snd]. intros id it. cbn.
      rewrite lookup_alter. case_decide as Hid; [|apply Hco1].
      subst id. rewrite H2, <- H1. cbn. intros [= <-]. cbn.
      rewrite (Hco gid item) by (by rewrite <- H1).
      apply insert_id, map_lookup_filter_Some. split; [done|].
      cbn. apply generated_key_in_range.
    + cbn [snd].
      destruct (loadGridToCache_spec (TerrainStorageEngine.with_cache e c) gid)
        as (item & -> & Hdata).
      cbn [snd]. by apply (coherent_put_cache (TerrainStorageEngine.with_cache e c)).
  - destruct cached as [item|]; [done|]. cbn [snd].
    destruct (loadGridToCache_spec (TerrainStorageEngine.with_cache e c) gid)
      as (item & -> & Hdata).
    cbn [snd]. by apply (coherent_put_cache (TerrainStorageEngine.with_cache e c)).
Qed.



Lemma between_prefix (p : string) : forall k,
  String.leb (p ++ "|") k = true -> String.ltb k (p ++ "|~") = true ->
  exists rest, k = p ++ "|" ++ rest.
Proof.
  induction p as [|a p IH]; intros k Hle Hlt.
  - rewrite !append_nil_l in *. destruct k as [|c k]; [done|].
    unfold String.leb, String.ltb in *. cbn [String.compare] in *.
    rewrite (Ascii.compare_antisym c) in Hlt.
    destruct (Ascii.compare "|" c) eqn:Hc; cbn in *; try done.
    apply Ascii.compare_eq_iff in Hc as <-. by exists k.
  - rewrite !append_cons in *. destruct k as [|c k]; [done|].
    unfold String.leb, String.ltb in *. cbn [String.compare] in *.
    rewrite (Ascii.compare_antisym c) in Hlt.
    destruct (Ascii.compare a c) eqn:Hc; cbn in *; try done.
    apply Ascii.compare_eq_iff in Hc as <-.
    destruct (IH k Hle Hlt) as [rest ->]. by exists rest.
Qed.

Lemma bar_prefix_inj (a : string) : forall (b r1 r2 : string),
  Num.find_char "|" a = None -> Num.find_char "|" b = None ->
  a ++ "|" ++ r1 = b ++ "|" ++ r2 -> a = b.
Proof.
  induction a as [|c a IH]; intros b r1 r2 Ha Hb Heq.
  - destruct b as [|d b]; [done|].
    rewrite append_nil_l, !append_cons in Heq. cbn in Heq. injection Heq as <- _.
    cbn in Hb. done.
  - destruct b as [|d b].
    + rewrite append_nil_l, !append_cons in Heq. cbn in Heq. injection Heq as -> _.
      cbn in Ha. done.
    + rewrite !append_cons in Heq. injection Heq as <- Heq.
      cbn in Ha, Hb. destruct (Ascii.eqb c "|"); [done|].
      destruct (Num.find_char "|" a) eqn:Ha'; [done|].
      destruct (Num.find_char "|" b) eqn:Hb'; [done|].
      f_equal. by eapply IH.
Qed.

(** A key written for one cell lies outside the key range of every other
    cell whose id holds no ['|']. *)
Lemma key_outside_other_cell lon lat grid_id id :
  Num.find_char "|" grid_id = None -> Num.find_char "|" id = None ->
  id ≠ grid_id ->
  LevelDBManager.in_range (TerrainStorageEngine.start_key id)
    (TerrainStorageEngine.end_key id)
    (TerrainStorageEngine.generateKey lon lat grid_id) = false.
Proof.
  intros Hg Hid Hne. apply not_true_iff_false. intros Hr.
  unfold LevelDBManager.in_range in Hr. apply andb_prop in Hr as [Hle Hlt].
  unfold TerrainStorageEngine.end_key in Hlt.
  assert (String.eqb (id ++ "|~") "" = false) as Hnonempty.
  { destruct id; done. }
  rewrite Hnonempty in Hlt. cbn [orb] in Hlt.
  destruct (between_prefix id _ Hle Hlt) as [rest Hrest].
  unfold TerrainStorageEngine.generateKey in Hrest.
  apply Hne. symmetry. by eapply bar_prefix_inj.
Qed.

Lemma put_coherent e lon lat value :
  coherent e ->
  (forall id, is_Some (GridLRUCache.cache_map_ (TerrainStorageEngine.cache_ e) !! id) ->
              Num.find_char "|" id = None) ->
  coherent (TerrainStorageEngine.put e lon lat value).2.
Proof.
  intros Hco Hids. unfold TerrainStorageEngine.put.
  destruct (negb (TerrainStorageEngine.isWithinBounds e lon lat)); [done|].
  set (gid := TerrainStorageEngine.computeGridId e lon lat).
  set (key := TerrainStorageEngine.generateKey lon lat gid).
  pose proof (cache_get_lookup (TerrainStorageEngine.cache_ e) gid) as [H1 H2].
  destruct (GridLRUCache.get (TerrainStorageEngine.cache_ e) gid) as [cached c].
  cbn [fst snd] in *.
  assert (forall id it,
            GridLRUCache.cache_map_ c !! id = Some it -> id ≠ gid ->
            data it = cell_scan (LevelDBManager.put (TerrainStorageEngine.db_manager_ e) key value) id)
    as Hother.
  { intros id it Hit Hne. rewrite H2 in Hit.
    unfold LevelDBManager.put. rewrite cell_scan_insert_out; [by apply Hco|].
    apply key_outside_other_cell; [apply find_bar_formatGridId| |done].
    apply Hids. eauto. }
  intros id it. cbn.
  destruct cached as [item|]; cbn.
  - rewrite lookup_alter. case_decide as Hid; [|intros ?; by apply Hother].
    subst id. rewrite H2, <- H1. cbn. intros [= <-]. cbn.
    unfold LevelDBManager.put. rewrite cell_scan_insert_in by apply generated_key_in_range.
    f_equal. apply Hco. by rewrite <- H1.
  - intros Hit. destruct (decide (id = gid)) as [->|Hne]; [|by apply Hother].
    rewrite H2 in Hit. congruence.
Qed.

End coherence.



(** ** Cells visited by a range query *)

Section materialise.
Implicit Types (e : TerrainStorageEngine.t) (l : list string).





End materialise.


(** ** The worker pool *)

Module PoolFacts.
Import AdvancedThreadPool.
Import PoolExamples.

Section pool.
Implicit Types (p : t) (q : list TaskItem) (item : TaskItem).

Lemma top_spec q item :
  top q = Some item ->
  item ∈ q /\
  forall other, other ∈ q ->
    (priority_value (priority item) <= priority_value (priority other))%Z.
Proof.
  unfold top. intros [Hin Htop]%find_some.
  split; [by apply list_elem_of_In|].
  intros other Hother%list_elem_of_In.
  unfold is_top in Htop. rewrite forallb_forall in Htop.
  specialize (Htop _ Hother). unfold TaskCompare in Htop.
  apply negb_true_iff, Z.ltb_ge in Htop. done.
Qed.

Lemma priority_value_range pr : (0 <= priority_value pr <= 2)%Z.
Proof. destruct pr; cbn; lia. Qed.

Lemma not_top_higher q x :
  is_top q x = false ->
  exists y, y ∈ q /\ (priority_value (priority y) < priority_value (priority x))%Z.
Proof.
  unfold is_top. induction q as [|z q IH]; [done|]. cbn [forallb].
  intros [Hz|Hq]%andb_false_iff.
  - exists z. split; [left|]. unfold TaskCompare in Hz.
    by apply negb_false_iff, Z.ltb_lt in Hz.
  - destruct (IH Hq) as (y & Hy & Hlt). exists y. split; [by right|done].
Qed.

(** A queue that is not empty has a top. *)
Lemma top_is_Some q : q ≠ [] -> is_Some (top q).
Proof.
  intros Hq. destruct (top q) as [item|] eqn:Htop; [eauto|]. exfalso.
  unfold top in Htop.
  assert (forall x, x ∈ q ->
            exists y, y ∈ q /\
              (priority_value (priority y) < priority_value (priority x))%Z) as Hlower.
  { intros x Hx%list_elem_of_In. apply not_top_higher.
    by apply (find_none _ _ Htop). }
  destruct q as [|x0 q]; [done|].
  destruct (Hlower x0) as (y1 & Hy1 & H1); [left|].
  destruct (Hlower y1 Hy1) as (y2 & Hy2 & H2).
  destruct (Hlower y2 Hy2) as (y3 & Hy3 & H3).
  pose proof (priority_value_range (priority x0)).
  pose proof (priority_value_range (priority y3)). lia.
Qed.

Lemma elem_of_remove_first x item q :
  x ∈ q -> x ≠ item -> x ∈ remove_first item q.
Proof.
  induction q as [|y q IH]; [done|]. intros Hin Hne. simpl.
  destruct (decide (item = y)) as [->|Hy].
  - apply elem_of_cons in Hin as [->|?]; done.
  - apply elem_of_cons in Hin as [->|?]; [left|right; auto].
Qed.

Lemma iter_add_worker_started n p :
  started (Nat.iter n add_worker p) = started p /\
  task_queue_ (Nat.iter n add_worker p) = task_queue_ p /\
  running_ (Nat.iter n add_worker p) = running_ p /\
  completed (Nat.iter n add_worker p) = completed p.
Proof. induction n as [|n IH]; [done|]. simpl. done. Qed.

(** A step either leaves the log of started tasks alone and removes nothing
    from the queue, or hands the top of the queue to a worker. *)
Lemma step_started p ev :
  (started (step p ev) = started p /\
   forall x, x ∈ task_queue_ p -> x ∈ task_queue_ (step p ev)) \/
  (exists item,
      top (task_queue_ p) = Some item /\
      started (step p ev) = (started p ++ [item])%list /\
      task_queue_ (step p ev) = remove_first item (task_queue_ p)).
Proof.
  destruct ev as [item|item| | |i|i| |]; cbn [step].
  - left. unfold submit. destruct (negb (running_ p)); [done|].
    destruct (_ <=? _)%nat; [done|]. cbn. split; [done|].
    intros x Hx. unfold push. apply elem_of_app. auto.
  - left. unfold submit_after_wait. destruct (_ || _); [|done]. cbn. split; [done|].
    intros x Hx. unfold push. apply elem_of_app. auto.
  - left. destruct (should_expand p); [|done]. unfold expand_workers.
    destruct (negb (running_ p)); [done|].
    destruct (iter_add_worker_started
                (Nat.min (length (task_queue_ p))
                   (max_threads (config_ p) - length (workers_ p))) p)
      as (-> & -> & _). done.
  - left. unfold cleanup_expired_workers. by destruct (expired_workers_ p).
  - unfold worker_step. destruct (threads p !! i) as [[| | |item|]|].
    1,3,4,5,6: by left.
    destruct (task_queue_ p) as [|x q] eqn:Hq.
    { left. split; [done|]. intros y Hy. by apply elem_of_nil in Hy. }
    destruct (top (x :: q)) as [item|] eqn:Htop; [|left; by rewrite Hq].
    right. exists item. cbn. unfold pop. by rewrite Htop.
  - left. unfold worker_timeout.
    destruct (mode (config_ p)); [done|].
    destruct (threads p !! i) as [[| | |item|]|]; try done.
    by destruct (_ <? _)%nat.
  - by left.
  - by left.
Qed.

Lemma run_started_extends evs : forall p,
  exists suffix, started (run p evs) = (started p ++ suffix)%list.
Proof.
  induction evs as [|ev evs IH]; intros p.
  - exists []. by rewrite app_nil_r.
  - cbn. destruct (IH (step p ev)) as [suffix Hs]. fold (run (step p ev) evs).
    rewrite Hs.
    destruct (step_started p ev) as [[-> _]|(item & _ & -> & _)]; [eauto|].
    exists (item :: suffix). by rewrite <- app_assoc.
Qed.

Lemma high_before_low evs A B : forall p pre post,
  A ∈ task_queue_ p -> priority A = HIGH -> priority B = LOW ->
  started (run p evs) = (started p ++ pre ++ B :: post)%list ->
  A ∈ pre.
Proof.
  induction evs as [|ev evs IH]; intros p pre post HA HpA HpB Hrun.
  - cbn in Hrun. apply (f_equal length) in Hrun.
    rewrite !length_app in Hrun. simpl in Hrun. lia.
  - cbn in Hrun. fold (run (step p ev) evs) in Hrun.
    destruct (step_started p ev) as [[Hs Hq]|(item & Htop & Hs & Hq)].
    + eapply (IH (step p ev)); eauto. by rewrite Hs.
    + destruct (run_started_extends evs (step p ev)) as [suffix Hsuf].
      rewrite Hsuf, Hs, <- app_assoc in Hrun.
      apply app_inv_head in Hrun. cbn in Hrun.
      destruct (top_spec _ _ Htop) as [_ Hmin].
      destruct pre as [|x pre].
      * cbn in Hrun. injection Hrun as -> _.
        specialize (Hmin A HA). rewrite HpA, HpB in Hmin. cbn in Hmin. lia.
      * cbn in Hrun. injection Hrun as <- Hrest.
        destruct (decide (A = item)) as [->|Hne]; [left|].
        right. eapply (IH (step p ev) pre post); eauto.
        -- rewrite Hq. by apply elem_of_remove_first.
        -- by rewrite Hsuf, Hrest.
Qed.

(** C8: a step that starts a task starts the top of the queue, whose
    priority value is the least of the queue (HIGH before NORMAL before LOW);
    a worker at the test of its wait takes a task whenever the queue is not
    empty; and in every run, a HIGH task that is in the queue is started
    before any LOW task is. *)
Theorem dequeue_respects_priority p :
  (forall ev item,
      started (step p ev) = (started p ++ [item])%list ->
      top (task_queue_ p) = Some item /\
      item ∈ task_queue_ p /\
      task_queue_ (step p ev) = remove_first item (task_queue_ p) /\
      forall other, other ∈ task_queue_ p ->
        (priority_value (priority item) <= priority_value (priority other))%Z) /\
  (forall i, threads p !! i = Some Locked -> task_queue_ p ≠ [] ->
      exists item, started (step p (Worker i)) = (started p ++ [item])%list /\
                   threads (step p (Worker i)) !! i = Some (Executing item)) /\
  (forall evs A B pre post,
      A ∈ task_queue_ p -> priority A = HIGH -> priority B = LOW ->
      started (run p evs) = (started p ++ pre ++ B :: post)%list ->
      A ∈ pre).
Proof.
  split; [|split].
  - intros ev item Hs.
    destruct (step_started p ev) as [[Hs' _]|(item' & Htop & Hs' & Hq)].
    + rewrite Hs' in Hs. apply (f_equal length) in Hs.
      rewrite length_app in Hs. simpl in Hs. lia.
    + rewrite Hs' in Hs. apply app_inv_head in Hs. injection Hs as ->.
      destruct (top_spec _ _ Htop). done.
  - intros i Hi Hq. cbn [step]. unfold worker_step. rewrite Hi.
    destruct (task_queue_ p) as [|x q] eqn:Hqq; [done|].
    destruct (top (x :: q)) as [item|] eqn:Htop.
    + exists item. cbn. by rewrite lookup_insert_eq.
    + destruct (top_is_Some (x :: q)) as [item Hitem]; [done|]. congruence.
  - intros evs A B pre post. apply high_before_low.
Qed.

Lemma dequeue_respects_priority_witness :
  high8 ∈ task_queue_ busy_with_queue /\
  started (run busy_with_queue
             [Worker 0; Worker 0; Worker 0; Worker 0; Worker 0; Worker 0; Worker 0;
              Worker 0; Worker 0])
  = (started busy_with_queue ++ [high8; normal9] ++ low7 :: [])%list /\
  high8 ∈ [high8; normal9].
Proof.
  assert (high8 ∈ task_queue_ busy_with_queue) as Hin by repeat constructor.
  split; [exact Hin|]. split; [reflexivity|].
  destruct (dequeue_respects_priority busy_with_queue) as (_ & _ & H).
  apply (H [Worker 0; Worker 0; Worker 0; Worker 0; Worker 0; Worker 0; Worker 0;
              Worker 0; Worker 0]
           high8 low7 [high8; normal9] []); [exact Hin|reflexivity..].
Defined.

(** ** Shutdown *)

Lemma size_delete_Some (m : gmap nat worker_pc) i pc :
  m !! i = Some pc -> size m = S (size (delete i m)).
Proof.
  intros Hi. rewrite <- (insert_delete_id m i pc) at 1 by done.
  rewrite map_size_insert_None; [done|]. apply lookup_delete_eq.
Qed.


Lemma inside_insert (m : gmap nat worker_pc) i pc pc' :
  m !! i = Some pc ->
  size (filter (fun kv : nat * worker_pc => in_body kv.2 = true) (<[i := pc']> m))
  + body_count pc
  = size (filter (fun kv : nat * worker_pc => in_body kv.2 = true) m)
    + body_count pc'.
Proof.
  intros Hi. unfold body_count.
  set (P := fun kv : nat * worker_pc => in_body kv.2 = true).
  destruct (in_body pc') eqn:Hpc'.
  - rewrite map_filter_insert_True by done.
    destruct (in_body pc) eqn:Hpc.
    + rewrite map_size_insert_Some; [done|].
      exists pc. by apply map_lookup_filter_Some.
    + rewrite map_size_insert_None; [lia|].
      apply map_lookup_filter_None. right. intros x Hx. simplify_eq. unfold P. cbn. congruence.
  - rewrite map_filter_insert_False by (unfold P; cbn; congruence).
    rewrite map_filter_delete.
    destruct (in_body pc) eqn:Hpc.
    + rewrite (size_delete_Some (filter P m) i pc); [lia|].
      by apply map_lookup_filter_Some.
    + rewrite map_size_delete_None; [done|].
      apply map_lookup_filter_None. right. intros x Hx. simplify_eq. unfold P. cbn. congruence.
Qed.

Lemma inside_set_thread p i pc pc' :
  threads p !! i = Some pc ->
  inside (set_thread p i pc') + body_count pc = inside p + body_count pc'.
Proof. intros Hi. unfold inside. cbn. by apply inside_insert. Qed.

(** Once [running_] is false it stays false, and a step never raises the
    number of workers inside the loop body plus the number of tasks
    started. *)
Lemma step_after_flip p ev :
  running_ p = false ->
  running_ (step p ev) = false /\
  inside (step p ev) + length (started (step p ev))
  <= inside p + length (started p).
Proof.
  intros Hr. destruct ev as [item|item| | |i|i| |]; cbn [step].
  - unfold submit. rewrite Hr. cbn. split; [done|lia].
  - unfold submit_after_wait. rewrite Hr, orb_true_r. cbn. split; [done|]. 
    unfold inside. cbn. lia.
  - unfold should_expand. rewrite Hr. destruct (mode (config_ p)); cbn; split; (done || lia).
  - unfold cleanup_expired_workers. destruct (expired_workers_ p); cbn; split; (done || unfold inside; cbn; lia).
  - unfold worker_step. destruct (threads p !! i) as [pc|] eqn:Hi; [|split; [done|lia]].
    destruct pc as [| | |item|].
    + rewrite Hr. split; [done|].
      pose proof (inside_set_thread p i _ Exited Hi) as H. cbn in *. lia.
    + destruct (task_queue_ p) as [|x q] eqn:Hq.
      * rewrite Hr. split; [done|].
        pose proof (inside_set_thread p i _ Exited Hi) as H. cbn in *. lia.
      * destruct (top (x :: q)) as [item|]; [|split; [done|lia]].
        cbn. split; [done|]. rewrite length_app. cbn.
        pose proof (inside_insert (threads p) i _ (Executing item) Hi) as H.
        unfold inside. cbn in *. lia.
    + split; [done|].
      pose proof (inside_set_thread p i _ Locked Hi) as H. cbn in *. lia.
    + cbn. split; [done|].
      pose proof (inside_insert (threads p) i _ AtLoopTest Hi) as H.
      unfold inside. cbn in *. lia.
    + split; [done|lia].
  - unfold worker_timeout. destruct (mode (config_ p)); [split; [done|lia]|].
    destruct (threads p !! i) as [pc|] eqn:Hi; [|split; [done|lia]].
    destruct pc as [| | |item|]; try (split; [done|lia]).
    destruct (_ <? _)%nat.
    + cbn. split; [done|].
      pose proof (inside_insert (threads p) i _ Exited Hi) as H.
      unfold inside. cbn in *. lia.
    + split; [done|].
      pose proof (inside_set_thread p i _ Locked Hi) as H. cbn in *. lia.
  - cbn. split; [done|]. unfold inside. cbn. lia.
  - cbn. split; [done|]. unfold inside. cbn. lia.
Qed.

Lemma run_after_flip evs : forall p,
  running_ p = false ->
  running_ (run p evs) = false /\
  inside (run p evs) + length (started (run p evs))
  <= inside p + length (started p).
Proof.
  induction evs as [|ev evs IH]; intros p Hr; [cbn; split; [done|lia]|].
  cbn. fold (run (step p ev) evs).
  destruct (step_after_flip p ev Hr) as [Hr' Hle].
  destruct (IH _ Hr') as [Hr'' Hle']. split; [done|lia].
Qed.

Lemma run_queue_kept evs : forall p,
  started (run p evs) = started p ->
  forall x, x ∈ task_queue_ p -> x ∈ task_queue_ (run p evs).
Proof.
  induction evs as [|ev evs IH]; intros p Hs x Hx; [done|].
  cbn in *. fold (run (step p ev) evs) in *.
  destruct (run_started_extends evs (step p ev)) as [suffix Hsuf].
  destruct (step_started p ev) as [[Hs' Hq]|(item & _ & Hs' & _)].
  - apply IH; [congruence|auto].
  - rewrite Hsuf, Hs', <- app_assoc in Hs.
    apply (f_equal length) in Hs. rewrite !length_app in Hs. cbn in Hs. lia.
Qed.

Lemma held_by_worker_false p item :
  held_by_worker p item = false
  <-> forall i, threads p !! i ≠ Some (Executing item).
Proof.
  unfold held_by_worker. split.
  - intros Hex i Hi.
    assert (existsb (fun kv : nat * worker_pc =>
                       match kv.2 with
                       | Executing it => bool_decide (it = item)
                       | _ => false
                       end) (map_to_list (threads p)) = true) as Habs; [|congruence].
    apply existsb_exists. exists (i, Executing item). split.
    + apply list_elem_of_In. by apply elem_of_map_to_list.
    + cbn. by apply bool_decide_eq_true.
  - intros Hno. apply not_true_iff_false. intros Hex.
    apply existsb_exists in Hex as ([i pc] & Hin & Hpc).
    apply list_elem_of_In, elem_of_map_to_list in Hin. cbn in Hpc.
    destruct pc as [| | |it|]; try done.
    apply bool_decide_eq_true in Hpc as ->. by apply (Hno i).
Qed.

(** After [running_] has become false and with no worker inside the loop
    body: a step starts no task, and a task that is neither completed nor
    held by a worker stays so. *)
Lemma step_quiescent p ev item :
  running_ p = false -> inside p = 0 ->
  (item ∉ completed p) -> held_by_worker p item = false ->
  inside (step p ev) = 0 /\
  (item ∉ completed (step p ev)) /\
  held_by_worker (step p ev) item = false.
Proof.
  intros Hr Hin Hc Hh.
  destruct (step_after_flip p ev Hr) as [_ Hle].
  destruct (step_started p ev) as [[Hs _]|(it & _ & Hs & _)].
  2:{ rewrite Hs, length_app in Hle. cbn in Hle. lia. }
  split; [rewrite Hs in Hle; lia|].
  rewrite held_by_worker_false in Hh. rewrite held_by_worker_false.
  destruct ev as [it|it| | |i|i| |]; cbn [step] in *.
  - unfold submit. destruct (negb (running_ p)); [done|]. by destruct (_ <=? _)%nat.
  - unfold submit_after_wait. by destruct (_ || _).
  - unfold should_expand. rewrite Hr. by destruct (mode (config_ p)).
  - unfold cleanup_expired_workers. by destruct (expired_workers_ p).
  - unfold worker_step in *. destruct (threads p !! i) as [pc|] eqn:Hi; [|done].
    destruct pc as [| | |it|].
    + split; [done|]. intros j. cbn. rewrite Hr.
      destruct (decide (i = j)) as [->|]; [by rewrite lookup_insert_eq|].
      by rewrite lookup_insert_ne.
    + destruct (task_queue_ p) as [|x q] eqn:Hq.
      * split; [done|]. intros j. cbn. rewrite Hr.
        destruct (decide (i = j)) as [->|]; [by rewrite lookup_insert_eq|].
        by rewrite lookup_insert_ne.
      * destruct (top (x :: q)) as [it|]; [|done].
        cbn in Hs. apply (f_equal length) in Hs. rewrite length_app in Hs.
        cbn in Hs. lia.
    + split; [done|]. intros j. cbn.
      destruct (decide (i = j)) as [->|]; [by rewrite lookup_insert_eq|].
      by rewrite lookup_insert_ne.
    + cbn. split.
      * intros [Hold| ->%list_elem_of_singleton]%elem_of_app; [done|].
        by apply (Hh i).
      * intros j. destruct (decide (i = j)) as [->|]; [by rewrite lookup_insert_eq|].
        by rewrite lookup_insert_ne.
    + done.
  - unfold worker_timeout in *. destruct (mode (config_ p)); [done|].
    destruct (threads p !! i) as [pc|] eqn:Hi; [|done].
    destruct pc as [| | |it|]; try done.
    destruct (_ <? _)%nat; cbn; (split; [done|]); intros j;
      (destruct (decide (i = j)) as [->|]; [by rewrite lookup_insert_eq|]);
      by rewrite lookup_insert_ne.
  - done.
  - done.
Qed.

Lemma run_quiescent evs item : forall p,
  running_ p = false -> inside p = 0 ->
  (item ∉ completed p) -> held_by_worker p item = false ->
  (item ∉ completed (run p evs)) /\
  held_by_worker (run p evs) item = false.
Proof.
  induction evs as [|ev evs IH]; intros p Hr Hin Hc Hh; [done|].
  cbn. fold (run (step p ev) evs).
  destruct (step_after_flip p ev Hr) as [Hr' _].
  destruct (step_quiescent p ev item Hr Hin Hc Hh) as (Hin' & Hc' & Hh').
  by apply IH.
Qed.

(** C9, as amended: once [running_] is false it stays false; the tasks
    started afterwards are at most as many as the workers that were inside
    the body of their loop; with no worker there, no further task is started,
    every queued task stays in the queue, its future pending, and its future
    carries the broken promise once the queue is destroyed with the pool. *)
Theorem shutdown_remaining_tasks p evs :
  running_ p = false ->
  let p' := run p evs in
  running_ p' = false /\
  length (started p') <= length (started p) + inside p /\
  (inside p = 0 ->
   started p' = started p /\
   forall item,
     item ∈ task_queue_ p ->
     item ∈ task_queue_ p' /\
     ((item ∉ completed p) -> held_by_worker p item = false ->
      future_of p' item = Pending /\
      future_of (destroy_members p') item = BrokenPromise)).
Proof.
  intros Hr p'. destruct (run_after_flip evs p Hr) as [Hr' Hle]. fold p' in Hr', Hle.
  split; [done|]. split; [lia|].
  intros Hin.
  destruct (run_started_extends evs p) as [suffix Hsuf]. fold p' in Hsuf.
  assert (started p' = started p) as Hs.
  { rewrite Hsuf, length_app in Hle. destruct suffix; [by rewrite app_nil_r in Hsuf|].
    cbn in Hle. lia. }
  split; [done|]. intros item Hq.
  assert (item ∈ task_queue_ p') as Hq' by (by apply run_queue_kept).
  split; [done|]. intros Hc Hh.
  destruct (run_quiescent evs item p Hr Hin Hc Hh) as [Hc' Hh']. fold p' in Hc', Hh'.
  unfold future_of. cbn [task_queue_ completed destroy_members].
  rewrite (bool_decide_eq_false_2 (item ∈ completed p')) by done.
  rewrite (bool_decide_eq_true_2 (item ∈ task_queue_ p')) by done.
  split; [done|].
  rewrite (bool_decide_eq_false_2 (item ∈ [])) by apply not_elem_of_nil.
  cbn [orb]. change (held_by_worker (destroy_members p') item)
    with (held_by_worker p' item). by rewrite Hh'.
Qed.

End pool.

(** C9, counterexample: a task that is in the queue when [shutdown] flips
    [running_] is run by a worker that waits for a task, and its future
    becomes ready; a task left in the queue after [shutdown] has joined the
    workers has a pending future, which is broken only by the destruction of
    the queue. *)
Lemma shutdown_runs_queued_task :
  (low7 ∈ task_queue_ idle_with_task /\
   threads idle_with_task !! 0%nat = Some Waiting /\
   let p := run idle_with_task
              [ShutdownFlip; Worker 0; Worker 0; Worker 0; Worker 0; ShutdownMove] in
   running_ p = false /\ threads p !! 0%nat = Some Exited /\
   started p = [low7] /\ future_of p low7 = Ready) /\
  (high8 ∈ task_queue_ busy_with_queue /\
   let p := run busy_with_queue [ShutdownFlip; Worker 0; Worker 0; ShutdownMove] in
   running_ p = false /\ threads p !! 0%nat = Some Exited /\ workers_ p = [] /\
   high8 ∈ task_queue_ p /\ future_of p high8 = Pending /\
   future_of (destroy_members p) high8 = BrokenPromise).
Proof. vm_compute. repeat split; try reflexivity; repeat constructor. Qed.

Lemma shutdown_remaining_tasks_witness :
  running_ (step busy_with_queue ShutdownFlip) = false /\
  inside (step busy_with_queue ShutdownFlip) = 0%nat /\
  started (run (step busy_with_queue ShutdownFlip) [Worker 0; Worker 0; ShutdownMove])
  = [low6] /\
  future_of (destroy_members
               (run (step busy_with_queue ShutdownFlip)
                  [Worker 0; Worker 0; ShutdownMove])) high8 = BrokenPromise.
Proof.
  assert (running_ (step busy_with_queue ShutdownFlip) = false) as Hr by reflexivity.
  assert (inside (step busy_with_queue ShutdownFlip) = 0%nat) as Hin
    by reflexivity.
  split; [exact Hr|]. split; [exact Hin|].
  destruct (shutdown_remaining_tasks
              (step busy_with_queue ShutdownFlip)
              [Worker 0; Worker 0; ShutdownMove] Hr) as (_ & _ & H).
  destruct (H Hin) as [Hs Hq]. split; [exact Hs|].
  destruct (Hq high8) as [_ Hf]; [repeat constructor|].
  apply Hf.
  - assert (completed (step busy_with_queue ShutdownFlip) = []) as -> by reflexivity.
    apply not_elem_of_nil.
  - reflexivity.
Defined.

End PoolFacts.


(** * Further properties of the code *)

(** ** Scans of the store ([LevelDBManager::rangeQuery], [prefixQuery]) *)

Section store_scans.
Implicit Types (db : gmap string string) (es : list (string * string)).

Lemma ascii_compare_N a b : Ascii.compare a b = N.compare (N_of_ascii a) (N_of_ascii b).
Proof. reflexivity. Qed.

Lemma ascii_compare_Lt_trans a b c :
  Ascii.compare a b = Lt -> Ascii.compare b c = Lt -> Ascii.compare a c = Lt.
Proof. rewrite !ascii_compare_N, !N.compare_lt_iff. lia. Qed.

Lemma compare_Lt_trans (a : string) : forall b c,
  String.compare a b = Lt -> String.compare b c = Lt -> String.compare a c = Lt.
Proof.
  induction a as [|x a IH]; intros [|y b] [|z c]; cbn [String.compare]; try done.
  destruct (Ascii.compare x y) eqn:Hxy; try done;
    destruct (Ascii.compare y z) eqn:Hyz; try done.
  - apply Ascii.compare_eq_iff in Hxy as ->, Hyz as ->.
    rewrite ascii_compare_refl. apply IH.
  - apply Ascii.compare_eq_iff in Hxy as ->. by rewrite Hyz.
  - apply Ascii.compare_eq_iff in Hyz as <-. by rewrite Hxy.
  - by rewrite (ascii_compare_Lt_trans _ _ _ Hxy Hyz).
Qed.

Lemma leb_ltb_false a b : String.leb a b = negb (String.ltb b a).
Proof.
  unfold String.leb, String.ltb. rewrite (String.compare_antisym a b).
  by destruct (String.compare b a).
Qed.

Lemma ltb_leb_trans a b c :
  String.ltb a b = true -> String.leb b c = true -> String.ltb a c = true.
Proof.
  unfold String.ltb, String.leb. intros Hab Hbc.
  destruct (String.compare a b) eqn:H1; try done.
  destruct (String.compare b c) eqn:H2; try done.
  - apply String.compare_eq_iff in H2 as <-. by rewrite H1.
  - by rewrite (compare_Lt_trans _ _ _ H1 H2).
Qed.

Lemma leb_trans a b c :
  String.leb a b = true -> String.leb b c = true -> String.leb a c = true.
Proof.
  intros Hab Hbc. rewrite leb_ltb_false. apply negb_true_iff, not_true_iff_false.
  intros Hca. pose proof (ltb_leb_trans _ _ _ Hca Hab) as Hcb.
  rewrite leb_ltb_false, Hcb in Hbc. done.
Qed.

#[local] Instance key_le_trans : Transitive LevelDBManager.key_le.
Proof. intros x y z. unfold LevelDBManager.key_le. apply leb_trans. Qed.

#[local] Instance key_le_total : Total LevelDBManager.key_le.
Proof. intros x y. unfold LevelDBManager.key_le. apply String.leb_total. Qed.

Lemma entries_sorted db : StronglySorted LevelDBManager.key_le (LevelDBManager.entries db).
Proof. unfold LevelDBManager.entries. apply StronglySorted_merge_sort; apply _. Qed.

Lemma elem_of_entries db k v :
  (k, v) ∈ LevelDBManager.entries db <-> db !! k = Some v.
Proof.
  unfold LevelDBManager.entries. rewrite merge_sort_Permutation.
  apply elem_of_map_to_list.
Qed.

Lemma StronglySorted_filter_key es (P : string * string -> Prop) `{!forall x, Decision (P x)} :
  StronglySorted LevelDBManager.key_le es ->
  StronglySorted LevelDBManager.key_le (filter P es).
Proof.
  induction 1 as [|x es Hs IH Hall]; [constructor|].
  destruct (decide (P x)).
  - rewrite filter_cons_True by done. constructor; [done|].
    apply Forall_forall. intros y [_ Hy]%list_elem_of_filter.
    rewrite Forall_forall in Hall. auto.
  - by rewrite filter_cons_False.
Qed.

Lemma filter_none {A} (P : A -> Prop) `{!forall x, Decision (P x)} (l : list A) :
  Forall (fun x => ~ P x) l -> filter P l = [].
Proof.
  induction 1 as [|x l Hx Hl IH]; [done|]. by rewrite filter_cons_False.
Qed.

(** The loop from a position where every key is at least [start_key]. *)
Lemma scan_to_filter start_key end_key es :
  StronglySorted LevelDBManager.key_le es ->
  Forall (fun kv => String.leb start_key kv.1 = true) es ->
  LevelDBManager.scan_to end_key es
  = filter (fun kv => LevelDBManager.in_range start_key end_key kv.1 = true) es.
Proof.
  induction 1 as [|kv es Hs IH Hall]; intros Hge; [done|].
  apply Forall_cons in Hge as [Hkv Hge]. cbn [LevelDBManager.scan_to].
  destruct (negb (String.eqb end_key "") && String.leb end_key kv.1) eqn:Hbrk.
  - apply andb_true_iff in Hbrk as [Hne Hle]. apply negb_true_iff in Hne.
    symmetry. apply filter_none.
    assert (forall x : string * string, String.leb end_key x.1 = true ->
              LevelDBManager.in_range start_key end_key x.1 <> true) as Hout.
    { intros x Hex. unfold LevelDBManager.in_range. rewrite Hne. cbn [orb].
      rewrite leb_ltb_false in Hex. apply negb_true_iff in Hex. rewrite Hex.
      rewrite andb_false_r. done. }
    apply Forall_cons. split; [by apply Hout|].
    rewrite Forall_forall in Hall. apply Forall_forall. intros x Hx.
    apply Hout. eapply leb_trans; [exact Hle|]. apply Hall, Hx.
  - rewrite filter_cons_True.
    + f_equal. by apply IH.
    + unfold LevelDBManager.in_range. rewrite Hkv. cbn [andb].
      apply andb_false_iff in Hbrk as [Hne|Hle].
      * apply negb_false_iff in Hne. by rewrite Hne.
      * rewrite leb_ltb_false in Hle. apply negb_false_iff in Hle.
        rewrite Hle. apply orb_true_r.
Qed.

Lemma seek_scan_filter start_key end_key es :
  StronglySorted LevelDBManager.key_le es ->
  LevelDBManager.scan_to end_key (LevelDBManager.seek start_key es)
  = filter (fun kv => LevelDBManager.in_range start_key end_key kv.1 = true) es.
Proof.
  induction 1 as [|kv es Hs IH Hall]; [done|].
  cbn [LevelDBManager.seek].
  destruct (String.ltb kv.1 start_key) eqn:Hlt.
  - rewrite filter_cons_False; [done|].
    unfold LevelDBManager.in_range. rewrite leb_ltb_false, Hlt. cbn. done.
  - apply scan_to_filter; [by constructor|].
    assert (String.leb start_key kv.1 = true) as Hkv.
    { rewrite leb_ltb_false, Hlt. done. }
    apply Forall_cons. split; [done|].
    rewrite Forall_forall in Hall. apply Forall_forall. intros x Hx.
    eapply leb_trans; [exact Hkv|]. apply Hall, Hx.
Qed.

Lemma filter_entries db (P : string * string -> Prop) `{!forall x, Decision (P x)} :
  filter P (LevelDBManager.entries db)
  = merge_sort LevelDBManager.key_le (filter P (map_to_list db)).
Proof.
  apply (StronglySorted_unique_strong LevelDBManager.key_le).
  - intros [k1 v1] [k2 v2] [_ H1]%list_elem_of_filter H2 Hle1 Hle2.
    apply elem_of_entries in H1.
    rewrite merge_sort_Permutation in H2.
    apply list_elem_of_filter in H2 as [_ H2]. apply elem_of_map_to_list in H2.
    unfold LevelDBManager.key_le in *. cbn in *.
    assert (k1 = k2) as -> by (by apply String.leb_antisym).
    congruence.
  - apply StronglySorted_filter_key, entries_sorted.
  - apply StronglySorted_merge_sort; apply _.
  - rewrite merge_sort_Permutation. unfold LevelDBManager.entries.
    by rewrite merge_sort_Permutation.
Qed.

Lemma rangeQuery_loop_eq db start_key end_key :
  LevelDBManager.rangeQuery_loop db start_key end_key
  = LevelDBManager.rangeQuery db start_key end_key.
Proof.
  unfold LevelDBManager.rangeQuery_loop, LevelDBManager.rangeQuery.
  rewrite seek_scan_filter by apply entries_sorted.
  apply filter_entries.
Qed.

Lemma elem_of_rangeQuery db start_key end_key k v :
  (k, v) ∈ LevelDBManager.rangeQuery db start_key end_key
  <-> db !! k = Some v /\ LevelDBManager.in_range start_key end_key k = true.
Proof.
  unfold LevelDBManager.rangeQuery. rewrite merge_sort_Permutation.
  rewrite list_elem_of_filter, elem_of_map_to_list. cbn. tauto.
Qed.

(** X1: the loop of [LevelDBManager::rangeQuery] ([Seek] to the start key,
    [break] at the first key that is not below a non-empty end key) hands to
    the callback exactly the entries with [start_key <= key] and, unless the
    end key is empty, [key < end_key]; each once, in key order.  It is the
    scan the engine's cell loads are stated with. *)
Theorem rangeQuery_loop_reports db start_key end_key :
  LevelDBManager.rangeQuery_loop db start_key end_key
  = LevelDBManager.rangeQuery db start_key end_key /\
  (forall k v,
      (k, v) ∈ LevelDBManager.rangeQuery_loop db start_key end_key
      <-> db !! k = Some v /\ String.leb start_key k = true /\
          (end_key = "" \/ String.ltb k end_key = true)) /\
  StronglySorted LevelDBManager.key_le
    (LevelDBManager.rangeQuery_loop db start_key end_key) /\
  NoDup (LevelDBManager.rangeQuery_loop db start_key end_key).*1.
Proof.
  split; [apply rangeQuery_loop_eq|]. split; [|split].
  - intros k v. rewrite rangeQuery_loop_eq, elem_of_rangeQuery.
    unfold LevelDBManager.in_range.
    rewrite andb_true_iff, orb_true_iff.
    destruct (String.eqb_spec end_key ""); intuition congruence.
  - unfold LevelDBManager.rangeQuery_loop.
    rewrite seek_scan_filter by apply entries_sorted.
    apply StronglySorted_filter_key, entries_sorted.
  - rewrite rangeQuery_loop_eq. apply scan_NoDup.
Qed.

Lemma compare_nil_r (k : string) : String.compare k "" <> Lt.
Proof. by destruct k. Qed.

Lemma next_char_spec c :
  N_of_ascii c <> 255%N ->
  N_of_ascii (LevelDBManager.next_char c) = (N_of_ascii c + 1)%N.
Proof.
  intros Hc. unfold LevelDBManager.next_char.
  pose proof (N_ascii_bounded c).
  rewrite N.mod_small by lia. apply N_ascii_embedding. lia.
Qed.

Lemma bump_back_nonempty c s : String.eqb (LevelDBManager.bump_back (String c s)) "" = false.
Proof. cbn. by destruct s. Qed.

(** Between a prefix and the prefix with its last byte raised by one lie
    exactly the strings that start with the prefix. *)
Lemma in_range_prefix (p : string) : forall c k,
  LevelDBManager.back p = Some c -> N_of_ascii c <> 255%N ->
  LevelDBManager.in_range p (LevelDBManager.bump_back p) k = String.prefix p k.
Proof.
  induction p as [|a p IH]; intros c k Hback Hc; [done|].
  unfold LevelDBManager.in_range. rewrite bump_back_nonempty. cbn [orb].
  destruct k as [|d k].
  { cbn. by destruct p. }
  destruct p as [|b p].
  - cbn in Hback. injection Hback as ->. cbn [LevelDBManager.bump_back String.prefix].
    unfold String.leb, String.ltb. cbn [String.compare].
    rewrite !ascii_compare_N, next_char_spec by done.
    destruct (ascii_dec c d) as [->|Hne].
    + rewrite N.compare_refl.
      assert ((N_of_ascii d ?= N_of_ascii d + 1)%N = Lt) as ->
        by (apply N.compare_lt_iff; lia).
      by destruct k.
    + assert (N_of_ascii c <> N_of_ascii d) as Hn.
      { intros Heq. apply Hne. rewrite <- (ascii_N_embedding c), <- (ascii_N_embedding d).
        by rewrite Heq. }
      destruct (N.compare_spec (N_of_ascii c) (N_of_ascii d)) as [?|Hlt|Hgt]; [done| |done].
      destruct (N.compare_spec (N_of_ascii d) (N_of_ascii c + 1)) as [?|?|?]; try lia.
      all: cbn.
      all: try (destruct (String.compare k "") eqn:Hk; try done;
        by apply compare_nil_r in Hk).
  - change (LevelDBManager.back (String a (String b p)))
      with (LevelDBManager.back (String b p)) in Hback.
    change (LevelDBManager.bump_back (String a (String b p)))
      with (String a (LevelDBManager.bump_back (String b p))).
    specialize (IH c k Hback Hc).
    unfold LevelDBManager.in_range in IH. rewrite bump_back_nonempty in IH.
    cbn [orb] in IH.
    cbn [String.prefix]. unfold String.leb, String.ltb in *.
    cbn [String.compare]. rewrite (Ascii.compare_antisym d a).
    destruct (ascii_dec a d) as [->|Hne].
    + rewrite ascii_compare_refl. cbn [CompOpp]. exact IH.
    + destruct (Ascii.compare a d) eqn:Had; cbn [CompOpp]; try done.
      by apply Ascii.compare_eq_iff in Had.
Qed.

(** When the last byte of the prefix is 0xFF the end key is below the
    prefix and nothing lies between them. *)
Lemma in_range_prefix_FF (p : string) : forall k,
  LevelDBManager.in_range (p ++ String "255" "")
    (LevelDBManager.bump_back (p ++ String "255" "")) k = false.
Proof.
  induction p as [|a p IH]; intros k.
  - rewrite append_nil_l. unfold LevelDBManager.in_range. cbn [LevelDBManager.bump_back].
    change (LevelDBManager.next_char "255") with "000"%char.
    destruct k as [|d k]; [done|].
    unfold String.leb, String.ltb. cbn [String.compare String.eqb orb].
    rewrite !ascii_compare_N. change (N_of_ascii "000") with 0%N.
    change (N_of_ascii "255") with 255%N.
    pose proof (N_ascii_bounded d).
    destruct (N.compare_spec 255 (N_of_ascii d)) as [?|?|?]; try lia.
    all: destruct (N.compare_spec (N_of_ascii d) 0) as [?|?|?]; try lia.
    all: cbn; rewrite ?andb_false_r; try done.
  - rewrite append_cons.
    assert (exists b q, p ++ String "255" "" = String b q) as (b & q & Hq).
    { destruct p; rewrite ?append_nil_l, ?append_cons; eauto. }
    rewrite Hq in *.
    change (LevelDBManager.bump_back (String a (String b q)))
      with (String a (LevelDBManager.bump_back (String b q))).
    unfold LevelDBManager.in_range in *. rewrite bump_back_nonempty in *.
    cbn [orb] in *. destruct k as [|d k]; [done|].
    specialize (IH k).
    unfold String.leb, String.ltb in *. cbn [String.compare].
    rewrite (Ascii.compare_antisym d a).
    destruct (Ascii.compare a d) eqn:Had; cbn [CompOpp]; try done.
Qed.

Lemma filter_all {A} (P : A -> Prop) `{!forall x, Decision (P x)} (l : list A) :
  Forall P l -> filter P l = l.
Proof.
  induction 1 as [|x l Hx Hl IH]; [done|]. rewrite filter_cons_True by done.
  by rewrite IH.
Qed.

Lemma filter_iff {A} (P Q : A -> Prop) `{!forall x, Decision (P x)}
    `{!forall x, Decision (Q x)} (l : list A) :
  (forall x, P x <-> Q x) -> filter P l = filter Q l.
Proof.
  intros Hpq. induction l as [|x l IH]; [done|].
  destruct (decide (P x)) as [HP|HP].
  - rewrite !filter_cons_True by (done || by apply Hpq). by rewrite IH.
  - rewrite !filter_cons_False by (done || by rewrite <- Hpq). done.
Qed.

Lemma prefix_app (p : string) : forall k,
  String.prefix p k = true <-> exists rest, k = p ++ rest.
Proof.
  induction p as [|a p IH]; intros k.
  - split; [intros _; by exists k|by destruct k].
  - destruct k as [|d k]; cbn [String.prefix].
    + split; [done|intros [rest Hr]]. by rewrite append_cons in Hr.
    + destruct (ascii_dec a d) as [->|Hne].
      * rewrite IH. split; intros [rest Hr]; exists rest.
        -- by rewrite append_cons, Hr.
        -- rewrite append_cons in Hr. by injection Hr.
      * split; [done|intros [rest Hr]]. rewrite append_cons in Hr.
        injection Hr as ? _. by subst.
Qed.

(** X2: [prefixQuery] hands to the callback exactly the entries whose key
    starts with the prefix, in key order, when the prefix is not empty and
    its last byte is not 0xFF. *)
Theorem prefixQuery_reports_prefixed db prefix c :
  LevelDBManager.back prefix = Some c -> N_of_ascii c <> 255%N ->
  LevelDBManager.prefixQuery db prefix
  = filter (fun kv => String.prefix prefix kv.1 = true) (LevelDBManager.entries db) /\
  (forall k v,
      (k, v) ∈ LevelDBManager.prefixQuery db prefix
      <-> db !! k = Some v /\ exists rest, k = prefix ++ rest).
Proof.
  intros Hback Hc.
  assert (LevelDBManager.prefixQuery db prefix
          = filter (fun kv => String.prefix prefix kv.1 = true)
                   (LevelDBManager.entries db)) as Heq.
  { unfold LevelDBManager.prefixQuery, LevelDBManager.rangeQuery.
    rewrite <- filter_entries. apply filter_iff. intros kv.
    by rewrite (in_range_prefix prefix c). }
  split; [done|]. intros k v.
  rewrite Heq, list_elem_of_filter, elem_of_entries, <- prefix_app. cbn. tauto.
Qed.

Lemma prefixQuery_reports_prefixed_witness :
  LevelDBManager.back "G_090_" = Some "_"%char /\
  LevelDBManager.prefixQuery
    (list_to_map [("G_090_040|a", "1"); ("G_090_041|b", "2"); ("G_091_040|c", "3")])
    "G_090_"
  = [("G_090_040|a", "1"); ("G_090_041|b", "2")].
Proof.
  destruct (prefixQuery_reports_prefixed
              (list_to_map [("G_090_040|a", "1"); ("G_090_041|b", "2"); ("G_091_040|c", "3")])
              "G_090_" "_") as [-> _]; [reflexivity|done|].
  split; [reflexivity|]. vm_compute. reflexivity.
Defined.

(** X3: an empty prefix selects every entry; a prefix whose last byte is
    0xFF selects none, whatever the database holds. *)
Theorem prefixQuery_edge_prefixes db p :
  LevelDBManager.prefixQuery db "" = LevelDBManager.entries db /\
  LevelDBManager.prefixQuery db (p ++ String "255" "") = [].
Proof.
  split.
  - unfold LevelDBManager.prefixQuery, LevelDBManager.rangeQuery.
    rewrite <- filter_entries. apply filter_all, Forall_forall. intros kv _.
    unfold LevelDBManager.in_range. by destruct (kv.1).
  - unfold LevelDBManager.prefixQuery, LevelDBManager.rangeQuery.
    rewrite <- filter_entries. apply filter_none, Forall_forall. intros kv _.
    by rewrite in_range_prefix_FF.
Qed.

End store_scans.

(** ** Sequences of calls of the engine *)

Section engine_calls.
Implicit Types (e : TerrainStorageEngine.t) (db : gmap string string)
  (c : GridLRUCache.t) (p : Q * Q * string).

Lemma with_cache_id e : TerrainStorageEngine.with_cache e (TerrainStorageEngine.cache_ e) = e.
Proof. by destruct e. Qed.

Lemma with_db_id e : TerrainStorageEngine.with_db e (TerrainStorageEngine.db_manager_ e) = e.
Proof. by destruct e. Qed.

(** A [put] of a point within the bounds: the cache is accessed and, if the
    cell is resident, written through; the store gets the key. *)
Lemma put_within e lon lat value :
  TerrainStorageEngine.isWithinBounds e lon lat = true ->
  exists c',
    TerrainStorageEngine.put e lon lat value
    = (Ok tt,
       TerrainStorageEngine.with_db (TerrainStorageEngine.with_cache e c')
         (<[keyOf e lon lat := value]> (TerrainStorageEngine.db_manager_ e))) /\
    forall db,
      TerrainStorageEngine.put (TerrainStorageEngine.with_db e db) lon lat value
      = (Ok tt,
         TerrainStorageEngine.with_db (TerrainStorageEngine.with_cache e c')
           (<[keyOf e lon lat := value]> db)).
Proof.
  intros Hb. unfold TerrainStorageEngine.put.
  change (TerrainStorageEngine.isWithinBounds (TerrainStorageEngine.with_db e _) lon lat)
    with (TerrainStorageEngine.isWithinBounds e lon lat).
  rewrite Hb. cbn [negb].
  cbn [TerrainStorageEngine.cache_ TerrainStorageEngine.with_db].
  change (TerrainStorageEngine.computeGridId (TerrainStorageEngine.with_db e _) lon lat)
    with (TerrainStorageEngine.computeGridId e lon lat).
  destruct (GridLRUCache.get (TerrainStorageEngine.cache_ e) _) as [item c1].
  eexists. split; [reflexivity|]. intros db. reflexivity.
Qed.

Lemma put_outside e lon lat value :
  TerrainStorageEngine.isWithinBounds e lon lat = false ->
  TerrainStorageEngine.put e lon lat value = (Throw (CoordinateOutOfRange lon lat), e).
Proof. intros Hb. unfold TerrainStorageEngine.put. by rewrite Hb. Qed.

(** The cache after a sequence of [put]s does not depend on the store. *)
Lemma puts_with_db points : forall e db,
  exists db',
    puts (TerrainStorageEngine.with_db e db) points
    = TerrainStorageEngine.with_db (puts e points) db'.
Proof.
  induction points as [|[[lon lat] v] points IH]; intros e db.
  - exists db. reflexivity.
  - cbn [puts foldl fst snd].
    fold (puts (TerrainStorageEngine.put (TerrainStorageEngine.with_db e db) lon lat v).2 points).
    fold (puts (TerrainStorageEngine.put e lon lat v).2 points).
    destruct (TerrainStorageEngine.isWithinBounds e lon lat) eqn:Hb.
    + destruct (put_within e lon lat v Hb) as (c' & -> & Hdb). rewrite Hdb.
      cbn [snd].
      destruct (IH (TerrainStorageEngine.with_cache e c') (<[keyOf e lon lat:=v]> db))
        as [dA ->].
      destruct (IH (TerrainStorageEngine.with_cache e c')
                  (<[keyOf e lon lat:=v]> (TerrainStorageEngine.db_manager_ e)))
        as [dB ->].
      exists dA. reflexivity.
    + rewrite !put_outside by done. cbn [snd]. apply IH.
Qed.

Lemma puts_frame points : forall e,
  puts e points
  = TerrainStorageEngine.with_db
      (TerrainStorageEngine.with_cache e (TerrainStorageEngine.cache_ (puts e points)))
      (foldl (write_point e) (TerrainStorageEngine.db_manager_ e)
             (filter (fun p => within e p = true) points)).
Proof.
  induction points as [|[[lon lat] v] points IH]; intros e.
  - cbn. by destruct e.
  - cbn [puts foldl fst snd].
    fold (puts (TerrainStorageEngine.put e lon lat v).2 points).
    destruct (TerrainStorageEngine.isWithinBounds e lon lat) eqn:Hb.
    + rewrite filter_cons_True by done.
      destruct (put_within e lon lat v Hb) as (c' & -> & _). cbn [snd].
      rewrite IH at 1. cbn [foldl]. reflexivity.
    + rewrite filter_cons_False by (unfold within; cbn; congruence).
      rewrite put_outside by done. apply IH.
Qed.

Lemma batchPut_loop_cache e points : forall c batch,
  (TerrainStorageEngine.batchPut_loop e c batch points).2
  = TerrainStorageEngine.cache_
      (puts (TerrainStorageEngine.with_cache e c) (valid_prefix e points)).
Proof.
  induction points as [|[[lon lat] v] points IH]; intros c batch; [done|].
  cbn [TerrainStorageEngine.batchPut_loop valid_prefix].
  unfold within at 1. cbn [fst snd].
  destruct (TerrainStorageEngine.isWithinBounds e lon lat) eqn:Hb; cbn [negb]; [|done].
  cbn [puts foldl fst snd].
  fold (puts (TerrainStorageEngine.put (TerrainStorageEngine.with_cache e c) lon lat v).2
          (valid_prefix e points)).
  unfold TerrainStorageEngine.put.
  change (TerrainStorageEngine.isWithinBounds (TerrainStorageEngine.with_cache e c) lon lat)
    with (TerrainStorageEngine.isWithinBounds e lon lat).
  rewrite Hb. cbn [negb TerrainStorageEngine.cache_ TerrainStorageEngine.with_cache].
  change (TerrainStorageEngine.computeGridId (TerrainStorageEngine.with_cache e c) lon lat)
    with (TerrainStorageEngine.computeGridId e lon lat).
  destruct (GridLRUCache.get c _) as [item c1]. cbn [snd].
  rewrite IH.
  match goal with
  | |- _ = TerrainStorageEngine.cache_ (puts (TerrainStorageEngine.with_db ?e1 ?d) _) =>
      destruct (puts_with_db (valid_prefix e points) e1 d) as [db' ->]
  end.
  reflexivity.
Qed.

Lemma forallb_within e points :
  forallb (within e) points = true
  <-> Forall (fun p => TerrainStorageEngine.isWithinBounds e p.1.1 p.1.2 = true) points.
Proof. rewrite forallb_forall, Forall_forall. by setoid_rewrite list_elem_of_In. Qed.

Lemma forallb_within_false e points :
  forallb (within e) points = false
  -> Exists (fun p => TerrainStorageEngine.isWithinBounds e p.1.1 p.1.2 = false) points.
Proof.
  induction points as [|p points IH]; [done|]. cbn [forallb].
  intros [H|H]%andb_false_iff; [by left|right; auto].
Qed.

Lemma valid_prefix_all e points :
  forallb (within e) points = true -> valid_prefix e points = points.
Proof.
  induction points as [|p points IH]; [done|]. cbn.
  intros [-> H]%andb_true_iff. by rewrite IH.
Qed.

Lemma filter_within_all e points :
  forallb (within e) points = true ->
  filter (fun p => within e p = true) points = points.
Proof.
  induction points as [|p points IH]; [done|]. cbn [forallb].
  intros [Hp H]%andb_true_iff. rewrite filter_cons_True by done. by rewrite IH.
Qed.

Lemma batchPut_cache e points :
  TerrainStorageEngine.cache_ (TerrainStorageEngine.batchPut e points).2
  = TerrainStorageEngine.cache_ (puts e (valid_prefix e points)).
Proof.
  pose proof (batchPut_loop_cache e points (TerrainStorageEngine.cache_ e) []) as Hc.
  rewrite with_cache_id in Hc. unfold TerrainStorageEngine.batchPut.
  by destruct (TerrainStorageEngine.batchPut_loop e _ [] points) as [[batch|ex] c].
Qed.

Lemma batchPut_within e points :
  forallb (within e) points = true ->
  TerrainStorageEngine.batchPut e points = (Ok tt, puts e points).
Proof.
  pose proof (batchPut_loop_cache e points (TerrainStorageEngine.cache_ e) []) as Hc.
  rewrite with_cache_id in Hc. unfold TerrainStorageEngine.batchPut.
  intros Hall. pose proof Hall as Hall'. apply forallb_within in Hall'.
  destruct (batchPut_loop_ok e points (TerrainStorageEngine.cache_ e) [] Hall')
    as (c' & Hloop).
  rewrite Hloop in Hc |- *. cbn [snd] in Hc. subst c'.
  rewrite valid_prefix_all by done. f_equal.
  rewrite (puts_frame points e) at 2. rewrite filter_within_all by done.
  f_equal. cbn [app]. apply commit_staged.
Qed.

Lemma batchPut_outside e points :
  forallb (within e) points = false ->
  exists lon lat,
    TerrainStorageEngine.batchPut e points
    = (Throw (CoordinateOutOfRange lon lat),
       TerrainStorageEngine.with_cache e
         (TerrainStorageEngine.cache_ (puts e (valid_prefix e points)))).
Proof.
  pose proof (batchPut_loop_cache e points (TerrainStorageEngine.cache_ e) []) as Hc.
  rewrite with_cache_id in Hc. unfold TerrainStorageEngine.batchPut.
  intros Hbad. apply forallb_within_false in Hbad.
  destruct (batchPut_loop_throw e points (TerrainStorageEngine.cache_ e) [] Hbad)
    as (lon & lat & c' & Hloop).
  rewrite Hloop in Hc |- *. cbn [snd] in Hc. subst c'. eauto.
Qed.

(** X4: [batchPut] acts on the cache as one [put] per point up to the first
    point out of bounds; when every point is within the bounds it returns
    normally and leaves the very engine that one [put] per point, in order,
    leaves; otherwise it throws and the store is untouched. *)
Theorem batchPut_as_puts e points :
  TerrainStorageEngine.cache_ (TerrainStorageEngine.batchPut e points).2
  = TerrainStorageEngine.cache_ (puts e (valid_prefix e points)) /\
  (forallb (within e) points = true ->
   TerrainStorageEngine.batchPut e points = (Ok tt, puts e points)) /\
  (forallb (within e) points = false ->
   exists lon lat,
     TerrainStorageEngine.batchPut e points
     = (Throw (CoordinateOutOfRange lon lat),
        TerrainStorageEngine.with_cache e
          (TerrainStorageEngine.cache_ (puts e (valid_prefix e points))))).
Proof.
  split; [apply batchPut_cache|].
  split; [apply batchPut_within | apply batchPut_outside].
Qed.

Lemma loadGridToCache_frame e grid_id :
  (TerrainStorageEngine.loadGridToCache e grid_id).2
  = TerrainStorageEngine.with_cache e
      (TerrainStorageEngine.cache_ (TerrainStorageEngine.loadGridToCache e grid_id).2).
Proof. reflexivity. Qed.

Lemma get_frame e lon lat :
  (TerrainStorageEngine.get e lon lat).2
  = TerrainStorageEngine.with_cache e
      (TerrainStorageEngine.cache_ (TerrainStorageEngine.get e lon lat).2).
Proof.
  unfold TerrainStorageEngine.get.
  destruct (negb (TerrainStorageEngine.isWithinBounds e lon lat)); [by destruct e|].
  destruct (GridLRUCache.get (TerrainStorageEngine.cache_ e) _) as [cached c].
  destruct (cached ≫= _); [reflexivity|].
  destruct (LevelDBManager.get _ _); destruct cached; reflexivity.
Qed.

Lemma rangeQuery_frame e min_lon min_lat max_lon max_lat :
  (TerrainStorageEngine.rangeQuery e min_lon min_lat max_lon max_lat).2
  = TerrainStorageEngine.with_cache e
      (TerrainStorageEngine.cache_
         (TerrainStorageEngine.rangeQuery e min_lon min_lat max_lon max_lat).2).
Proof.
  rewrite rangeQuery_query_cells.
  by destruct (query_cells_spec min_lon min_lat max_lon max_lat
                 (TerrainStorageEngine.covered_cells e min_lon min_lat max_lon max_lat) e [])
    as [H _].
Qed.

Lemma frame_of_cache e e' :
  e' = TerrainStorageEngine.with_cache e (TerrainStorageEngine.cache_ e') ->
  TerrainStorageEngine.db_manager_ e' = TerrainStorageEngine.db_manager_ e /\
  e' = TerrainStorageEngine.with_db
         (TerrainStorageEngine.with_cache e (TerrainStorageEngine.cache_ e'))
         (TerrainStorageEngine.db_manager_ e').
Proof. intros H. split; [by rewrite H|]. rewrite H at 1. by rewrite H. Qed.

(** One call: the store gets the writes of the call and nothing else of the
    engine changes but the cache. *)
Lemma after_call_store e cl :
  let e' := after_call e cl in
  TerrainStorageEngine.db_manager_ e'
  = foldl (write_point e) (TerrainStorageEngine.db_manager_ e) (writes_of e cl) /\
  e' = TerrainStorageEngine.with_db
         (TerrainStorageEngine.with_cache e (TerrainStorageEngine.cache_ e'))
         (TerrainStorageEngine.db_manager_ e').
Proof.
  destruct cl as [lon lat v|lon lat|points|a b c d|id|id|]; cbn [after_call writes_of].
  - unfold within. cbn [fst snd].
    destruct (TerrainStorageEngine.isWithinBounds e lon lat) eqn:Hb.
    + destruct (put_within e lon lat v Hb) as (c' & -> & _). done.
    + rewrite put_outside by done. cbn. by destruct e.
  - apply frame_of_cache, get_frame.
  - pose proof (batchPut_within e points) as Hok.
    pose proof (batchPut_outside e points) as Hbad.
    destruct (forallb (within e) points) eqn:Hall.
    + rewrite Hok by done. cbn [snd]. rewrite (puts_frame points e).
      rewrite filter_within_all by done. done.
    + destruct (Hbad eq_refl) as (lon & lat & ->). cbn [snd foldl].
      split; [done|]. by destruct e.
  - apply frame_of_cache, rangeQuery_frame.
  - apply frame_of_cache, loadGridToCache_frame.
  - cbn. split; [done|]. by destruct e.
  - cbn. split; [done|]. by destruct e.
Qed.

Lemma writes_frame e c db cs d :
  foldl (write_point (TerrainStorageEngine.with_db (TerrainStorageEngine.with_cache e c) db))
        d (cs ≫= writes_of (TerrainStorageEngine.with_db (TerrainStorageEngine.with_cache e c) db))
  = foldl (write_point e) d (cs ≫= writes_of e).
Proof. reflexivity. Qed.

Lemma after_calls_store e cs :
  let e' := after_calls e cs in
  TerrainStorageEngine.db_manager_ e'
  = foldl (write_point e) (TerrainStorageEngine.db_manager_ e) (cs ≫= writes_of e) /\
  e' = TerrainStorageEngine.with_db
         (TerrainStorageEngine.with_cache e (TerrainStorageEngine.cache_ e'))
         (TerrainStorageEngine.db_manager_ e').
Proof.
  revert e. induction cs as [|cl cs IH]; intros e.
  - cbn. split; [done|]. by destruct e.
  - cbn [after_calls foldl]. fold (after_calls (after_call e cl) cs).
    destruct (after_call_store e cl) as [Hdb Hfr].
    destruct (IH (after_call e cl)) as [Hdb' Hfr'].
    cbn zeta in *.
    set (e1 := after_call e cl) in *. set (e2 := after_calls e1 cs) in *.
    assert (foldl (write_point e1) (TerrainStorageEngine.db_manager_ e1) (cs ≫= writes_of e1)
            = foldl (write_point e) (TerrainStorageEngine.db_manager_ e1) (cs ≫= writes_of e))
      as Hw.
    { rewrite Hfr at 1 3. apply writes_frame. }
    split.
    + rewrite Hdb', Hw, Hdb. cbn [mbind list_bind]. by rewrite foldl_app.
    + rewrite Hfr' at 1. rewrite Hfr at 1. reflexivity.
Qed.

Lemma writes_keep_keys e ps db key :
  is_Some (db !! key) -> is_Some (foldl (write_point e) db ps !! key).
Proof.
  revert db. induction ps as [|p ps IH]; intros db Hk; [done|].
  cbn [foldl]. apply IH. unfold write_point.
  destruct (decide (keyOf e p.1.1 p.1.2 = key)) as [->|Hne].
  - rewrite lookup_insert_eq. eauto.
  - by rewrite lookup_insert_ne.
Qed.

(** X5: after any sequence of calls the store is the initial store with the
    accepted writes applied in order (the point of each [put] within the
    bounds, the points of each [batchPut] whose points are all within the
    bounds); [get], [rangeQuery], [preloadGrid], [evictGridFromCache],
    [clearCache], a [put] out of bounds and a [batchPut] that throws write
    nothing, no call removes a key, and no call changes the bounds or the
    cell size. *)
Theorem store_after_calls e cs :
  let e' := after_calls e cs in
  TerrainStorageEngine.db_manager_ e'
  = foldl (write_point e) (TerrainStorageEngine.db_manager_ e) (cs ≫= writes_of e) /\
  (forall key, is_Some (TerrainStorageEngine.db_manager_ e !! key) ->
               is_Some (TerrainStorageEngine.db_manager_ e' !! key)) /\
  e' = TerrainStorageEngine.with_db
         (TerrainStorageEngine.with_cache e (TerrainStorageEngine.cache_ e'))
         (TerrainStorageEngine.db_manager_ e').
Proof.
  destruct (after_calls_store e cs) as [Hdb Hfr]. cbn zeta in *.
  split; [exact Hdb|]. split; [|exact Hfr].
  intros key Hk. rewrite Hdb. by apply writes_keep_keys.
Qed.

(** *** The cache stays well formed *)

Lemma wf_cache_get c id :
  wf c ->
  wf (GridLRUCache.get c id).2 /\
  GridLRUCache.capacity_ (GridLRUCache.get c id).2 = GridLRUCache.capacity_ c.
Proof.
  intros Hwf. destruct (GridLRUCache.cache_map_ c !! id) as [item|] eqn:Hit.
  - by destruct (get_hit c id item Hwf Hit) as (_ & ? & _ & _ & ?).
  - by rewrite get_miss.
Qed.

Lemma wf_update_data c id key value :
  wf c ->
  wf (GridLRUCache.update_data c id key value) /\
  GridLRUCache.capacity_ (GridLRUCache.update_data c id key value)
  = GridLRUCache.capacity_ c.
Proof.
  intros [Hnd Hdom Hcap Hpos]. split; [|done]. split; cbn; try done.
  intros x. rewrite Hdom. rewrite lookup_alter.
  case_decide; [subst|done]. by rewrite fmap_is_Some.
Qed.

Lemma wf_remove c id :
  wf c ->
  wf (GridLRUCache.remove c id) /\
  GridLRUCache.capacity_ (GridLRUCache.remove c id) = GridLRUCache.capacity_ c.
Proof.
  intros Hwf. unfold GridLRUCache.remove.
  destruct (GridLRUCache.cache_map_ c !! id) as [item|] eqn:Hit; [|done].
  destruct Hwf as [Hnd Hdom Hcap Hpos]. split; [|done]. split; cbn.
  - rewrite erase_filter by done. by apply NoDup_filter.
  - intros x. rewrite erase_filter by done. rewrite list_elem_of_filter, Hdom.
    destruct (decide (x = id)) as [->|Hne].
    + rewrite lookup_delete_eq. split; [by intros [? _]|by intros [? ?]].
    + rewrite lookup_delete_ne by done. tauto.
  - rewrite erase_filter by done. pose proof (length_filter (fun x => x ≠ id) (GridLRUCache.access_list_ c)). lia.
  - done.
Qed.

Lemma wf_clear c :
  wf c -> wf (GridLRUCache.clear c).
Proof.
  intros [Hnd Hdom Hcap Hpos]. split; cbn; [constructor| |lia|done].
  intros x. rewrite lookup_empty, elem_of_nil. split; [done|by intros [? ?]].
Qed.

Lemma wf_put_engine e lon lat value :
  wf (TerrainStorageEngine.cache_ e) ->
  wf (TerrainStorageEngine.cache_ (TerrainStorageEngine.put e lon lat value).2) /\
  GridLRUCache.capacity_ (TerrainStorageEngine.cache_ (TerrainStorageEngine.put e lon lat value).2)
  = GridLRUCache.capacity_ (TerrainStorageEngine.cache_ e).
Proof.
  intros Hwf. unfold TerrainStorageEngine.put.
  destruct (negb (TerrainStorageEngine.isWithinBounds e lon lat)); [done|].
  pose proof (wf_cache_get (TerrainStorageEngine.cache_ e)
                (TerrainStorageEngine.computeGridId e lon lat) Hwf) as [Hwf1 Hc1].
  destruct (GridLRUCache.get (TerrainStorageEngine.cache_ e) _) as [[item|] c1]; cbn in *.
  - destruct (wf_update_data c1 (TerrainStorageEngine.computeGridId e lon lat)
                (TerrainStorageEngine.generateKey lon lat
                   (TerrainStorageEngine.computeGridId e lon lat)) value Hwf1) as [? ?].
    split; [done|congruence].
  - done.
Qed.

Lemma wf_puts points : forall e,
  wf (TerrainStorageEngine.cache_ e) ->
  wf (TerrainStorageEngine.cache_ (puts e points)) /\
  GridLRUCache.capacity_ (TerrainStorageEngine.cache_ (puts e points))
  = GridLRUCache.capacity_ (TerrainStorageEngine.cache_ e).
Proof.
  induction points as [|[[lon lat] v] points IH]; intros e Hwf; [done|].
  cbn [puts foldl fst snd].
  fold (puts (TerrainStorageEngine.put e lon lat v).2 points).
  destruct (wf_put_engine e lon lat v Hwf) as [Hwf1 Hc1].
  destruct (IH _ Hwf1) as [Hwf2 Hc2]. split; [done|congruence].
Qed.

Lemma wf_loadGridToCache e grid_id :
  wf (TerrainStorageEngine.cache_ e) ->
  wf (TerrainStorageEngine.cache_ (TerrainStorageEngine.loadGridToCache e grid_id).2) /\
  GridLRUCache.capacity_
    (TerrainStorageEngine.cache_ (TerrainStorageEngine.loadGridToCache e grid_id).2)
  = GridLRUCache.capacity_ (TerrainStorageEngine.cache_ e).
Proof.
  intros Hwf. destruct (loadGridToCache_spec e grid_id) as (item & -> & _). cbn.
  by destruct (put_spec _ grid_id item Hwf) as (? & _ & _ & _ & ?).
Qed.

Lemma wf_get_engine e lon lat :
  wf (TerrainStorageEngine.cache_ e) ->
  wf (TerrainStorageEngine.cache_ (TerrainStorageEngine.get e lon lat).2) /\
  GridLRUCache.capacity_ (TerrainStorageEngine.cache_ (TerrainStorageEngine.get e lon lat).2)
  = GridLRUCache.capacity_ (TerrainStorageEngine.cache_ e).
Proof.
  intros Hwf. unfold TerrainStorageEngine.get.
  destruct (negb (TerrainStorageEngine.isWithinBounds e lon lat)); [done|].
  pose proof (wf_cache_get (TerrainStorageEngine.cache_ e)
                (TerrainStorageEngine.computeGridId e lon lat) Hwf) as [Hwf1 Hc1].
  destruct (GridLRUCache.get (TerrainStorageEngine.cache_ e) _) as [cached c1].
  cbn [fst snd] in *.
  destruct (cached ≫= _); [done|].
  pose proof (wf_loadGridToCache (TerrainStorageEngine.with_cache e c1)
                (TerrainStorageEngine.computeGridId e lon lat) Hwf1) as [Hwf2 Hc2].
  cbn [TerrainStorageEngine.cache_ TerrainStorageEngine.with_cache] in Hc2.
  destruct (LevelDBManager.get _ _) as [val|]; destruct cached as [item|]; cbn [snd];
    try done; try (split; [done|congruence]).
  destruct (wf_update_data c1 (TerrainStorageEngine.computeGridId e lon lat)
              (TerrainStorageEngine.generateKey lon lat
                 (TerrainStorageEngine.computeGridId e lon lat)) val Hwf1) as [? ?].
  cbn. split; [done|congruence].
Qed.

Lemma wf_after_call e cl :
  wf (TerrainStorageEngine.cache_ e) ->
  wf (TerrainStorageEngine.cache_ (after_call e cl)) /\
  GridLRUCache.capacity_ (TerrainStorageEngine.cache_ (after_call e cl))
  = GridLRUCache.capacity_ (TerrainStorageEngine.cache_ e).
Proof.
  intros Hwf.
  destruct cl as [lon lat v|lon lat|points|a b c d|id|id|]; cbn [after_call].
  - by apply wf_put_engine.
  - by apply wf_get_engine.
  - rewrite batchPut_cache. by apply wf_puts.
  - rewrite rangeQuery_query_cells.
    destruct (query_cells_spec a b c d
                (TerrainStorageEngine.covered_cells e a b c d) e []) as (_ & _ & H).
    by destruct (H Hwf) as (? & ? & _).
  - by apply wf_loadGridToCache.
  - by apply wf_remove.
  - split; [by apply wf_clear|done].
Qed.

Lemma wf_after_calls cs : forall e,
  wf (TerrainStorageEngine.cache_ e) ->
  wf (TerrainStorageEngine.cache_ (after_calls e cs)) /\
  GridLRUCache.capacity_ (TerrainStorageEngine.cache_ (after_calls e cs))
  = GridLRUCache.capacity_ (TerrainStorageEngine.cache_ e).
Proof.
  induction cs as [|cl cs IH]; intros e Hwf; [done|].
  cbn [after_calls foldl]. fold (after_calls (after_call e cl) cs).
  destruct (wf_after_call e cl Hwf) as [Hwf1 Hc1].
  destruct (IH _ Hwf1) as [Hwf2 Hc2]. split; [done|congruence].
Qed.

(** X6: from a well-formed cache, after any sequence of calls (those that
    throw included) the number of resident cells is at most the capacity,
    which never changes; the access list holds the resident ids, once
    each. *)
Theorem cache_within_capacity e cs :
  wf (TerrainStorageEngine.cache_ e) ->
  let e' := after_calls e cs in
  TerrainStorageEngine.getCacheSize e' <= GridLRUCache.capacity_ (TerrainStorageEngine.cache_ e) /\
  GridLRUCache.capacity_ (TerrainStorageEngine.cache_ e')
  = GridLRUCache.capacity_ (TerrainStorageEngine.cache_ e) /\
  TerrainStorageEngine.getCacheSize e'
  = length (GridLRUCache.access_list_ (TerrainStorageEngine.cache_ e')) /\
  NoDup (GridLRUCache.access_list_ (TerrainStorageEngine.cache_ e')) /\
  (forall id, id ∈ GridLRUCache.access_list_ (TerrainStorageEngine.cache_ e')
              <-> is_Some (GridLRUCache.cache_map_ (TerrainStorageEngine.cache_ e') !! id)).
Proof.
  intros Hwf e'. destruct (wf_after_calls cs e Hwf) as [Hwf' Hc]. fold e' in Hwf', Hc.
  pose proof (wf_size _ Hwf') as Hsize.
  destruct Hwf' as [Hnd Hdom Hcap Hpos].
  unfold TerrainStorageEngine.getCacheSize, GridLRUCache.size.
  rewrite Hsize. repeat split; try done; try lia; by apply Hdom.
Qed.

(** *** Resident cells mirror the store *)

Lemma put_resident c id item id' :
  is_Some (GridLRUCache.cache_map_ (GridLRUCache.put c id item) !! id') ->
  id' = id \/ is_Some (GridLRUCache.cache_map_ c !! id').
Proof.
  intros [x Hx]. destruct (decide (id' = id)) as [->|Hne]; [by left|right].
  exists x. by eapply put_lookup_ne.
Qed.

Lemma update_data_resident c id key value id' :
  is_Some (GridLRUCache.cache_map_ (GridLRUCache.update_data c id key value) !! id')
  <-> is_Some (GridLRUCache.cache_map_ c !! id').
Proof.
  cbn. rewrite lookup_alter. case_decide; [subst|done]. by rewrite fmap_is_Some.
Qed.

Lemma put_ids e lon lat value :
  (forall id, is_Some (GridLRUCache.cache_map_ (TerrainStorageEngine.cache_ e) !! id) ->
              Num.find_char "|" id = None) ->
  forall id,
    is_Some (GridLRUCache.cache_map_
               (TerrainStorageEngine.cache_ (TerrainStorageEngine.put e lon lat value).2) !! id) ->
    Num.find_char "|" id = None.
Proof.
  intros Hids id. unfold TerrainStorageEngine.put.
  destruct (negb (TerrainStorageEngine.isWithinBounds e lon lat)); [apply Hids|].
  pose proof (cache_get_lookup (TerrainStorageEngine.cache_ e)
                (TerrainStorageEngine.computeGridId e lon lat)) as [_ Hmap].
  destruct (GridLRUCache.get (TerrainStorageEngine.cache_ e) _) as [[item|] c1];
    cbn [fst snd TerrainStorageEngine.cache_ TerrainStorageEngine.with_cache
         TerrainStorageEngine.with_db] in *.
  - rewrite update_data_resident, Hmap. apply Hids.
  - rewrite Hmap. apply Hids.
Qed.

Lemma loadGridToCache_ids e grid_id :
  (forall id, is_Some (GridLRUCache.cache_map_ (TerrainStorageEngine.cache_ e) !! id) ->
              Num.find_char "|" id = None) ->
  Num.find_char "|" grid_id = None ->
  forall id,
    is_Some (GridLRUCache.cache_map_
               (TerrainStorageEngine.cache_
                  (TerrainStorageEngine.loadGridToCache e grid_id).2) !! id) ->
    Num.find_char "|" id = None.
Proof.
  intros Hids Hg id. destruct (loadGridToCache_spec e grid_id) as (item & -> & _).
  cbn. intros [->|?]%put_resident; auto.
Qed.

Lemma get_ids e lon lat :
  (forall id, is_Some (GridLRUCache.cache_map_ (TerrainStorageEngine.cache_ e) !! id) ->
              Num.find_char "|" id = None) ->
  forall id,
    is_Some (GridLRUCache.cache_map_
               (TerrainStorageEngine.cache_ (TerrainStorageEngine.get e lon lat).2) !! id) ->
    Num.find_char "|" id = None.
Proof.
  intros Hids id. unfold TerrainStorageEngine.get.
  destruct (negb (TerrainStorageEngine.isWithinBounds e lon lat)); [apply Hids|].
  pose proof (cache_get_lookup (TerrainStorageEngine.cache_ e)
                (TerrainStorageEngine.computeGridId e lon lat)) as [_ Hmap].
  destruct (GridLRUCache.get (TerrainStorageEngine.cache_ e) _) as [cached c1].
  cbn [fst snd] in *.
  assert (forall id0,
            is_Some (GridLRUCache.cache_map_
              (TerrainStorageEngine.cache_ (TerrainStorageEngine.with_cache e c1)) !! id0) ->
            Num.find_char "|" id0 = None) as Hids1.
  { intros id0. cbn. rewrite Hmap. apply Hids. }
  destruct (cached ≫= _); [apply Hids1|].
  destruct (LevelDBManager.get _ _) as [val|]; destruct cached as [item|]; cbn [snd].
  - cbn [TerrainStorageEngine.cache_ TerrainStorageEngine.with_cache].
    rewrite update_data_resident. apply Hids1.
  - apply loadGridToCache_ids; [done|apply find_bar_formatGridId].
  - apply Hids1.
  - apply loadGridToCache_ids; [done|apply find_bar_formatGridId].
Qed.

Lemma processGrid_ids e grid_id x1 y1 x2 y2 :
  (forall id, is_Some (GridLRUCache.cache_map_ (TerrainStorageEngine.cache_ e) !! id) ->
              Num.find_char "|" id = None) ->
  Num.find_char "|" grid_id = None ->
  forall id,
    is_Some (GridLRUCache.cache_map_
               (TerrainStorageEngine.cache_
                  (TerrainStorageEngine.processGrid e grid_id x1 y1 x2 y2).2) !! id) ->
    Num.find_char "|" id = None.
Proof.
  intros Hids Hg id. unfold TerrainStorageEngine.processGrid.
  pose proof (cache_get_lookup (TerrainStorageEngine.cache_ e) grid_id) as [_ Hmap].
  destruct (GridLRUCache.get (TerrainStorageEngine.cache_ e) grid_id) as [cached c1].
  cbn [fst snd] in *.
  assert (forall id0,
            is_Some (GridLRUCache.cache_map_
              (TerrainStorageEngine.cache_ (TerrainStorageEngine.with_cache e c1)) !! id0) ->
            Num.find_char "|" id0 = None) as Hids1.
  { intros id0. cbn. rewrite Hmap. apply Hids. }
  destruct cached as [item|].
  - cbn [snd]. apply Hids1.
  - pose proof (loadGridToCache_ids (TerrainStorageEngine.with_cache e c1) grid_id Hids1 Hg id)
      as Hload.
    destruct (TerrainStorageEngine.loadGridToCache (TerrainStorageEngine.with_cache e c1) grid_id)
      as [[item|] e1]; exact Hload.
Qed.

Lemma query_cells_ids x1 y1 x2 y2 cells : forall e acc,
  (forall id, is_Some (GridLRUCache.cache_map_ (TerrainStorageEngine.cache_ e) !! id) ->
              Num.find_char "|" id = None) ->
  Forall (fun id => Num.find_char "|" id = None) cells ->
  forall id,
    is_Some (GridLRUCache.cache_map_
               (TerrainStorageEngine.cache_ (query_cells e x1 y1 x2 y2 acc cells).2) !! id) ->
    Num.find_char "|" id = None.
Proof.
  induction cells as [|g cells IH]; intros e acc Hids Hcells; [done|].
  apply Forall_cons in Hcells as [Hg Hcells].
  unfold query_cells. cbn [foldl fst snd].
  pose proof (processGrid_ids e g x1 y1 x2 y2 Hids Hg) as H1.
  destruct (TerrainStorageEngine.processGrid e g x1 y1 x2 y2) as [calls e1].
  apply (IH e1 (acc ++ calls)%list); done.
Qed.

Lemma covered_cells_ids e x1 y1 x2 y2 :
  Forall (fun id => Num.find_char "|" id = None)
         (TerrainStorageEngine.covered_cells e x1 y1 x2 y2).
Proof.
  apply Forall_forall. intros id. unfold TerrainStorageEngine.covered_cells. cbn zeta.
  intros (row & (col & ->%list_elem_of_singleton & _)%list_elem_of_bind & _)%list_elem_of_bind.
  apply find_bar_formatGridId.
Qed.

Lemma puts_mirror points : forall e,
  coherent e ->
  (forall id, is_Some (GridLRUCache.cache_map_ (TerrainStorageEngine.cache_ e) !! id) ->
              Num.find_char "|" id = None) ->
  coherent (puts e points) /\
  (forall id, is_Some (GridLRUCache.cache_map_ (TerrainStorageEngine.cache_ (puts e points)) !! id) ->
              Num.find_char "|" id = None).
Proof.
  induction points as [|[[lon lat] v] points IH]; intros e Hco Hids; [done|].
  cbn [puts foldl fst snd].
  fold (puts (TerrainStorageEngine.put e lon lat v).2 points).
  apply IH; [by apply put_coherent|by apply put_ids].
Qed.

Lemma after_call_mirror e cl :
  mirror_safe e cl = true ->
  coherent e ->
  (forall id, is_Some (GridLRUCache.cache_map_ (TerrainStorageEngine.cache_ e) !! id) ->
              Num.find_char "|" id = None) ->
  coherent (after_call e cl) /\
  (forall id, is_Some (GridLRUCache.cache_map_ (TerrainStorageEngine.cache_ (after_call e cl)) !! id) ->
              Num.find_char "|" id = None).
Proof.
  intros Hsafe Hco Hids.
  destruct cl as [lon lat v|lon lat|points|a b c d|gid|gid|]; cbn [after_call mirror_safe] in *.
  - split; [by apply put_coherent|by apply put_ids].
  - split; [by apply get_coherent|by apply get_ids].
  - rewrite batchPut_within by done.
    by apply puts_mirror.
  - split; [by apply rangeQuery_coherent|].
    rewrite rangeQuery_query_cells. apply query_cells_ids; [done|apply covered_cells_ids].
  - split; [by apply preloadGrid_coherent|].
    apply loadGridToCache_ids; [done|]. by destruct (Num.find_char "|" gid).
  - split; [by apply evict_coherent|].
    intros id. unfold TerrainStorageEngine.evictGridFromCache, GridLRUCache.remove. cbn.
    destruct (GridLRUCache.cache_map_ (TerrainStorageEngine.cache_ e) !! gid); cbn.
    + intros [x [_ Hx]%lookup_delete_Some]. apply Hids. eauto.
    + apply Hids.
  - split; [apply clearCache_coherent|]. intros id. cbn. rewrite lookup_empty.
    by intros [? ?].
Qed.

Lemma after_calls_mirror cs : forall e,
  forallb (mirror_safe e) cs = true ->
  coherent e ->
  (forall id, is_Some (GridLRUCache.cache_map_ (TerrainStorageEngine.cache_ e) !! id) ->
              Num.find_char "|" id = None) ->
  coherent (after_calls e cs).
Proof.
  induction cs as [|cl cs IH]; intros e Hsafe Hco Hids; [done|].
  cbn [forallb] in Hsafe. apply andb_true_iff in Hsafe as [Hcl Hsafe].
  cbn [after_calls foldl]. fold (after_calls (after_call e cl) cs).
  destruct (after_call_mirror e cl Hcl Hco Hids) as [Hco1 Hids1].
  apply IH; [|done|done].
  destruct (after_call_store e cl) as [_ Hfr]. cbn zeta in Hfr. rewrite Hfr.
  exact Hsafe.
Qed.

(** What [get] returns on an engine whose resident cells mirror the store. *)
Lemma get_result e lon lat :
  coherent e ->
  (TerrainStorageEngine.get e lon lat).1
  = if TerrainStorageEngine.isWithinBounds e lon lat
    then TerrainStorageEngine.db_manager_ e !! keyOf e lon lat
    else None.
Proof.
  intros Hco. unfold TerrainStorageEngine.get.
  destruct (TerrainStorageEngine.isWithinBounds e lon lat); [|done]. cbn [negb].
  fold (keyOf e lon lat).
  set (gid := TerrainStorageEngine.computeGridId e lon lat).
  assert (TerrainStorageEngine.generateKey lon lat gid = keyOf e lon lat) as Hkey by done.
  rewrite ?Hkey.
  pose proof (cache_get_lookup (TerrainStorageEngine.cache_ e) gid) as [Hitem _].
  destruct (GridLRUCache.get (TerrainStorageEngine.cache_ e) gid) as [cached c1].
  cbn [fst snd] in *.
  destruct (cached ≫= (fun it => data it !! keyOf e lon lat)) as [value|] eqn:Hhit.
  - cbn [fst]. destruct cached as [item|]; [|done]. cbn in Hhit.
    rewrite (Hco gid item) in Hhit by done.
    apply map_lookup_filter_Some in Hhit as [Hdb _]. by rewrite Hdb.
  - cbn [TerrainStorageEngine.db_manager_ TerrainStorageEngine.with_cache].
    unfold LevelDBManager.get.
    destruct (TerrainStorageEngine.db_manager_ e !! keyOf e lon lat) as [value|] eqn:Hdb;
      by destruct cached.
Qed.

(** X7: on a constructed engine, after any sequence of calls without a
    throwing [batchPut] and without a [preloadGrid] of an id that holds
    ['|'], every resident cell mirrors the store, and [get] of a point
    within the bounds returns the value of the last accepted write under the
    point's key (or the value the store held at construction, or nothing),
    whatever the cache holds; out of bounds it returns nothing. *)
Theorem get_after_calls db min_lon min_lat max_lon max_lat grid_size cap e cs lon lat :
  TerrainStorageEngine.new db min_lon min_lat max_lon max_lat grid_size cap = Ok e ->
  forallb (mirror_safe e) cs = true ->
  let e' := after_calls e cs in
  coherent e' /\
  (TerrainStorageEngine.get e' lon lat).1
  = if TerrainStorageEngine.isWithinBounds e lon lat
    then foldl (write_point e) db (cs ≫= writes_of e) !! keyOf e lon lat
    else None.
Proof.
  intros Hnew Hsafe e'.
  assert (coherent e') as Hco'.
  { apply after_calls_mirror; [done|by eapply coherent_new|].
    unfold TerrainStorageEngine.new in Hnew.
    destruct (Qle_bool grid_size 0); [done|]. injection Hnew as <-.
    intros id. cbn. rewrite lookup_empty. by intros [? ?]. }
  split; [done|]. rewrite get_result by done.
  destruct (after_calls_store e cs) as [Hdb Hfr]. cbn zeta in Hdb, Hfr. fold e' in Hdb, Hfr.
  assert (TerrainStorageEngine.db_manager_ e = db) as Hdb0.
  { unfold TerrainStorageEngine.new in Hnew.
    destruct (Qle_bool grid_size 0); [done|]. by injection Hnew as <-. }
  assert (TerrainStorageEngine.isWithinBounds e' lon lat
          = TerrainStorageEngine.isWithinBounds e lon lat) as -> by (by rewrite Hfr).
  assert (keyOf e' lon lat = keyOf e lon lat) as -> by (by rewrite Hfr).
  by rewrite Hdb, Hdb0.
Qed.

(** X8: on an engine whose resident cells mirror the store, [get] of a
    point within the bounds returns what the store holds under the point's
    key, leaves the store as it is, and leaves the cell of the point resident,
    most recently used, with the whole content of the cell. *)
Theorem get_loads_cell e lon lat :
  coherent e ->
  TerrainStorageEngine.isWithinBounds e lon lat = true ->
  let r := TerrainStorageEngine.get e lon lat in
  let grid_id := TerrainStorageEngine.computeGridId e lon lat in
  r.1 = TerrainStorageEngine.db_manager_ e !! keyOf e lon lat /\
  TerrainStorageEngine.db_manager_ r.2 = TerrainStorageEngine.db_manager_ e /\
  head (GridLRUCache.access_list_ (TerrainStorageEngine.cache_ r.2)) = Some grid_id /\
  exists item,
    GridLRUCache.cache_map_ (TerrainStorageEngine.cache_ r.2) !! grid_id = Some item /\
    data item = cell_scan (TerrainStorageEngine.db_manager_ e) grid_id.
Proof.
  intros Hco Hb r grid_id.
  assert (TerrainStorageEngine.db_manager_ r.2 = TerrainStorageEngine.db_manager_ e) as Hdb.
  { subst r. by rewrite get_frame. }
  split; [subst r; rewrite get_result by done; by rewrite Hb|].
  split; [done|].
  pose proof (get_coherent e lon lat Hco) as Hco'. fold r in Hco'.
  assert (head (GridLRUCache.access_list_ (TerrainStorageEngine.cache_ r.2)) = Some grid_id /\
          is_Some (GridLRUCache.cache_map_ (TerrainStorageEngine.cache_ r.2) !! grid_id))
    as [Hhead [item Hitem]].
  { subst r. unfold TerrainStorageEngine.get. rewrite Hb. cbn [negb]. fold grid_id.
    unfold GridLRUCache.get.
    destruct (GridLRUCache.cache_map_ (TerrainStorageEngine.cache_ e) !! grid_id)
      as [item|] eqn:Hit; cbn [mbind option_bind].
    - destruct (data item !! _) as [value|]; cbn [snd].
      + cbn. rewrite Hit. eauto.
      + destruct (LevelDBManager.get _ _) as [val|]; cbn.
        * rewrite lookup_alter_eq, Hit. cbn. eauto.
        * rewrite Hit. eauto.
    - assert (forall e0,
                head (GridLRUCache.access_list_
                        (TerrainStorageEngine.cache_
                           (TerrainStorageEngine.loadGridToCache e0 grid_id).2))
                = Some grid_id /\
                is_Some (GridLRUCache.cache_map_
                           (TerrainStorageEngine.cache_
                              (TerrainStorageEngine.loadGridToCache e0 grid_id).2)
                         !! grid_id)) as Hload.
      { intros e0. destruct (loadGridToCache_spec e0 grid_id) as (it & -> & _).
        cbn [snd TerrainStorageEngine.cache_ TerrainStorageEngine.with_cache].
        rewrite put_lookup_eq. split; [|eauto].
        unfold GridLRUCache.put. by repeat case_match. }
      destruct (LevelDBManager.get _ _) as [val|]; cbn [snd]; apply Hload. }
  split; [done|]. exists item. split; [done|]. rewrite <- Hdb. by apply Hco'.
Qed.

Lemma get_loads_cell_witness :
  coherent beijing /\
  TerrainStorageEngine.isWithinBounds beijing 116.402 39.901 = true /\
  TerrainStorageEngine.getCacheSize beijing = 0%nat /\
  GridLRUCache.access_list_
    (TerrainStorageEngine.cache_ (TerrainStorageEngine.get beijing 116.402 39.901).2)
  = ["G_090_040"].
Proof.
  assert (coherent beijing) as Hco by (by apply coherent_empty_cache).
  split; [exact Hco|]. split; [reflexivity|]. split; [reflexivity|].
  destruct (get_loads_cell beijing 116.402%Q 39.901%Q Hco eq_refl) as (_ & _ & Hhead & _).
  destruct (GridLRUCache.access_list_ _) as [|x l] eqn:Hl; [done|].
  cbn in Hhead. injection Hhead as ->.
  vm_compute in Hl. by injection Hl as <-.
Defined.

Lemma remove_spec c id :
  wf c ->
  GridLRUCache.cache_map_ (GridLRUCache.remove c id) !! id = None /\
  (forall id', id' ≠ id ->
     GridLRUCache.cache_map_ (GridLRUCache.remove c id) !! id'
     = GridLRUCache.cache_map_ c !! id') /\
  GridLRUCache.access_list_ (GridLRUCache.remove c id)
  = filter (fun id' => id' ≠ id) (GridLRUCache.access_list_ c) /\
  length (GridLRUCache.access_list_ c)
  = (length (GridLRUCache.access_list_ (GridLRUCache.remove c id))
     + if bool_decide (id ∈ GridLRUCache.access_list_ c) then 1 else 0)%nat.
Proof.
  intros [Hnd Hdom Hcap Hpos]. unfold GridLRUCache.remove.
  destruct (GridLRUCache.cache_map_ c !! id) as [item|] eqn:Hit;
    cbn [GridLRUCache.cache_map_ GridLRUCache.access_list_].
  - assert (id ∈ GridLRUCache.access_list_ c) as Hin by (apply Hdom; eauto).
    rewrite bool_decide_eq_true_2 by done. rewrite erase_filter by done.
    split; [apply lookup_delete_eq|].
    split; [intros id' Hne; by apply lookup_delete_ne|].
    split; [done|].
    pose proof (length_touch_in id _ Hnd Hin) as Hlen. unfold touch in Hlen.
    cbn in Hlen. lia.
  - assert (id ∉ GridLRUCache.access_list_ c) as Hnin.
    { rewrite Hdom, Hit. by intros [? ?]. }
    rewrite bool_decide_eq_false_2 by done.
    split; [done|]. split; [done|]. split; [by rewrite filter_ne_notin|lia].
Qed.

(** X9: [evictGridFromCache] removes the cell and nothing else: the other
    resident cells keep their items and their order, the size drops by one
    exactly when the cell was resident (an absent id is no error), and the
    store is untouched. *)
Theorem evict_removes_cell e grid_id :
  wf (TerrainStorageEngine.cache_ e) ->
  let e' := TerrainStorageEngine.evictGridFromCache e grid_id in
  GridLRUCache.cache_map_ (TerrainStorageEngine.cache_ e') !! grid_id = None /\
  (forall id, id ≠ grid_id ->
     GridLRUCache.cache_map_ (TerrainStorageEngine.cache_ e') !! id
     = GridLRUCache.cache_map_ (TerrainStorageEngine.cache_ e) !! id) /\
  GridLRUCache.access_list_ (TerrainStorageEngine.cache_ e')
  = filter (fun id => id ≠ grid_id) (GridLRUCache.access_list_ (TerrainStorageEngine.cache_ e)) /\
  TerrainStorageEngine.getCacheSize e
  = (TerrainStorageEngine.getCacheSize e'
     + if bool_decide (grid_id ∈ GridLRUCache.access_list_ (TerrainStorageEngine.cache_ e))
       then 1 else 0)%nat /\
  TerrainStorageEngine.db_manager_ e' = TerrainStorageEngine.db_manager_ e /\
  wf (TerrainStorageEngine.cache_ e').
Proof.
  intros Hwf e'. pose proof (wf_remove _ grid_id Hwf) as [Hwf' _].
  destruct (remove_spec _ grid_id Hwf) as (H1 & H2 & H3 & H4).
  assert (TerrainStorageEngine.getCacheSize e'
          = length (GridLRUCache.access_list_ (TerrainStorageEngine.cache_ e'))) as ->.
  { apply (wf_size _ Hwf'). }
  assert (TerrainStorageEngine.getCacheSize e
          = length (GridLRUCache.access_list_ (TerrainStorageEngine.cache_ e))) as ->.
  { apply (wf_size _ Hwf). }
  done.
Qed.

Lemma evict_removes_cell_witness :
  wf (TerrainStorageEngine.cache_ beijing_p1) /\
  TerrainStorageEngine.getCacheSize beijing_p1 = 9%nat /\
  TerrainStorageEngine.getCacheSize
    (TerrainStorageEngine.evictGridFromCache beijing_p1 "G_090_040") = 8%nat.
Proof.
  assert (wf (TerrainStorageEngine.cache_ beijing_p1)) as Hwf.
  { exact (proj1 (wf_after_calls
                    [CallPut 116.402 39.901 "p1";
                     CallRangeQuery 116.395 39.895 116.415 39.915]
                    beijing (wf_new 500))). }
  split; [exact Hwf|].
  destruct (evict_removes_cell beijing_p1 "G_090_040" Hwf) as (_ & _ & _ & Hsize & _).
  assert (TerrainStorageEngine.getCacheSize beijing_p1 = 9%nat) as H9 by (vm_compute; reflexivity).
  split; [exact H9|].
  rewrite H9 in Hsize.
  rewrite bool_decide_eq_true_2 in Hsize by (vm_compute; repeat constructor).
  lia.
Defined.

Lemma cache_within_capacity_witness :
  let small := engine_of (TerrainStorageEngine.new ∅ 116 39 117.5 41 0.01 2) in
  wf (TerrainStorageEngine.cache_ small) /\
  TerrainStorageEngine.getCacheSize
    (after_calls small [CallRangeQuery 116.395 39.895 116.415 39.915;
                        CallGet 116.402 39.901]) <= 2.
Proof.
  intros small.
  assert (wf (TerrainStorageEngine.cache_ small)) as Hwf by exact (wf_new 2).
  split; [exact Hwf|].
  exact (proj1 (cache_within_capacity small
                  [CallRangeQuery 116.395 39.895 116.415 39.915; CallGet 116.402 39.901]
                  Hwf)).
Defined.

Lemma get_after_calls_witness :
  TerrainStorageEngine.new ∅ 116 39 117.5 41 0.01 500 = Ok beijing /\
  (TerrainStorageEngine.get
     (after_calls beijing
        [CallPut 116.402 39.901 "p1"; CallRangeQuery 116.395 39.895 116.415 39.915;
         CallPut 116.402 39.901 "p2"; CallPut 118 39.9 "x"; CallClearCache])
     116.402 39.901).1 = Some "p2".
Proof.
  split; [reflexivity|].
  destruct (get_after_calls ∅ 116 39 117.5 41 0.01 500 beijing
              [CallPut 116.402 39.901 "p1"; CallRangeQuery 116.395 39.895 116.415 39.915;
               CallPut 116.402 39.901 "p2"; CallPut 118 39.9 "x"; CallClearCache]
              116.402 39.901 eq_refl eq_refl) as [_ ->].
  vm_compute. reflexivity.
Defined.

End engine_calls.

(** ** Keys: text, round trip and order *)

Section key_round_trip.

(** The text [fmt7] writes, for any coordinate. *)
Lemma stod_fmt7_value x :
  let m := Num.round_half_even (Qabs x * (Z.of_N Num.ten7 # 1)) in
  Num.stod (Num.fmt7 x)
  = Some (if Num.Qltb x 0 then Qopp (Z.of_N m # 10000000) else (Z.of_N m # 10000000)).
Proof.
  intros m. unfold Num.fmt7. fold m.
  set (ip := (m / Num.ten7)%N). set (fp := (m mod Num.ten7)%N).
  assert (fp < Num.ten7)%N as Hfp by (apply N.mod_lt; done).
  assert (forall neg s,
    (s = Num.dec ip ++ "." ++ Num.fixed_digits 7 fp) ->
    (let '(ip', ni, s2) := Num.read_digits s 0 0 in
     let '(fp', nf, _) :=
       match s2 with
       | String c r => if Ascii.eqb c "." then Num.read_digits r 0 0 else (0%N, O, s2)
       | "" => (0%N, O, s2)
       end in
     if (ni + nf =? 0)%nat then None
     else
       let mag :=
         (Z.of_N (ip' * 10 ^ N.of_nat nf + fp')
          # N.succ_pos (N.pred (10 ^ N.of_nat nf)))%Q in
       Some (if neg : bool then Qopp mag else mag))
    = Some (if neg then Qopp (Z.of_N m # 10000000) else (Z.of_N m # 10000000))) as Hbody.
  { intros neg s ->. rewrite read_digits_dec.
    rewrite append_cons, append_nil_l. cbn [Num.read_digits].
    change (Num.is_digit ".") with false. cbn iota.
    change (Ascii.eqb "." ".") with true. cbn iota.
    rewrite <- (app_empty_r (Num.fixed_digits 7 fp)), read_digits_fixed.
    cbn [Num.read_digits].
    rewrite N.mod_small by exact Hfp.
    destruct (0 + Num.ndigits ip + (0 + 7) =? 0)%nat eqn:Hz.
    { apply Nat.eqb_eq in Hz. lia. }
    f_equal.
    assert (ip * 10 ^ N.of_nat (0 + 7) + (0 * 10 ^ N.of_nat 7 + fp) = m)%N as ->.
    { change (10 ^ N.of_nat (0 + 7))%N with Num.ten7.
      rewrite N.mul_0_l, N.add_0_l. unfold ip, fp.
      rewrite N.mul_comm. symmetry. apply N.Div0.div_mod. }
    reflexivity. }
  destruct (Num.Qltb x 0).
  - unfold Num.stod. rewrite append_cons, append_nil_l.
    change (Ascii.eqb "-" "-") with true. cbn iota.
    apply (Hbody true). reflexivity.
  - unfold Num.stod. rewrite append_nil_l.
    destruct (dec_head ip) as (c & s & Hc & Hd).
    rewrite Hc, append_cons.
    destruct (is_digit_not_sign c Hd) as (-> & -> & _).
    rewrite <- append_cons, <- Hc.
    apply (Hbody false). reflexivity.
Qed.

(** Rounding to the nearest integer moves a non-negative rational by at
    most one half. *)
Lemma round_half_even_near q :
  (0 <= q)%Q ->
  (Qabs ((Z.of_N (Num.round_half_even q) # 1) - q) <= 1 # 2)%Q.
Proof.
  intros Hq. unfold Num.round_half_even. destruct q as [n d].
  unfold Qle in Hq. cbn in Hq. cbn [Qnum Qden].
  assert (0 <= n)%Z as Hn by lia.
  pose proof (Z.div_mod n (Z.pos d) ltac:(lia)) as Hdm.
  pose proof (Z.mod_pos_bound n (Z.pos d) ltac:(lia)) as Hr.
  assert (0 <= n / Z.pos d)%Z as Hquot by (apply Z.div_pos; lia).
  set (qt := (n / Z.pos d)%Z) in *. set (r := (n mod Z.pos d)%Z) in *.
  assert (forall k : Z, (0 <= k)%Z -> (2 * Z.abs (k * Z.pos d - n) <= Z.pos d)%Z ->
            (Qabs ((Z.of_N (Z.to_N k) # 1) - (n # d)) <= 1 # 2)%Q) as Hgoal.
  { intros k Hk Hle. rewrite Z2N.id by done.
    unfold Qabs, Qminus, Qplus, Qopp, Qle. cbn. lia. }
  destruct (Z.compare_spec (2 * r) (Z.pos d)) as [Heq|Hlt|Hgt].
  - destruct (Z.even qt); apply Hgoal; lia.
  - apply Hgoal; lia.
  - apply Hgoal; lia.
Qed.

Lemma Qltb_neg_abs x : Num.Qltb x 0 = true -> Qabs x == - x.
Proof. intros H%Qltb_lt. apply Qabs_neg. by apply Qlt_le_weak. Qed.

Lemma Qltb_pos_abs x : Num.Qltb x 0 = false -> Qabs x == x.
Proof. intros H%Qltb_ge. by apply Qabs_pos. Qed.

(** What [stod] reads back from the text of a coordinate: the coordinate
    rounded to seven fractional digits. *)
Lemma stod_fmt7_near x :
  exists y,
    Num.stod (Num.fmt7 x) = Some y /\
    seven_digits y /\
    (Qabs (y - x) <= 1 # 20000000)%Q /\
    (seven_digits x -> y == x).
Proof.
  pose proof (stod_fmt7_value x) as Hv. cbn zeta in Hv.
  set (m := Num.round_half_even (Qabs x * (Z.of_N Num.ten7 # 1))) in *.
  pose proof (round_half_even_near (Qabs x * (Z.of_N Num.ten7 # 1))) as Hnear.
  fold m in Hnear.
  assert (0 <= Qabs x * (Z.of_N Num.ten7 # 1))%Q as Hnn.
  { apply Qmult_le_0_compat; [apply Qabs_nonneg|done]. }
  specialize (Hnear Hnn).
  assert (Qabs ((Z.of_N m # 10000000) - Qabs x) <= 1 # 20000000)%Q as Hm.
  { assert ((Z.of_N m # 10000000) - Qabs x
            == ((Z.of_N m # 1) - Qabs x * (Z.of_N Num.ten7 # 1)) * (1 # 10000000))%Q as ->.
    { change (Z.of_N Num.ten7) with 10000000%Z.
      unfold Qeq, Qminus, Qplus, Qmult, Qopp. cbn. destruct (Qabs x) as [a d]. cbn. lia. }
    rewrite Qabs_Qmult. change (Qabs (1 # 10000000)) with (1 # 10000000)%Q.
    change (1 # 20000000)%Q with ((1 # 2) * (1 # 10000000))%Q.
    apply Qmult_le_compat_r; [exact Hnear|done]. }
  eexists. split; [exact Hv|].
  destruct (Num.Qltb x 0) eqn:Hs.
  - pose proof (Qltb_neg_abs x Hs) as Habs.
    split; [exists (- Z.of_N m)%Z; reflexivity|]. split.
    + assert (- (Z.of_N m # 10000000) - x == - ((Z.of_N m # 10000000) - Qabs x))%Q as ->.
      { rewrite Habs. ring. }
      by rewrite Qabs_opp.
    + intros Hx. destruct (stod_fmt7 x Hx) as (y & Hy & Hyx).
      rewrite Hv in Hy. injection Hy as <-. exact Hyx.
  - pose proof (Qltb_pos_abs x Hs) as Habs.
    split; [exists (Z.of_N m); reflexivity|]. split.
    + rewrite Habs in Hm. exact Hm.
    + intros Hx. destruct (stod_fmt7 x Hx) as (y & Hy & Hyx).
      rewrite Hv in Hy. injection Hy as <-. exact Hyx.
Qed.

(** X10: [parseKey] reads back from a key written by [generateKey] (for a
    cell id without ['|']) the two coordinates rounded to seven fractional
    digits: each within 0.00000005 of the coordinate written, and equal to it
    when it has at most seven fractional digits. *)
Theorem parseKey_generateKey lon lat grid_id :
  Num.find_char "|" grid_id = None ->
  exists lon' lat',
    TerrainStorageEngine.parseKey (TerrainStorageEngine.generateKey lon lat grid_id)
    = Some (lon', lat') /\
    seven_digits lon' /\ seven_digits lat' /\
    (Qabs (lon' - lon) <= 1 # 20000000)%Q /\
    (Qabs (lat' - lat) <= 1 # 20000000)%Q /\
    (seven_digits lon -> lon' == lon) /\
    (seven_digits lat -> lat' == lat).
Proof.
  intros Hg. unfold TerrainStorageEngine.generateKey.
  rewrite parseKey_generated by (done || apply find_bar_fmt7).
  destruct (stod_fmt7_near lon) as (lon' & -> & H1 & H2 & H3).
  destruct (stod_fmt7_near lat) as (lat' & -> & H4 & H5 & H6).
  exists lon', lat'. done.
Qed.

Lemma parseKey_generateKey_witness :
  Num.find_char "|" "G_090_040" = None /\
  TerrainStorageEngine.generateKey 116.40000004 39.905 "G_090_040"
  = "G_090_040|116.4000000|39.9050000" /\
  exists lon' lat',
    TerrainStorageEngine.parseKey "G_090_040|116.4000000|39.9050000" = Some (lon', lat') /\
    (Qabs (lon' - 116.40000004) <= 1 # 20000000)%Q /\ lat' == 39.905.
Proof.
  split; [reflexivity|]. split; [reflexivity|].
  destruct (parseKey_generateKey 116.40000004 39.905 "G_090_040" eq_refl)
    as (lon' & lat' & Hp & _ & _ & Hlon & _ & _ & Hlat).
  exists lon', lat'. split; [exact Hp|]. split; [exact Hlon|].
  apply Hlat. exists 399050000%Z. reflexivity.
Defined.



End key_round_trip.

Section cell_ids.

Lemma fill_snoc k c : Num.fill k c ++ String c "" = String c (Num.fill k c).
Proof. induction k as [|k IH]; [done|]. cbn [Num.fill]. by rewrite append_cons, IH. Qed.

Lemma fixed_digits_zero k : Num.fixed_digits k 0 = Num.fill k "0".
Proof.
  induction k as [|k IH]; [done|]. cbn [Num.fixed_digits Num.fill].
  change (0 / 10)%N with 0%N. rewrite IH. apply fill_snoc.
Qed.

Lemma int_text_nonneg z : (0 <= z)%Z -> Num.int_text z = Num.dec (Z.to_N z).
Proof. intros Hz. destruct z; [done|done|lia]. Qed.

(** Reading back the digits of a padded non-negative index. *)
Lemma read_digits_setw w z rest :
  (0 <= z)%Z ->
  exists cnt,
    Num.read_digits (Num.setw_fill0 w z ++ rest) 0 0
    = Num.read_digits rest (Z.to_N z) cnt.
Proof.
  intros Hz. unfold Num.setw_fill0. rewrite int_text_nonneg by done.
  rewrite <- fixed_digits_zero, app_assoc_string, read_digits_fixed.
  rewrite N.mul_0_l, N.Div0.mod_0_l, N.add_0_l.
  rewrite read_digits_dec. eauto.
Qed.

Lemma formatGridId_inj row col row' col' :
  (0 <= row)%Z -> (0 <= col)%Z -> (0 <= row')%Z -> (0 <= col')%Z ->
  TerrainStorageEngine.formatGridId row col = TerrainStorageEngine.formatGridId row' col' ->
  row = row' /\ col = col'.
Proof.
  intros Hr Hc Hr' Hc' Heq. unfold TerrainStorageEngine.formatGridId in Heq.
  rewrite !append_cons, !append_nil_l in Heq. injection Heq as Heq.
  pose proof (f_equal (fun s => Num.read_digits s 0 0) Heq) as Hrd. cbn beta in Hrd.
  destruct (read_digits_setw 3 row (String "_" (Num.setw_fill0 3 col)) Hr) as [k Hk].
  destruct (read_digits_setw 3 row' (String "_" (Num.setw_fill0 3 col')) Hr') as [k' Hk'].
  rewrite Hk, Hk' in Hrd. cbn in Hrd. injection Hrd as Hrow _ Hcol.
  split; [lia|].
  pose proof (f_equal (fun s => Num.read_digits (s ++ "") 0 0) Hcol) as Hrd. cbn beta in Hrd.
  destruct (read_digits_setw 3 col "" Hc) as [j Hj].
  destruct (read_digits_setw 3 col' "" Hc') as [j' Hj'].
  rewrite Hj, Hj' in Hrd. cbn in Hrd. injection Hrd as Hcol' _. lia.
Qed.

(** X12: with a positive cell size, the key of a point lies in the key range
    scanned for the cell [(row, col)] exactly when that is the cell computed
    for the point: a cell load reads the keys of its own cell only, and
    different cells have different ids. *)
Theorem cell_scan_own_keys e lon lat row col :
  (0 < TerrainStorageEngine.grid_size_ e)%Q ->
  (0 <= row)%Z -> (0 <= col)%Z ->
  LevelDBManager.in_range
    (TerrainStorageEngine.start_key (TerrainStorageEngine.formatGridId row col))
    (TerrainStorageEngine.end_key (TerrainStorageEngine.formatGridId row col))
    (keyOf e lon lat) = true
  <-> row = TerrainStorageEngine.latToGridRow e lat /\
      col = TerrainStorageEngine.lonToGridCol e lon.
Proof.
  intros Hg Hrow Hcol. split.
  - intros Hin.
    destruct (decide (TerrainStorageEngine.formatGridId row col
                      = TerrainStorageEngine.computeGridId e lon lat)) as [Heq|Hne].
    + apply formatGridId_inj in Heq; [done|done|done| |].
      * rewrite latToGridRow_cell_index. by apply cell_index_nonneg.
      * rewrite lonToGridCol_cell_index. by apply cell_index_nonneg.
    + unfold keyOf in Hin. rewrite key_outside_other_cell in Hin; [done| | |done];
        apply find_bar_formatGridId.
  - intros [-> ->]. apply generated_key_in_range.
Qed.

Lemma cell_scan_own_keys_witness :
  (0 < TerrainStorageEngine.grid_size_ beijing)%Q /\
  LevelDBManager.in_range "G_090_040|" "G_090_040|~" (keyOf beijing 116.402 39.901) = true /\
  90%Z = TerrainStorageEngine.latToGridRow beijing 39.901 /\
  40%Z = TerrainStorageEngine.lonToGridCol beijing 116.402.
Proof.
  assert (0 < TerrainStorageEngine.grid_size_ beijing)%Q as Hg by reflexivity.
  split; [exact Hg|]. split; [reflexivity|].
  apply (cell_scan_own_keys beijing 116.402 39.901 90 40 Hg); [lia|lia|reflexivity].
Defined.

Lemma fixed_digits_split k : forall j n,
  Num.fixed_digits (j + k) n
  = Num.fixed_digits j (n / 10 ^ N.of_nat k) ++ Num.fixed_digits k n.
Proof.
  induction k as [|k IH]; intros j n.
  - rewrite Nat.add_0_r. cbn [Num.fixed_digits]. change (10 ^ N.of_nat 0)%N with 1%N.
    by rewrite N.div_1_r, app_empty_r.
  - replace (j + S k)%nat with (S (j + k)) by lia. cbn [Num.fixed_digits].
    rewrite IH, app_assoc_string. do 2 f_equal.
    rewrite Nat2N.inj_succ, N.pow_succ_r'.
    rewrite N.Div0.div_div. done.
Qed.

Lemma ndigits_fuel_le f : forall n k,
  (n < 10 ^ N.of_nat (S k))%N -> (Num.ndigits_fuel f n <= S k)%nat.
Proof.
  induction f as [|f IH]; intros n k Hn; [cbn; lia|].
  cbn [Num.ndigits_fuel]. destruct (N.ltb_spec n 10) as [Hlt|Hge]; [lia|].
  destruct k as [|k].
  { change (10 ^ N.of_nat 1)%N with 10%N in Hn. lia. }
  apply le_n_S, IH.
  rewrite Nat2N.inj_succ, N.pow_succ_r' in Hn.
  apply N.Div0.div_lt_upper_bound. lia.
Qed.

(** Below 1000 the padded text of an index is its three digits. *)
Lemma setw_fill0_three z :
  (0 <= z < 1000)%Z -> Num.setw_fill0 3 z = Num.fixed_digits 3 (Z.to_N z).
Proof.
  intros Hz. unfold Num.setw_fill0. rewrite int_text_nonneg by lia.
  set (n := Z.to_N z). assert (n < 1000)%N as Hn by lia.
  unfold Num.dec. rewrite length_fixed_digits.
  pose proof (ndigits_fuel_le (N.to_nat (N.size n)) n 2 Hn) as Hle.
  fold (Num.ndigits n) in Hle.
  pose proof (ndigits_bound n) as Hb.
  replace 3%nat with ((3 - Num.ndigits n) + Num.ndigits n)%nat at 2 by lia.
  rewrite fixed_digits_split, N.div_small by done.
  by rewrite fixed_digits_zero.
Qed.

Lemma digit_char_compare a b :
  (a < 10)%N -> (b < 10)%N ->
  Ascii.compare (Num.digit_char a) (Num.digit_char b) = N.compare a b.
Proof.
  intros Ha Hb. unfold Ascii.compare. rewrite !N_of_digit_char by done.
  destruct (N.compare_spec a b); [subst; apply N.compare_refl| |].
  - apply N.compare_lt_iff. lia.
  - apply N.compare_gt_iff. lia.
Qed.

(** Texts of the same number of digits compare as the numbers do. *)
Lemma compare_fixed_digits k : forall a b (s t : string),
  (a < 10 ^ N.of_nat k)%N -> (b < 10 ^ N.of_nat k)%N ->
  String.compare (Num.fixed_digits k a ++ s) (Num.fixed_digits k b ++ t)
  = match N.compare a b with Eq => String.compare s t | o => o end.
Proof.
  induction k as [|k IH]; intros a b s t Ha Hb.
  - change (10 ^ N.of_nat 0)%N with 1%N in *.
    assert (a = 0%N) as -> by lia. assert (b = 0%N) as -> by lia. done.
  - cbn [Num.fixed_digits]. rewrite !app_assoc_string, !append_cons, !append_nil_l.
    rewrite Nat2N.inj_succ, N.pow_succ_r' in Ha, Hb.
    assert (a / 10 < 10 ^ N.of_nat k)%N as Ha' by (apply N.Div0.div_lt_upper_bound; lia).
    assert (b / 10 < 10 ^ N.of_nat k)%N as Hb' by (apply N.Div0.div_lt_upper_bound; lia).
    rewrite IH by done. cbn [String.compare].
    pose proof (N.Div0.div_mod a 10) as Hda. pose proof (N.Div0.div_mod b 10) as Hdb.
    assert (a mod 10 < 10)%N as Hma by (apply N.mod_lt; lia).
    assert (b mod 10 < 10)%N as Hmb by (apply N.mod_lt; lia).
    rewrite digit_char_compare by done.
    generalize dependent (a mod 10)%N. generalize dependent (b mod 10)%N.
    generalize dependent (a / 10)%N. generalize dependent (b / 10)%N.
    intros qb _ qa _ rb Hdb Hrb ra Hda Hra.
    destruct (N.compare_spec qa qb) as [Hq|Hq|Hq].
    + subst qb. destruct (N.compare_spec ra rb) as [Hr|Hr|Hr].
      * subst. by rewrite N.compare_refl.
      * assert ((a ?= b)%N = Lt) as -> by (apply N.compare_lt_iff; lia). done.
      * assert ((a ?= b)%N = Gt) as -> by (apply N.compare_gt_iff; lia). done.
    + assert ((a ?= b)%N = Lt) as -> by (apply N.compare_lt_iff; lia). done.
    + assert ((a ?= b)%N = Gt) as -> by (apply N.compare_gt_iff; lia). done.
Qed.

(** X13: for rows and columns below 1000 a cell id has nine characters, and
    in byte order the ids, and the keys that start with them, sort by row and
    then by column: the store holds the points cell after cell. *)
Theorem cell_ids_sort_by_row_and_column row col row' col' (s t : string) :
  (0 <= row < 1000)%Z -> (0 <= col < 1000)%Z ->
  (0 <= row' < 1000)%Z -> (0 <= col' < 1000)%Z ->
  String.length (TerrainStorageEngine.formatGridId row col) = 9%nat /\
  String.compare (TerrainStorageEngine.formatGridId row col ++ s)
                 (TerrainStorageEngine.formatGridId row' col' ++ t)
  = match (row ?= row')%Z with
    | Eq => match (col ?= col')%Z with Eq => String.compare s t | o => o end
    | o => o
    end.
Proof.
  intros Hr Hc Hr' Hc'. unfold TerrainStorageEngine.formatGridId.
  rewrite !setw_fill0_three by done. split.
  - rewrite !length_append, !length_fixed_digits. done.
  - rewrite !app_assoc_string, !append_cons, !append_nil_l. cbn [String.compare].
    rewrite !ascii_compare_refl.
    rewrite <- (Z2N.inj_compare row row'), <- (Z2N.inj_compare col col') by lia.
    rewrite compare_fixed_digits by (change (10 ^ N.of_nat 3)%N with 1000%N; lia).
    destruct (Z.to_N row ?= Z.to_N row')%N; try done.
    cbn [String.compare]. rewrite ascii_compare_refl.
    by rewrite compare_fixed_digits by (change (10 ^ N.of_nat 3)%N with 1000%N; lia).
Qed.

Lemma cell_ids_sort_by_row_and_column_witness :
  TerrainStorageEngine.computeGridId beijing 116.995 39.095 = "G_009_099" /\
  TerrainStorageEngine.computeGridId beijing 116.005 39.105 = "G_010_000" /\
  String.compare (keyOf beijing 116.995 39.095) (keyOf beijing 116.005 39.105) = Lt.
Proof.
  split; [reflexivity|]. split; [reflexivity|].
  unfold keyOf, TerrainStorageEngine.generateKey.
  change (TerrainStorageEngine.computeGridId beijing 116.995 39.095)
    with (TerrainStorageEngine.formatGridId 9 99).
  change (TerrainStorageEngine.computeGridId beijing 116.005 39.105)
    with (TerrainStorageEngine.formatGridId 10 0).
  destruct (cell_ids_sort_by_row_and_column 9 99 10 0
              ("|" ++ Num.fmt7 116.995 ++ "|" ++ Num.fmt7 39.095)
              ("|" ++ Num.fmt7 116.005 ++ "|" ++ Num.fmt7 39.105))
    as [_ H]; [lia..|].
  exact H.
Defined.

End cell_ids.

(** ** Runs of the worker pool *)

Module PoolRuns.
Import AdvancedThreadPool.
Import PoolExamples.

Section pool_runs.
Implicit Types (p : t) (q : list TaskItem) (item : TaskItem).

(** X14: [TaskCompare] is a strict weak order, as [std::priority_queue]
    requires of its comparison: irreflexive, transitive, and with a
    transitive incomparability (tasks of the same priority); it puts a task
    below another exactly when its priority is lower (LOW below NORMAL below
    HIGH). *)
Theorem TaskCompare_strict_weak_order :
  (forall a, TaskCompare a a = false) /\
  (forall a b c, TaskCompare a b = true -> TaskCompare b c = true -> TaskCompare a c = true) /\
  (forall a b c,
      TaskCompare a b = false -> TaskCompare b a = false ->
      TaskCompare b c = false -> TaskCompare c b = false ->
      TaskCompare a c = false /\ TaskCompare c a = false) /\
  (forall a b, TaskCompare a b = true <-> priority a = LOW /\ priority b <> LOW \/
                                            priority a = NORMAL /\ priority b = HIGH).
Proof.
  unfold TaskCompare. repeat split.
  - intros a. apply Z.ltb_irrefl.
  - intros a b c H1%Z.ltb_lt H2%Z.ltb_lt. apply Z.ltb_lt. lia.
  - apply Z.ltb_ge. apply Z.ltb_ge in H, H0, H1, H2. lia.
  - apply Z.ltb_ge. apply Z.ltb_ge in H, H0, H1, H2. lia.
  - intros H%Z.ltb_lt. destruct (priority a), (priority b); cbn in H; try lia;
      (by left) || (by right) || idtac.
  - intros [[Ha Hb]|[Ha Hb]]; apply Z.ltb_lt; rewrite Ha; [|by rewrite Hb].
    destruct (priority b); cbn; (done || lia).
Qed.

Lemma remove_first_perm item q :
  item ∈ q -> q ≡ₚ item :: remove_first item q.
Proof.
  induction q as [|y q IH]; [by intros ?%elem_of_nil|].
  intros Hin. cbn. destruct (decide (item = y)) as [->|Hne]; [done|].
  apply elem_of_cons in Hin as [?|Hin]; [done|].
  rewrite (IH Hin) at 1. apply perm_swap.
Qed.

Lemma iter_add_worker_fields n p :
  config_ (Nat.iter n add_worker p) = config_ p /\
  running_ (Nat.iter n add_worker p) = running_ p /\
  task_queue_ (Nat.iter n add_worker p) = task_queue_ p /\
  started (Nat.iter n add_worker p) = started p /\
  completed (Nat.iter n add_worker p) = completed p /\
  expired_workers_ (Nat.iter n add_worker p) = expired_workers_ p /\
  length (workers_ (Nat.iter n add_worker p)) = (length (workers_ p) + n)%nat.
Proof.
  induction n as [|n IH]; [cbn; repeat split; lia|].
  change (Nat.iter (S n) add_worker p) with (add_worker (Nat.iter n add_worker p)).
  destruct IH as (?&?&?&?&?&?&Hl).
  set (p' := Nat.iter n add_worker p) in *. unfold add_worker.
  cbn [config_ running_ task_queue_ started completed expired_workers_ workers_].
  rewrite length_app. cbn [length]. repeat split; try done. lia.
Qed.

(** One step: the queue and the started tasks together gain the task the
    step accepts and lose none. *)
Lemma step_conserves p ev :
  task_queue_ (step p ev) ++ started (step p ev)
  ≡ₚ task_queue_ p ++ started p ++ accepted_by p ev.
Proof.
  destruct ev as [item|item| | |i|i| |]; cbn [step accepted_by].
  - unfold submit. destruct (negb (running_ p)); [by rewrite !app_nil_r|].
    destruct (_ <=? _)%nat; [by rewrite !app_nil_r|]. cbn. unfold push.
    rewrite <- !app_assoc. f_equiv. apply Permutation_app_comm.
  - unfold submit_after_wait. destruct (_ || _); [|by rewrite !app_nil_r]. cbn.
    unfold push. rewrite <- !app_assoc. f_equiv. apply Permutation_app_comm.
  - rewrite app_nil_r. destruct (should_expand p); [|done]. unfold expand_workers.
    destruct (negb (running_ p)); [done|].
    by destruct (iter_add_worker_fields
                   (Nat.min (length (task_queue_ p))
                      (max_threads (config_ p) - length (workers_ p))) p)
      as (_ & _ & -> & -> & _).
  - rewrite app_nil_r. unfold cleanup_expired_workers. by destruct (expired_workers_ p).
  - rewrite app_nil_r. unfold worker_step.
    destruct (threads p !! i) as [[| | |item|]|]; [done| |done|done|done|done].
    destruct (task_queue_ p) as [|x q] eqn:Hq; [cbn; by rewrite Hq|].
    destruct (top (x :: q)) as [item|] eqn:Htop; [|by rewrite Hq].
    cbn [task_queue_ started]. unfold pop. rewrite Htop.
    destruct (PoolFacts.top_spec _ _ Htop) as [Hin _].
    rewrite (remove_first_perm item (x :: q) Hin) at 2.
    rewrite app_assoc. rewrite (Permutation_app_comm _ [item]). done.
  - rewrite app_nil_r. unfold worker_timeout.
    destruct (mode (config_ p)); [done|].
    destruct (threads p !! i) as [[| | |item|]|]; try done.
    by destruct (_ <? _)%nat.
  - by rewrite app_nil_r.
  - by rewrite app_nil_r.
Qed.

Lemma run_conserves evs : forall p,
  task_queue_ (run p evs) ++ started (run p evs)
  ≡ₚ task_queue_ p ++ started p ++ accepted p evs.
Proof.
  induction evs as [|ev evs IH]; intros p; [by rewrite app_nil_r|].
  cbn [run foldl accepted]. fold (run (step p ev) evs).
  rewrite IH, app_assoc, step_conserves. by rewrite <- !app_assoc.
Qed.

Lemma executing_insert (m : gmap nat worker_pc) i pc pc' :
  m !! i = Some pc ->
  omap (fun kv : nat * worker_pc => task_of kv.2) (map_to_list (<[i := pc']> m))
    ++ option_list (task_of pc)
  ≡ₚ omap (fun kv : nat * worker_pc => task_of kv.2) (map_to_list m)
    ++ option_list (task_of pc').
Proof.
  intros Hi.
  rewrite <- (insert_delete_id m i pc Hi) at 2.
  rewrite <- (insert_delete_eq m i pc').
  rewrite !map_to_list_insert by apply lookup_delete_eq.
  cbn [omap list_omap snd].
  destruct (task_of pc) as [a|], (task_of pc') as [b|]; cbn [option_list];
    rewrite ?app_nil_r; try done.
  - rewrite (Permutation_app_comm _ [a]), (Permutation_app_comm _ [b]). cbn. apply perm_swap.
  - by rewrite (Permutation_app_comm _ [a]).
  - by rewrite (Permutation_app_comm _ [b]).
Qed.

Lemma executing_insert_fresh (m : gmap nat worker_pc) i pc' :
  m !! i = None -> task_of pc' = None ->
  omap (fun kv : nat * worker_pc => task_of kv.2) (map_to_list (<[i := pc']> m))
  ≡ₚ omap (fun kv : nat * worker_pc => task_of kv.2) (map_to_list m).
Proof.
  intros Hi Hpc. rewrite map_to_list_insert by done. cbn [omap list_omap snd].
  by rewrite Hpc.
Qed.

(** The started tasks are the completed ones and the ones being run; thread
    numbers below [next_thread] only. *)
Lemma add_worker_books p :
  (started p ≡ₚ completed p ++ executing p /\
   forall i, is_Some (threads p !! i) -> i < next_thread p) ->
  started (add_worker p) ≡ₚ completed (add_worker p) ++ executing (add_worker p) /\
  forall i, is_Some (threads (add_worker p) !! i) -> i < next_thread (add_worker p).
Proof.
  intros [Hs Hfresh]. unfold add_worker, executing. cbn [started completed threads next_thread].
  assert (threads p !! next_thread p = None) as Hnone.
  { destruct (threads p !! next_thread p) eqn:Hn; [|done].
    assert (next_thread p < next_thread p) by (apply Hfresh; eauto). lia. }
  split.
  - rewrite executing_insert_fresh by done. exact Hs.
  - intros i. destruct (decide (i = next_thread p)) as [->|Hne]; [lia|].
    rewrite lookup_insert_ne by done. intros H%Hfresh. lia.
Qed.

Lemma iter_add_worker_books n p :
  (started p ≡ₚ completed p ++ executing p /\
   forall i, is_Some (threads p !! i) -> i < next_thread p) ->
  started (Nat.iter n add_worker p)
  ≡ₚ completed (Nat.iter n add_worker p) ++ executing (Nat.iter n add_worker p) /\
  forall i, is_Some (threads (Nat.iter n add_worker p) !! i)
            -> i < next_thread (Nat.iter n add_worker p).
Proof.
  intros H. induction n as [|n IH]; [done|].
  change (Nat.iter (S n) add_worker p) with (add_worker (Nat.iter n add_worker p)).
  by apply add_worker_books.
Qed.

Lemma set_thread_books p i pc pc' :
  threads p !! i = Some pc -> task_of pc = None -> task_of pc' = None ->
  (started p ≡ₚ completed p ++ executing p /\
   forall j, is_Some (threads p !! j) -> j < next_thread p) ->
  started (set_thread p i pc') ≡ₚ completed (set_thread p i pc') ++ executing (set_thread p i pc') /\
  forall j, is_Some (threads (set_thread p i pc') !! j) -> j < next_thread (set_thread p i pc').
Proof.
  intros Hi Hpc Hpc' [Hs Hfresh]. unfold set_thread, executing.
  cbn [started completed threads next_thread]. split.
  - pose proof (executing_insert (threads p) i pc pc' Hi) as He.
    rewrite Hpc, Hpc' in He. cbn in He. rewrite !app_nil_r in He. by rewrite He.
  - intros j. destruct (decide (j = i)) as [->|Hne].
    + intros _. apply Hfresh. eauto.
    + rewrite lookup_insert_ne by done. apply Hfresh.
Qed.

Lemma step_books p ev :
  (started p ≡ₚ completed p ++ executing p /\
   forall i, is_Some (threads p !! i) -> i < next_thread p) ->
  started (step p ev) ≡ₚ completed (step p ev) ++ executing (step p ev) /\
  forall i, is_Some (threads (step p ev) !! i) -> i < next_thread (step p ev).
Proof.
  intros Hinv. pose proof Hinv as [Hs Hfresh].
  destruct ev as [item|item| | |i|i| |]; cbn [step].
  - unfold submit. destruct (negb (running_ p)); [done|]. by destruct (_ <=? _)%nat.
  - unfold submit_after_wait. by destruct (_ || _).
  - destruct (should_expand p); [|done]. unfold expand_workers.
    destruct (negb (running_ p)); [done|]. by apply iter_add_worker_books.
  - unfold cleanup_expired_workers. by destruct (expired_workers_ p).
  - unfold worker_step. destruct (threads p !! i) as [pc|] eqn:Hi; [|done].
    destruct pc as [| | |item|].
    + by apply (set_thread_books p i AtLoopTest); [| |destruct (running_ p)|].
    + destruct (task_queue_ p) as [|x q] eqn:Hq.
      { by apply (set_thread_books p i Locked); [| |destruct (running_ p)|]. }
      destruct (top (x :: q)) as [item|] eqn:Htop; [|done].
      unfold executing. cbn [started completed threads next_thread]. split.
      * pose proof (executing_insert (threads p) i Locked (Executing item) Hi) as He.
        cbn in He. rewrite app_nil_r in He. rewrite He, Hs. unfold executing.
        by rewrite app_assoc.
      * intros j. destruct (decide (j = i)) as [->|Hne].
        -- intros _. apply Hfresh. eauto.
        -- rewrite lookup_insert_ne by done. apply Hfresh.
    + by apply (set_thread_books p i Waiting).
    + unfold executing. cbn [started completed threads next_thread]. split.
      * pose proof (executing_insert (threads p) i (Executing item) AtLoopTest Hi) as He.
        cbn in He. rewrite app_nil_r in He. rewrite Hs. unfold executing.
        rewrite <- He. rewrite <- !app_assoc. f_equiv. apply Permutation_app_comm.
      * intros j. destruct (decide (j = i)) as [->|Hne].
        -- intros _. apply Hfresh. eauto.
        -- rewrite lookup_insert_ne by done. apply Hfresh.
    + done.
  - unfold worker_timeout. destruct (mode (config_ p)); [done|].
    destruct (threads p !! i) as [pc|] eqn:Hi; [|done].
    destruct pc as [| | |item|]; try done.
    destruct (_ <? _)%nat.
    + unfold executing. cbn [started completed threads next_thread]. split.
      * pose proof (executing_insert (threads p) i Waiting Exited Hi) as He.
        cbn in He. rewrite !app_nil_r in He. by rewrite He.
      * intros j. destruct (decide (j = i)) as [->|Hne].
        -- intros _. apply Hfresh. eauto.
        -- rewrite lookup_insert_ne by done. apply Hfresh.
    + by apply (set_thread_books p i Waiting).
  - done.
  - done.
Qed.

Lemma run_books evs : forall p,
  (started p ≡ₚ completed p ++ executing p /\
   forall i, is_Some (threads p !! i) -> i < next_thread p) ->
  started (run p evs) ≡ₚ completed (run p evs) ++ executing (run p evs).
Proof.
  induction evs as [|ev evs IH]; intros p Hinv; [by destruct Hinv|].
  cbn [run foldl]. fold (run (step p ev) evs). by apply IH, step_books.
Qed.

(** X15: in every run of a pool from its construction, the tasks that
    [submit] has pushed are, counted with multiplicity, exactly the tasks in
    the queue, the tasks being run by workers and the tasks completed: no
    accepted task is lost, none is started twice, and nothing is run that was
    not submitted. *)
Theorem no_task_lost_or_repeated config evs :
  let p := run (new config) evs in
  accepted (new config) evs ≡ₚ task_queue_ p ++ executing p ++ completed p /\
  started p ≡ₚ executing p ++ completed p.
Proof.
  intros p.
  assert (started p ≡ₚ completed p ++ executing p) as Hs.
  { apply run_books. unfold new. apply iter_add_worker_books. cbn.
    split; [done|]. intros i. rewrite lookup_empty. by intros [? ?]. }
  pose proof (run_conserves evs (new config)) as Hc. fold p in Hc.
  destruct (iter_add_worker_fields (min_threads config)
              {| config_ := config; running_ := true; task_queue_ := [];
                 workers_ := []; expired_workers_ := []; threads := ∅;
                 next_thread := 0; started := []; completed := [] |})
    as (_ & _ & Hq & Hst & _).
  fold (new config) in Hq, Hst. rewrite Hq, Hst in Hc. cbn in Hc.
  split.
  - rewrite <- Hc, Hs. f_equiv. apply Permutation_app_comm.
  - rewrite Hs. apply Permutation_app_comm.
Qed.

Lemma length_remove_first item q : length (remove_first item q) <= length q.
Proof.
  induction q as [|y q IH]; [done|]. cbn. destruct (decide (item = y)); cbn; lia.
Qed.

Lemma step_config p ev : config_ (step p ev) = config_ p.
Proof.
  destruct ev as [item|item| | |i|i| |]; cbn [step]; try done.
  - unfold submit. destruct (negb (running_ p)); [done|]. by destruct (_ <=? _)%nat.
  - unfold submit_after_wait. by destruct (_ || _).
  - destruct (should_expand p); [|done]. unfold expand_workers.
    destruct (negb (running_ p)); [done|]. by destruct (iter_add_worker_fields
      (Nat.min (length (task_queue_ p)) (max_threads (config_ p) - length (workers_ p))) p).
  - unfold cleanup_expired_workers. by destruct (expired_workers_ p).
  - unfold worker_step. destruct (threads p !! i) as [[| | |item|]|]; try done.
    destruct (task_queue_ p); [done|]. by destruct (top _).
  - unfold worker_timeout. destruct (mode (config_ p)); [done|].
    destruct (threads p !! i) as [[| | |item|]|]; try done. by destruct (_ <? _)%nat.
Qed.

Lemma run_config evs : forall p, config_ (run p evs) = config_ p.
Proof.
  induction evs as [|ev evs IH]; intros p; [done|].
  cbn [run foldl]. fold (run (step p ev) evs). by rewrite IH, step_config.
Qed.

Lemma new_fields config :
  config_ (new config) = config /\ running_ (new config) = true /\
  task_queue_ (new config) = [] /\ started (new config) = [] /\
  completed (new config) = [] /\ expired_workers_ (new config) = [] /\
  length (workers_ (new config)) = min_threads config.
Proof.
  unfold new.
  destruct (iter_add_worker_fields (min_threads config)
              {| config_ := config; running_ := true; task_queue_ := [];
                 workers_ := []; expired_workers_ := []; threads := ∅;
                 next_thread := 0; started := []; completed := [] |})
    as (?&?&?&?&?&?&?). done.
Qed.

Lemma step_queue_bound p ev :
  (running_ p = true -> length (task_queue_ p) <= max_tasks (config_ p)) ->
  running_ (step p ev) = true ->
  length (task_queue_ (step p ev)) <= max_tasks (config_ (step p ev)).
Proof.
  intros Hinv. rewrite step_config.
  destruct ev as [item|item| | |i|i| |]; cbn [step].
  - unfold submit. destruct (negb (running_ p)); [done|].
    destruct (Nat.leb_spec (max_tasks (config_ p)) (length (task_queue_ p))); [done|].
    cbn. unfold push. rewrite length_app. cbn. lia.
  - unfold submit_after_wait.
    destruct (Nat.ltb_spec (length (task_queue_ p)) (max_tasks (config_ p))); cbn [orb].
    + cbn. unfold push. rewrite length_app. cbn. lia.
    + destruct (running_ p) eqn:Hr; cbn; [auto|intros ?; congruence].
  - destruct (should_expand p); [|done]. unfold expand_workers.
    destruct (negb (running_ p)); [done|].
    destruct (iter_add_worker_fields
                (Nat.min (length (task_queue_ p))
                   (max_threads (config_ p) - length (workers_ p))) p)
      as (_ & -> & -> & _). done.
  - unfold cleanup_expired_workers. by destruct (expired_workers_ p).
  - unfold worker_step. destruct (threads p !! i) as [[| | |item|]|]; try done.
    destruct (task_queue_ p) as [|x q] eqn:Hq; [cbn; rewrite Hq; cbn; lia|].
    destruct (top (x :: q)) as [item|] eqn:Htop; [|by rewrite Hq].
    cbn. unfold pop. rewrite Htop. intros Hr.
    pose proof (length_remove_first item (x :: q)). specialize (Hinv Hr). cbn in *. lia.
  - unfold worker_timeout. destruct (mode (config_ p)); [done|].
    destruct (threads p !! i) as [[| | |item|]|]; try done. by destruct (_ <? _)%nat.
  - done.
  - done.
Qed.

(** X16: in every run of a pool from its construction, while [running_] is
    true the queue holds at most [max_tasks] tasks. *)
Theorem queue_within_max_tasks config evs :
  let p := run (new config) evs in
  running_ p = true -> pending_tasks p <= max_tasks config.
Proof.
  intros p. unfold pending_tasks. subst p.
  rewrite <- (proj1 (new_fields config)) at 3.
  rewrite <- (run_config evs (new config)).
  generalize (new config) (proj1 (proj2 (proj2 (new_fields config)))).
  intros p0 Hq0.
  assert (running_ p0 = true -> length (task_queue_ p0) <= max_tasks (config_ p0)) as Hinv.
  { rewrite Hq0. cbn. lia. }
  clear Hq0. revert p0 Hinv.
  induction evs as [|ev evs IH]; intros p0 Hinv; [done|].
  cbn [run foldl]. fold (run (step p0 ev) evs). apply IH. by apply step_queue_bound.
Qed.

Lemma queue_within_max_tasks_witness :
  running_ (run one_worker [Submit low6; Submit low7; Submit normal9; Submit high8;
                            Submit low6]) = true /\
  pending_tasks (run one_worker [Submit low6; Submit low7; Submit normal9; Submit high8;
                                 Submit low6]) <= 4.
Proof.
  split; [reflexivity|].
  apply (queue_within_max_tasks
           {| min_threads := 1; max_threads := 1; max_tasks := 4;
              idle_timeout := 60; mode := FIXED |}
           [Submit low6; Submit low7; Submit normal9; Submit high8; Submit low6]).
  reflexivity.
Defined.

(** The loop of [cleanup_expired_workers]. *)
Lemma cleanup_loop_spec min_thr expired ws : forall kept,
  length (cleanup_loop min_thr expired kept ws) <= length ws /\
  (min_thr <= kept + length ws -> min_thr <= kept + length (cleanup_loop min_thr expired kept ws)) /\
  (kept + length ws <= min_thr -> cleanup_loop min_thr expired kept ws = ws) /\
  sublist (cleanup_loop min_thr expired kept ws) ws /\
  sublist (filter (fun w => w ∉ expired) ws) (cleanup_loop min_thr expired kept ws).
Proof.
  induction ws as [|w ws IH]; intros kept.
  { cbn. repeat split; try done; lia. }
  cbn [cleanup_loop].
  destruct (Nat.ltb_spec min_thr (kept + length (w :: ws))) as [Hlt|Hge].
  - cbn [length] in Hlt. case_bool_decide as Hw.
    + destruct (IH kept) as (H1 & H2 & H3 & H4 & H5).
      rewrite filter_cons_False by (intros ?; done).
      cbn [length]. split; [lia|]. split; [intros _; apply H2; lia|].
      split; [lia|]. split; [by apply sublist_cons|done].
    + destruct (IH (S kept)) as (H1 & H2 & H3 & H4 & H5).
      rewrite filter_cons_True by done.
      cbn [length]. split; [lia|]. split; [intros _; specialize (H2 ltac:(lia)); lia|].
      split; [lia|]. split; by apply sublist_skip.
  - split; [done|]. split; [done|]. split; [done|]. split; [done|].
    apply sublist_filter.
Qed.

Lemma cleanup_keeps_min_threads_aux p :
  length (workers_ (cleanup_expired_workers p)) <= length (workers_ p) /\
  Nat.min (min_threads (config_ p)) (length (workers_ p))
  <= length (workers_ (cleanup_expired_workers p)).
Proof.
  unfold cleanup_expired_workers.
  destruct (expired_workers_ p) as [|x l] eqn:Hex; [lia|].
  cbn [workers_].
  destruct (cleanup_loop_spec (min_threads (config_ p)) (x :: l) (workers_ p) 0)
    as (H1 & H2 & H3 & _).
  split; [done|].
  destruct (Nat.le_ge_cases (min_threads (config_ p)) (length (workers_ p))) as [Hle|Hge].
  - specialize (H2 Hle). lia.
  - rewrite H3 by (cbn; lia). lia.
Qed.

(** X17: [cleanup_expired_workers] erases only threads of the expired set
    and keeps the others in order; it stops at [min_threads] entries (a pool
    with at most [min_threads] entries keeps them all, expired or not), and
    it clears the expired set whether or not every expired thread was
    erased; threads and queue are untouched. *)
Theorem cleanup_keeps_min_threads p :
  let p' := cleanup_expired_workers p in
  sublist (workers_ p') (workers_ p) /\
  sublist (filter (fun w => w ∉ expired_workers_ p) (workers_ p)) (workers_ p') /\
  Nat.min (min_threads (config_ p)) (worker_count p) <= worker_count p' /\
  expired_workers_ p' = [] /\
  (worker_count p <= min_threads (config_ p) -> workers_ p' = workers_ p) /\
  threads p' = threads p /\ task_queue_ p' = task_queue_ p.
Proof.
  unfold cleanup_expired_workers, worker_count.
  destruct (expired_workers_ p) as [|x l] eqn:Hex.
  - cbn zeta. rewrite Hex. split; [done|]. split; [apply sublist_filter|].
    repeat split; try done. lia.
  - cbn [workers_ expired_workers_ threads task_queue_ config_].
    destruct (cleanup_loop_spec (min_threads (config_ p)) (x :: l) (workers_ p) 0)
      as (H1 & H2 & H3 & H4 & H5).
    split; [done|]. split; [done|]. split; [|split; [done|split; [|done]]].
    + destruct (Nat.le_ge_cases (min_threads (config_ p)) (length (workers_ p))) as [Hle|Hge].
      * specialize (H2 Hle). lia.
      * rewrite H3 by (cbn; lia). lia.
    + intros Hle. apply H3. cbn. lia.
Qed.

Lemma step_worker_bounds p ev :
  is_shutdown_move ev = false ->
  min_threads (config_ p) <= length (workers_ p)
    <= Nat.max (min_threads (config_ p)) (max_threads (config_ p)) ->
  min_threads (config_ p) <= length (workers_ (step p ev))
    <= Nat.max (min_threads (config_ p)) (max_threads (config_ p)).
Proof.
  intros Hev Hinv.
  destruct ev as [item|item| | |i|i| |]; cbn [step]; try done.
  - unfold submit. destruct (negb (running_ p)); [done|]. by destruct (_ <=? _)%nat.
  - unfold submit_after_wait. by destruct (_ || _).
  - destruct (should_expand p); [|done]. unfold expand_workers.
    destruct (negb (running_ p)); [done|].
    destruct (iter_add_worker_fields
                (Nat.min (length (task_queue_ p))
                   (max_threads (config_ p) - length (workers_ p))) p)
      as (_ & _ & _ & _ & _ & _ & ->). lia.
  - destruct (cleanup_keeps_min_threads_aux p) as [H1 H2]. lia.
  - unfold worker_step. destruct (threads p !! i) as [[| | |item|]|]; try done.
    destruct (task_queue_ p); [done|]. by destruct (top _).
  - unfold worker_timeout. destruct (mode (config_ p)); [done|].
    destruct (threads p !! i) as [[| | |item|]|]; try done. by destruct (_ <? _)%nat.
Qed.

(** X18: in every run of a pool from its construction, until [shutdown]
    moves the worker vector out, the number of worker thread objects is at
    least [min_threads] and at most the larger of [min_threads] and
    [max_threads]; in [FIXED] mode it stays [min_threads]. *)
Theorem worker_count_within_bounds config evs :
  forallb (fun ev => negb (is_shutdown_move ev)) evs = true ->
  let p := run (new config) evs in
  min_threads config <= worker_count p
    <= Nat.max (min_threads config) (max_threads config) /\
  (mode config = FIXED -> worker_count p = min_threads config).
Proof.
  intros Hevs p. unfold worker_count. subst p.
  destruct (new_fields config) as (Hc & _ & _ & _ & _ & Hex & Hw).
  assert (forall p0 : t,
            config_ p0 = config ->
            min_threads config <= length (workers_ p0)
              <= Nat.max (min_threads config) (max_threads config) ->
            min_threads config <= length (workers_ (run p0 evs))
              <= Nat.max (min_threads config) (max_threads config)) as Hbounds.
  { clear Hc Hex Hw. induction evs as [|ev evs IH]; intros p0 Hc Hinv; [done|].
    cbn [forallb] in Hevs. apply andb_true_iff in Hevs as [Hev Hevs].
    apply negb_true_iff in Hev.
    cbn [run foldl]. fold (run (step p0 ev) evs).
    apply IH; [done|by rewrite step_config|].
    rewrite <- Hc in *. by apply step_worker_bounds. }
  split; [apply Hbounds; [done|lia]|].
  intros Hmode.
  assert (forall p0 : t,
            mode (config_ p0) = FIXED -> expired_workers_ p0 = [] ->
            length (workers_ (run p0 evs)) = length (workers_ p0)) as Hfixed.
  { clear Hc Hex Hw Hbounds. induction evs as [|ev evs IH]; intros p0 Hm He; [done|].
    cbn [forallb] in Hevs. apply andb_true_iff in Hevs as [Hev Hevs].
    apply negb_true_iff in Hev.
    cbn [run foldl]. fold (run (step p0 ev) evs).
    assert (expired_workers_ (step p0 ev) = [] /\
            length (workers_ (step p0 ev)) = length (workers_ p0)) as [He' Hl'].
    { destruct ev as [item|item| | |i|i| |]; cbn [step]; try done.
      - unfold submit. destruct (negb (running_ p0)); [done|]. by destruct (_ <=? _)%nat.
      - unfold submit_after_wait. by destruct (_ || _).
      - unfold should_expand. by rewrite Hm.
      - unfold cleanup_expired_workers. by rewrite He.
      - unfold worker_step. destruct (threads p0 !! i) as [[| | |item|]|]; try done.
        destruct (task_queue_ p0); [done|]. by destruct (top _).
      - unfold worker_timeout. by rewrite Hm. }
    rewrite IH; [done|done|by rewrite step_config|done]. }
  rewrite Hfixed; [done|by rewrite Hc|done].
Qed.

Lemma worker_count_within_bounds_witness :
  let evs := [Submit low6; Submit low7; Submit normal9; Submit high8; Expand; Expand] in
  let config := {| min_threads := 1; max_threads := 3; max_tasks := 8;
                   idle_timeout := 60; mode := CACHED |} in
  forallb (fun ev => negb (is_shutdown_move ev)) evs = true /\
  1 <= worker_count (run (new config) evs) <= 3.
Proof.
  intros evs config. split; [reflexivity|].
  exact (proj1 (worker_count_within_bounds config evs eq_refl)).
Defined.

Lemma timeout_step p i :
  mode (config_ p) = CACHED -> min_threads (config_ p) < length (workers_ p) ->
  config_ (step p (Timeout i)) = config_ p /\
  workers_ (step p (Timeout i)) = workers_ p /\
  forall j, threads (step p (Timeout i)) !! j
            = if decide (j = i)
              then match threads p !! i with
                   | Some Waiting => Some Exited
                   | o => o
                   end
              else threads p !! j.
Proof.
  intros Hm Hlt. cbn [step]. unfold worker_timeout. rewrite Hm.
  destruct (threads p !! i) as [pc|] eqn:Hi.
  2:{ repeat split; try done. intros j. case_decide; by subst. }
  destruct pc as [| | |item|];
    try (repeat split; try done; intros j; case_decide; by subst).
  destruct (Nat.ltb_spec (min_threads (config_ p)) (length (workers_ p))); [|lia].
  cbn. repeat split; try done. intros j. case_decide; subst.
  - by rewrite lookup_insert_eq.
  - by rewrite lookup_insert_ne.
Qed.

Lemma timeouts_run p (ids : list nat) :
  mode (config_ p) = CACHED -> min_threads (config_ p) < length (workers_ p) ->
  workers_ (run p (Timeout <$> ids)) = workers_ p /\
  forall j, threads (run p (Timeout <$> ids)) !! j
            = match threads p !! j with
              | Some Waiting => if bool_decide (j ∈ ids) then Some Exited else Some Waiting
              | o => o
              end.
Proof.
  revert p. induction ids as [|i ids IH]; intros p Hm Hlt.
  { cbn. split; [done|]. intros j. by destruct (threads p !! j) as [[| | | |]|]. }
  cbn [fmap list_fmap run foldl]. fold (run (step p (Timeout i)) (Timeout <$> ids)).
  destruct (timeout_step p i Hm Hlt) as (Hc & Hw & Ht).
  destruct (IH (step p (Timeout i))) as [Hw' Ht']; [by rewrite Hc|by rewrite Hc, Hw|].
  split; [by rewrite Hw', Hw|]. intros j. rewrite Ht', Ht.
  destruct (decide (j = i)) as [->|Hne].
  - rewrite (bool_decide_eq_true_2 (i ∈ i :: ids)) by left.
    by destruct (threads p !! i) as [[| | | |]|].
  - destruct (threads p !! j) as [[| | | |]|]; try done.
    rewrite (bool_decide_ext (j ∈ i :: ids) (j ∈ ids)); [done|].
    rewrite elem_of_cons. split; [intros [?|?]; done|by right].
Qed.

(** X19: the test of an idle worker that times out counts the thread
    objects in [workers_], which shrinks only in [cleanup_expired_workers]:
    while [workers_] holds more than [min_threads] entries every waiting
    worker whose wait times out returns, so that all workers of the pool can
    retire together: when every live worker waits and times out, no live
    worker is left, whatever [min_threads] is. *)
Theorem idle_timeout_retires_below_min_threads p (ids : list nat) :
  mode (config_ p) = CACHED ->
  min_threads (config_ p) < worker_count p ->
  let p' := run p (Timeout <$> ids) in
  worker_count p' = worker_count p /\
  (forall i, i ∈ ids -> threads p !! i = Some Waiting -> threads p' !! i = Some Exited) /\
  ((forall i pc, threads p !! i = Some pc -> is_live pc = true -> pc = Waiting /\ i ∈ ids) ->
   live_workers p' = 0).
Proof.
  intros Hm Hlt p'. destruct (timeouts_run p ids Hm Hlt) as [Hw Ht]. fold p' in Hw, Ht.
  split; [unfold worker_count; by rewrite Hw|]. split.
  - intros i Hi Hwait. rewrite Ht, Hwait. by rewrite bool_decide_eq_true_2.
  - intros Hall. unfold live_workers.
    assert (filter (fun kv : nat * worker_pc => is_live kv.2 = true) (threads p') = ∅) as ->;
      [|done].
    apply map_empty_filter_2. intros j pc Hj. cbn. rewrite Ht in Hj.
    destruct (threads p !! j) as [pc0|] eqn:Hj0; [|done].
    destruct (is_live pc0) eqn:Hlive.
    + destruct (Hall j pc0 Hj0 Hlive) as [-> Hin].
      rewrite bool_decide_eq_true_2 in Hj by done. by injection Hj as <-.
    + destruct pc0; try done. by injection Hj as <-.
Qed.

#[local] Instance worker_pc_eq_dec : EqDecision worker_pc.
Proof. solve_decision. Defined.

Lemma idle_timeout_retires_below_min_threads_witness :
  let config := {| min_threads := 1; max_threads := 3; max_tasks := 8;
                   idle_timeout := 60; mode := CACHED |} in
  let p := run (new config)
             [Submit low6; Submit low7; Expand;
              Worker 0; Worker 0; Worker 0; Worker 0; Worker 0; Worker 0; Worker 0; Worker 0;
              Worker 1; Worker 1; Worker 2; Worker 2] in
  mode (config_ p) = CACHED /\
  min_threads (config_ p) < worker_count p /\
  completed p = [low6; low7] /\
  live_workers p = 3 /\
  live_workers (run p [Timeout 0; Timeout 1; Timeout 2]) = 0 /\
  worker_count (run p [Timeout 0; Timeout 1; Timeout 2; Cleanup]) = 1.
Proof.
  intros config p.
  assert (mode (config_ p) = CACHED) as Hm by reflexivity.
  assert (min_threads (config_ p) < worker_count p) as Hlt by (vm_compute; lia).
  split; [exact Hm|]. split; [exact Hlt|]. split; [reflexivity|].
  split; [reflexivity|]. split; [|reflexivity].
  destruct (idle_timeout_retires_below_min_threads p [0; 1; 2] Hm Hlt) as (_ & _ & H).
  apply H.
  change (map_Forall (fun i pc => is_live pc = true -> pc = Waiting /\ i ∈ [0; 1; 2])
            (threads p)).
  apply (bool_decide_unpack _). vm_compute. exact I.
Defined.

(** After [running_] has become false a step moves no worker thread away
    from its exit: a step of another thread leaves it where it is, its own
    step takes it one place further. *)
Lemma step_towards_exit p ev i pc :
  running_ p = false -> threads p !! i = Some pc ->
  exists pc',
    threads (step p ev) !! i = Some pc' /\
    let rank := fun c => match c with
                         | Exited => 0 | AtLoopTest => 1 | Executing _ => 2
                         | Locked => 3 | Waiting => 4
                         end in
    rank pc' <= rank pc /\
    (is_worker_step i ev = true -> rank pc' < rank pc \/ pc = Exited).
Proof.
  intros Hr Hi. cbn zeta.
  destruct ev as [item|item| | |j|j| |]; cbn [step is_worker_step].
  - exists pc. unfold submit. rewrite Hr. cbn. split; [done|]. split; [lia|done].
  - exists pc. unfold submit_after_wait. rewrite Hr, orb_true_r. cbn.
    split; [done|]. split; [lia|done].
  - exists pc. unfold should_expand. rewrite Hr.
    split; [by destruct (mode (config_ p))|]. split; [lia|done].
  - exists pc. unfold cleanup_expired_workers.
    split; [by destruct (expired_workers_ p)|]. split; [lia|done].
  - unfold worker_step. destruct (decide (i = j)) as [<-|Hne].
    + rewrite Nat.eqb_refl, Hi. destruct pc as [| | |item|].
      * rewrite Hr. exists Exited. cbn. rewrite lookup_insert_eq.
        split; [done|]. split; [lia|]. intros _. left. lia.
      * destruct (task_queue_ p) as [|x q] eqn:Hq.
        -- rewrite Hr. exists Exited. cbn. rewrite lookup_insert_eq.
           split; [done|]. split; [lia|]. intros _. left. lia.
        -- destruct (PoolFacts.top_is_Some (x :: q)) as [item ->]; [done|].
           exists (Executing item). cbn. rewrite lookup_insert_eq.
           split; [done|]. split; [lia|]. intros _. left. lia.
      * exists Locked. cbn. rewrite lookup_insert_eq.
        split; [done|]. split; [lia|]. intros _. left. lia.
      * exists AtLoopTest. cbn. rewrite lookup_insert_eq.
        split; [done|]. split; [lia|]. intros _. left. lia.
      * exists Exited. split; [done|]. split; [lia|]. intros _. by right.
    + exists pc. split; [|split; [lia|]].
      * destruct (threads p !! j) as [[| | |item|]|] eqn:Hj; try done;
          try (cbn; by rewrite lookup_insert_ne).
        destruct (task_queue_ p); [cbn; by rewrite lookup_insert_ne|].
        destruct (top _); [cbn; by rewrite lookup_insert_ne|done].
      * intros Heq%Nat.eqb_eq. done.
  - unfold worker_timeout. destruct (mode (config_ p)).
    { exists pc. split; [done|]. split; [lia|done]. }
    destruct (decide (i = j)) as [<-|Hne].
    + rewrite Hi. destruct pc as [| | |item|];
        try (eexists; split; [done|]; split; [lia|done]).
      destruct (_ <? _)%nat.
      * exists Exited. cbn. rewrite lookup_insert_eq. split; [done|]. split; [lia|done].
      * exists Locked. cbn. rewrite lookup_insert_eq. split; [done|]. split; [lia|done].
    + exists pc. split; [|split; [lia|done]].
      destruct (threads p !! j) as [[| | |item|]|] eqn:Hj; try done.
      destruct (_ <? _)%nat; cbn; by rewrite lookup_insert_ne.
  - exists pc. split; [done|]. split; [lia|done].
  - exists pc. split; [done|]. split; [lia|done].
Qed.

Lemma run_towards_exit evs : forall p i pc,
  running_ p = false -> threads p !! i = Some pc ->
  exists pc',
    threads (run p evs) !! i = Some pc' /\
    (match pc' with
     | Exited => 0 | AtLoopTest => 1 | Executing _ => 2 | Locked => 3 | Waiting => 4
     end + length (filter (fun ev => is_worker_step i ev = true) evs)
     <= match pc with
        | Exited => 0 | AtLoopTest => 1 | Executing _ => 2 | Locked => 3 | Waiting => 4
        end
     \/ pc' = Exited).
Proof.
  induction evs as [|ev evs IH]; intros p i pc Hr Hi.
  { exists pc. split; [done|]. left. cbn. lia. }
  cbn [run foldl]. fold (run (step p ev) evs).
  destruct (step_towards_exit p ev i pc Hr Hi) as (pc1 & Hi1 & Hle & Hlt). cbn zeta in *.
  destruct (PoolFacts.step_after_flip p ev Hr) as [Hr1 _].
  destruct (IH (step p ev) i pc1 Hr1 Hi1) as (pc' & Hi' & Hrank).
  exists pc'. split; [done|].
  destruct Hrank as [Hrank|Hex]; [|by right].
  destruct (is_worker_step i ev) eqn:Hw.
  - rewrite filter_cons_True by done. cbn [length].
    destruct (Hlt eq_refl) as [Hdec| ->]; [left; lia|].
    right. destruct pc1; cbn in Hle; try lia. destruct pc'; cbn in Hrank; try lia. done.
  - rewrite filter_cons_False by (rewrite Hw; done). left. lia.
Qed.

(** X20: once [running_] is false, a worker thread that takes four more
    steps, however they interleave with the steps of other threads, has
    returned from [worker_routine] (a worker that waits must be woken to
    take a step). *)
Theorem worker_returns_after_shutdown p i evs :
  running_ p = false ->
  is_Some (threads p !! i) ->
  4 <= length (filter (fun ev => is_worker_step i ev = true) evs) ->
  threads (run p evs) !! i = Some Exited.
Proof.
  intros Hr [pc Hi] Hsteps.
  destruct (run_towards_exit evs p i pc Hr Hi) as (pc' & Hi' & [Hrank| ->]); [|done].
  destruct pc; destruct pc'; cbn in Hrank; try lia; done.
Qed.

Lemma worker_returns_after_shutdown_witness :
  running_ (step idle_with_task ShutdownFlip) = false /\
  threads (step idle_with_task ShutdownFlip) !! 0 = Some Waiting /\
  threads (run (step idle_with_task ShutdownFlip)
             [Worker 0; Submit high8; Worker 0; Worker 0; Worker 0]) !! 0 = Some Exited.
Proof.
  split; [reflexivity|]. split; [reflexivity|].
  apply worker_returns_after_shutdown; [reflexivity|by eexists|].
  vm_compute. lia.
Defined.



End pool_runs.
End PoolRuns.

(** ** Range queries and cell loads *)

Section query_bounds.
Implicit Types (e : TerrainStorageEngine.t).

Lemma query_cells_in_rect x1 y1 x2 y2 cells : forall e acc lon lat v,
  (lon, lat, v) ∈ (query_cells e x1 y1 x2 y2 acc cells).1 ->
  (lon, lat, v) ∈ acc \/ TerrainStorageEngine.in_rect x1 y1 x2 y2 (lon, lat) = true.
Proof.
  induction cells as [|g cells IH]; intros e acc lon lat v Hin; [by left|].
  unfold query_cells in Hin. cbn [foldl fst snd] in Hin.
  pose proof (processGrid_spec e g x1 y1 x2 y2) as (_ & (item & _ & Hcalls & _) & _).
  destruct (TerrainStorageEngine.processGrid e g x1 y1 x2 y2) as [calls e1].
  cbn [fst snd] in *.
  apply (IH e1 (acc ++ calls)%list) in Hin as [Hin|Hin]; [|by right].
  apply elem_of_app in Hin as [Hin|Hin]; [by left|right].
  rewrite Hcalls in Hin. by apply elem_of_report in Hin as (key & _ & _ & Hr).
Qed.

(** X22: whatever the cache holds, [rangeQuery] hands to the callback only
    points of the closed query rectangle (so none at all when the rectangle
    is inverted), and it visits only cells of the grid: rows in
    [[0, grid_rows_)] and columns in [[0, grid_cols_)]. *)
Theorem rangeQuery_stays_in_rectangle_and_grid e min_lon min_lat max_lon max_lat :
  let calls := (TerrainStorageEngine.rangeQuery e min_lon min_lat max_lon max_lat).1 in
  (forall lon lat v,
      (lon, lat, v) ∈ calls ->
      (min_lon <= lon)%Q /\ (lon <= max_lon)%Q /\ (min_lat <= lat)%Q /\ (lat <= max_lat)%Q) /\
  ((max_lon < min_lon)%Q \/ (max_lat < min_lat)%Q -> calls = []) /\
  (forall id,
      id ∈ TerrainStorageEngine.covered_cells e min_lon min_lat max_lon max_lat ->
      exists row col,
        id = TerrainStorageEngine.formatGridId row col /\
        (0 <= row < TerrainStorageEngine.grid_rows_ e)%Z /\
        (0 <= col < TerrainStorageEngine.grid_cols_ e)%Z).
Proof.
  intros calls.
  assert (forall lon lat v,
            (lon, lat, v) ∈ calls ->
            (min_lon <= lon)%Q /\ (lon <= max_lon)%Q /\
            (min_lat <= lat)%Q /\ (lat <= max_lat)%Q) as Hin.
  { intros lon lat v H. subst calls. rewrite rangeQuery_query_cells in H.
    apply query_cells_in_rect in H as [H|H]; [by apply elem_of_nil in H|].
    by apply in_rect_spec. }
  split; [exact Hin|]. split.
  - intros Hinv. destruct calls as [|[[lon lat] v] l]; [done|]. exfalso.
    destruct (Hin lon lat v) as (H1 & H2 & H3 & H4); [left|].
    destruct Hinv as [H|H].
    + apply (Qlt_irrefl min_lon). eapply Qle_lt_trans; [|exact H]. by eapply Qle_trans.
    + apply (Qlt_irrefl min_lat). eapply Qle_lt_trans; [|exact H]. by eapply Qle_trans.
  - intros id. unfold TerrainStorageEngine.covered_cells. cbn zeta.
    intros (row & (col & ->%list_elem_of_singleton & Hcol%elem_of_seqZ)%list_elem_of_bind
            & Hrow%elem_of_seqZ)%list_elem_of_bind.
    exists row, col. split; [done|].
    unfold Num.int_max, Num.int_min in *.
    repeat match goal with
           | H : context [(?a <? ?b)%Z] |- _ => destruct (Z.ltb_spec a b)
           end; lia.
Qed.

(** The key range of a cell: the keys that start with the cell prefix and
    go on below the sentinel. *)
Lemma in_cell_range grid_id key :
  LevelDBManager.in_range (TerrainStorageEngine.start_key grid_id)
    (TerrainStorageEngine.end_key grid_id) key = true
  <-> exists rest, key = grid_id ++ "|" ++ rest /\ String.ltb rest "~" = true.
Proof.
  unfold LevelDBManager.in_range, TerrainStorageEngine.start_key, TerrainStorageEngine.end_key.
  assert (String.eqb (grid_id ++ "|~") "" = false) as -> by (by destruct grid_id).
  cbn [orb]. rewrite andb_true_iff. split.
  - intros [Hle Hlt]. destruct (between_prefix grid_id key Hle Hlt) as [rest ->].
    exists rest. split; [done|].
    change (grid_id ++ "|~") with (grid_id ++ "|" ++ "~") in Hlt.
    by rewrite !ltb_app_l in Hlt.
  - intros (rest & -> & Hlt). split.
    + rewrite <- (app_empty_r (grid_id ++ "|")), !app_assoc_string.
      unfold String.leb. rewrite !compare_app_l. by destruct rest.
    + change (grid_id ++ "|~") with (grid_id ++ "|" ++ "~"). by rewrite !ltb_app_l.
Qed.

(** X23: [preloadGrid] leaves the store as it is and leaves the cell
    resident, most recently used, with an item that holds exactly the stored
    entries whose key starts with the cell prefix [cell|] and goes on with
    text below the sentinel ["~"]; an item that was resident under the id is
    replaced. *)
Theorem preloadGrid_loads_cell e cell :
  let e' := TerrainStorageEngine.preloadGrid e cell in
  TerrainStorageEngine.db_manager_ e' = TerrainStorageEngine.db_manager_ e /\
  head (GridLRUCache.access_list_ (TerrainStorageEngine.cache_ e')) = Some cell /\
  exists item,
    GridLRUCache.cache_map_ (TerrainStorageEngine.cache_ e') !! cell = Some item /\
    grid_id item = cell /\
    forall key value,
      data item !! key = Some value
      <-> TerrainStorageEngine.db_manager_ e !! key = Some value /\
          exists rest, key = cell ++ "|" ++ rest /\ String.ltb rest "~" = true.
Proof.
  intros e'. subst e'. unfold TerrainStorageEngine.preloadGrid.
  pose proof (loaded_data (TerrainStorageEngine.db_manager_ e) cell) as Hdata.
  unfold TerrainStorageEngine.loadGridToCache.
  cbn [snd TerrainStorageEngine.db_manager_ TerrainStorageEngine.cache_
       TerrainStorageEngine.with_cache].
  split; [done|]. split.
  { unfold GridLRUCache.put. by repeat case_match. }
  eexists. split; [apply put_lookup_eq|]. cbn [grid_id data]. split; [done|].
  intros key value. rewrite Hdata. unfold cell_scan.
  rewrite map_lookup_filter_Some. cbn [fst]. by rewrite in_cell_range.
Qed.

End query_bounds.
